(** * BFE: routing table, forwarding pipeline, IP dictionary, HTTP/2 header checks

    A shallow embedding of the parts of the BFE reverse proxy that the
    specification's testable properties talk about:

    - [Http2]        bfe_http2/http2.go        (header field name / value checks)
    - [ReverseProxy] bfe_server/reverseproxy.go (retry loop, outbound request)
    - [HostTable]    bfe_route/host_table.go    (host / vip / product lookups)
    - [Ipdict]       bfe_util/ipdict/ipdict.go  (range array sort and merge)

    Go strings are byte sequences and are modelled by [string] (a list of
    8-bit [ascii]); Go slices updated in place are lists with stdpp's
    lookup and insert; Go maps are [gmap]s; [int] values are in [Z]. *)

From Stdlib Require Import ZArith Bool Lia.
From Stdlib.Strings Require Import Byte Ascii String.
From Stdlib.ZArith Require Import Zbitwise.
From stdpp Require Import base option list gmap strings sorting.

Set Warnings "-clear-no-such-hyp".

#[local] Open Scope Z_scope.

(* ===================================================================== *)
(** * Part I: the embedding                                               *)
(* ===================================================================== *)

(** ** Go runtime: iteration over the runes of a string *)

Module Utf8.

Definition RuneError : Z := 0xFFFD.

Definition byteVal (c : ascii) : Z := Z.of_N (N_of_ascii c).

(** [utf8.DecodeRuneInString]: the rune at the head of [s] and its width in
    bytes.  Ill-formed input decodes to [(RuneError, 1)].  The bounds of the
    second byte depend on the first one (Go's [acceptRanges]). *)
Definition DecodeRuneInString (s : string) : Z * nat :=
  match s with
  | EmptyString => (RuneError, 0%nat)
  | String c0 t =>
    let s0 := byteVal c0 in
    if s0 <? 0x80 then (s0, 1%nat)
    else if (s0 <? 0xC2) || (0xF4 <? s0) then (RuneError, 1%nat)
    else
      let lo := if s0 =? 0xE0 then 0xA0 else if s0 =? 0xF0 then 0x90 else 0x80 in
      let hi := if s0 =? 0xED then 0x9F else if s0 =? 0xF4 then 0x8F else 0xBF in
      match t with
      | EmptyString => (RuneError, 1%nat)
      | String c1 t1 =>
        let s1 := byteVal c1 in
        if (s1 <? lo) || (hi <? s1) then (RuneError, 1%nat)
        else if s0 <? 0xE0 then
          (Z.lor (Z.shiftl (Z.land s0 0x1F) 6) (Z.land s1 0x3F), 2%nat)
        else
          match t1 with
          | EmptyString => (RuneError, 1%nat)
          | String c2 t2 =>
            let s2 := byteVal c2 in
            if (s2 <? 0x80) || (0xBF <? s2) then (RuneError, 1%nat)
            else if s0 <? 0xF0 then
              (Z.lor (Z.lor (Z.shiftl (Z.land s0 0x0F) 12)
                            (Z.shiftl (Z.land s1 0x3F) 6))
                     (Z.land s2 0x3F), 3%nat)
            else
              match t2 with
              | EmptyString => (RuneError, 1%nat)
              | String c3 _ =>
                let s3 := byteVal c3 in
                if (s3 <? 0x80) || (0xBF <? s3) then (RuneError, 1%nat)
                else
                  (Z.lor (Z.lor (Z.lor (Z.shiftl (Z.land s0 0x07) 18)
                                       (Z.shiftl (Z.land s1 0x3F) 12))
                                (Z.shiftl (Z.land s2 0x3F) 6))
                         (Z.land s3 0x3F), 4%nat)
              end
          end
      end
  end.

End Utf8.

(** ** bfe_http2/http2.go *)

Module Http2.

(** The entries of [isTokenTable] that the source sets to [true], in the
    order of the source. *)
Definition isTokenTable_entries : string :=
  "!#$%&'*+-.0123456789ABCDEFGHIJKLMNOPQRSTUWVXYZ^_`abcdefghijklmnopqrstuvwxyz|~".

(** [len(isTokenTable)]: the table is a [[127]bool]. *)
Definition isTokenTable_len : Z := 127.

(** [isTokenTable[b]] for an index below [isTokenTable_len]. *)
Definition isTokenTable (b : Z) : bool :=
  existsb (fun c => Utf8.byteVal c =? b) (list_ascii_of_string isTokenTable_entries).

(** The body of [for _, r := range v] in [validHeaderFieldName]: [skip]
    counts the bytes of the current rune that are still to be passed over. *)
Fixpoint validHeaderFieldName_loop (skip : nat) (v : string) : bool :=
  match v with
  | EmptyString => true
  | String _ t =>
    match skip with
    | S k => validHeaderFieldName_loop k t
    | O =>
      let '(r, size) := Utf8.DecodeRuneInString v in
      if (isTokenTable_len <=? r) || ((65 <=? r) && (r <=? 90)) then false
      else if negb (isTokenTable (r mod 256)) then false
      else validHeaderFieldName_loop (size - 1) t
    end
  end.

Definition validHeaderFieldName (v : string) : bool :=
  if (String.length v =? 0)%nat then false
  else validHeaderFieldName_loop 0 v.

(** [for i := 0; i < len(v); i++ { b := v[i]; ... }] *)
Fixpoint validHeaderFieldValue (v : string) : bool :=
  match v with
  | EmptyString => true
  | String c t =>
    let b := Utf8.byteVal c in
    if ((b <? 32) && negb (b =? 9)) || (b =? 0x7f) then false
    else validHeaderFieldValue t
  end.

(** RFC 7230 [tchar], as quoted in the comment of [validHeaderFieldName]:
    the fifteen punctuation marks, DIGIT and ALPHA. *)
Definition rfc7230_tchar (c : ascii) : Prop :=
  let b := Utf8.byteVal c in
  In c (list_ascii_of_string "!#$%&'*+-.^_`|~")
  \/ 48 <= b <= 57                     (* DIGIT *)
  \/ 65 <= b <= 90 \/ 97 <= b <= 122.  (* ALPHA *)

Definition upper_ascii (c : ascii) : Prop := 65 <= Utf8.byteVal c <= 90.

(** What one pass of the loop of [validHeaderFieldName] accepts when the
    rune is a single byte. *)
Definition nameByte_ok (c : ascii) : bool :=
  let b := Utf8.byteVal c in
  negb ((isTokenTable_len <=? b) || ((65 <=? b) && (b <=? 90))) && isTokenTable b.

(** Boolean reading of [rfc7230_tchar] and [upper_ascii]. *)
Definition rfc7230_tcharb (c : ascii) : bool :=
  let b := Utf8.byteVal c in
  existsb (Ascii.eqb c) (list_ascii_of_string "!#$%&'*+-.^_`|~")
  || ((48 <=? b) && (b <=? 57))
  || ((65 <=? b) && (b <=? 90)) || ((97 <=? b) && (b <=? 122)).

Definition upper_asciib (c : ascii) : bool :=
  (65 <=? Utf8.byteVal c) && (Utf8.byteVal c <=? 90).

End Http2.

(** ** bfe_server/reverseproxy.go *)

Module ReverseProxy.

(** [cluster_conf.RetryConnect] and [cluster_conf.RetryGet]. *)
Definition RetryConnect : Z := 0.
Definition RetryGet : Z := 1.

(** The value held by [req.Body], as far as [checkRequestWithoutBody]
    inspects it. *)
Inductive RequestBody : Type :=
| BodyNil                    (* nil *)
| BodyEofReader              (* bfe_http.EofReader *)
| BodySpdy (eof : bool)      (* *bfe_spdy.RequestBody and what its Eof() says *)
| BodyOther.                 (* any other reader *)

(** [bfe_http.Request]; [Header] is a reference to a map kept in the heap
    of header maps, so that two requests may share one map. *)
Record Request : Type := mkRequest {
  Method : string;
  Proto : string;
  ProtoMajor : Z;
  ProtoMinor : Z;
  Close : bool;
  Host : string;
  Header : positive;
  Body : RequestBody;
}.

Abbreviation HeaderMap := (gmap string (list string)).
Abbreviation Heap := (gmap positive (gmap string (list string))).
















(** *** Retry policy *)

Definition checkRequestWithoutBody (req : Request) : bool :=
  match Body req with
  | BodyNil | BodyEofReader => true
  | BodySpdy eof => eof
  | BodyOther => false
  end.

Definition checkAllowRetry (retryLevel : Z) (outreq : Request) : bool :=
  if retryLevel =? RetryGet then
    if String.eqb (Method outreq) "GET" && checkRequestWithoutBody outreq
    then true else false
  else false.

(** The dynamic type of the error of [transport.RoundTrip]. *)
Inductive RoundTripError : Type :=
| ConnectError
| WriteRequestError
| ReadRespHeaderError
| RespHeaderTimeoutError
| TransportBrokenError
| OtherError.

Inductive ErrCode : Type :=
| ErrBkNoCluster
| ErrBkConnectBackend
| ErrBkWriteRequest
| ErrBkReadRespHeader
| ErrBkRespHeaderTimeout
| ErrBkTransportBroken.

(** The [switch err.(type)] of [clusterInvoke]: the error code it records
    (none in the default case) and the value it leaves in [allowRetry]. *)
Definition classifyError (retryLevel : Z) (outreq : Request)
    (err : RoundTripError) : option ErrCode * bool :=
  match err with
  | ConnectError => (Some ErrBkConnectBackend, true)
  | WriteRequestError => (Some ErrBkWriteRequest, checkAllowRetry retryLevel outreq)
  | ReadRespHeaderError => (Some ErrBkReadRespHeader, checkAllowRetry retryLevel outreq)
  | RespHeaderTimeoutError =>
      (Some ErrBkRespHeaderTimeout, checkAllowRetry retryLevel outreq)
  | TransportBrokenError =>
      (Some ErrBkTransportBroken, checkAllowRetry retryLevel outreq)
  | OtherError => (None, false)
  end.

(** The variable [err] of [clusterInvoke]. *)
Inductive InvokeError : Type :=
| ErrBkCrossRetryBalance
| BalanceError
| LookupError
| ForwardError (e : RoundTripError).

Inductive Action : Type := actionUnset | closeAfterReply.

(** The part of the request and of the results of [clusterInvoke] that the
    loop reads and writes, with two counters of the calls made so far. *)
Record InvokeState : Type := mkInvokeState {
  RetryTime : Z;
  ReqErrCode : option ErrCode;
  err : option InvokeError;
  action : Action;
  gotResponse : bool;
  balanceCalls : nat;     (* calls of bal.Balance *)
  roundTrips : nat;       (* calls of transport.RoundTrip *)
}.

Inductive BalanceResult : Type :=
| BalanceBackend            (* err == nil: a backend was chosen *)
| BalanceCrossRetry         (* err == bfe_basic.ErrBkCrossRetryBalance *)
| BalanceFailed.            (* any other error *)

(** What lies outside [clusterInvoke]: the balancer, the forward filters
    and the transport.  Each answer may depend on the loop index and on the
    state reached, hence on everything that happened before. *)
Record Env : Type := mkEnv {
  balLookup : bool;                                    (* srv.balTable.Lookup succeeds *)
  Balance : Z -> InvokeState -> BalanceResult;
  FilterForwardFinish : Z -> InvokeState -> bool;      (* a list is set and says FINISH *)
  RoundTrip : Z -> InvokeState -> option RoundTripError;
}.

Inductive Flow : Type := Continue | Break | Return.

(** One pass of [for i := 0; i < 20; i++] in [clusterInvoke]. *)
Definition clusterInvoke_body (env : Env) (retryLevel : Z) (outreq : Request)
    (i : Z) (st : InvokeState) : Flow * InvokeState :=
  let st := {| RetryTime := RetryTime st; ReqErrCode := ReqErrCode st;
               err := err st; action := action st; gotResponse := gotResponse st;
               balanceCalls := S (balanceCalls st); roundTrips := roundTrips st |} in
  match Balance env i st with
  | BalanceCrossRetry =>
      (Continue,
       {| RetryTime := RetryTime st + 1; ReqErrCode := ReqErrCode st;
          err := Some ErrBkCrossRetryBalance; action := action st;
          gotResponse := gotResponse st;
          balanceCalls := balanceCalls st; roundTrips := roundTrips st |})
  | BalanceFailed =>
      (Break,
       {| RetryTime := RetryTime st; ReqErrCode := ReqErrCode st;
          err := Some BalanceError; action := action st;
          gotResponse := gotResponse st;
          balanceCalls := balanceCalls st; roundTrips := roundTrips st |})
  | BalanceBackend =>
      let st := {| RetryTime := RetryTime st; ReqErrCode := ReqErrCode st;
                   err := None; action := action st; gotResponse := gotResponse st;
                   balanceCalls := balanceCalls st; roundTrips := roundTrips st |} in
      if FilterForwardFinish env i st then
        (Return,
         {| RetryTime := RetryTime st; ReqErrCode := ReqErrCode st;
            err := err st; action := closeAfterReply; gotResponse := gotResponse st;
            balanceCalls := balanceCalls st; roundTrips := roundTrips st |})
      else
        let st := {| RetryTime := RetryTime st; ReqErrCode := ReqErrCode st;
                     err := err st; action := action st; gotResponse := gotResponse st;
                     balanceCalls := balanceCalls st;
                     roundTrips := S (roundTrips st) |} in
        match RoundTrip env i st with
        | None =>
            (Break,
             {| RetryTime := RetryTime st; ReqErrCode := None;
                err := None; action := action st; gotResponse := true;
                balanceCalls := balanceCalls st; roundTrips := roundTrips st |})
        | Some e =>
            let '(code, allowRetry) := classifyError retryLevel outreq e in
            let st := {| RetryTime := RetryTime st;
                         ReqErrCode := match code with
                                       | Some c => Some c
                                       | None => ReqErrCode st
                                       end;
                         err := Some (ForwardError e); action := action st;
                         gotResponse := false;
                         balanceCalls := balanceCalls st;
                         roundTrips := roundTrips st |} in
            if negb allowRetry then (Break, st)
            else
              (Continue,
               {| RetryTime := RetryTime st + 1; ReqErrCode := ReqErrCode st;
                  err := err st; action := action st; gotResponse := gotResponse st;
                  balanceCalls := balanceCalls st; roundTrips := roundTrips st |})
        end
  end.

(** The loop itself.  [fuel] bounds the recursion of the model only: the
    guard [i < 20] is the one of the source, and [None] means that the fuel
    ran out before the loop ended. *)
Fixpoint clusterInvoke_loop (env : Env) (retryLevel : Z) (outreq : Request)
    (fuel : nat) (i : Z) (st : InvokeState) : option InvokeState :=
  match fuel with
  | O => None
  | S fuel' =>
    if i <? 20 then
      match clusterInvoke_body env retryLevel outreq i st with
      | (Continue, st') =>
          clusterInvoke_loop env retryLevel outreq fuel' (i + 1) st'
      | (Break, st') => Some st'
      | (Return, st') => Some st'
      end
    else Some st
  end.

Definition clusterInvoke (env : Env) (retryLevel : Z) (outreq : Request)
    (fuel : nat) (st : InvokeState) : option InvokeState :=
  if negb (balLookup env) then
    Some {| RetryTime := RetryTime st; ReqErrCode := Some ErrBkNoCluster;
            err := Some LookupError; action := closeAfterReply;
            gotResponse := false;
            balanceCalls := balanceCalls st; roundTrips := roundTrips st |}
  else clusterInvoke_loop env retryLevel outreq fuel 0 st.


(** An environment whose balancer asks for a cross-cluster retry at every
    call, and a request to run it on. *)
Definition crossRetryForever : Env :=
  {| balLookup := true;
     Balance := fun _ _ => BalanceCrossRetry;
     FilterForwardFinish := fun _ _ => false;
     RoundTrip := fun _ _ => None |}.


Definition getRequest : Request :=
  {| Method := "GET"; Proto := "HTTP/2.0"; ProtoMajor := 2; ProtoMinor := 0;
     Close := false; Host := "example.org"; Header := 1%positive;
     Body := BodyNil |}.

Definition freshState : InvokeState :=
  {| RetryTime := 0; ReqErrCode := None; err := None; action := actionUnset;
     gotResponse := false; balanceCalls := 0; roundTrips := 0 |}.

End ReverseProxy.

(** ** bfe_route/host_table.go *)

Module HostTable.

(** Host names are ASCII text, on which Go's runes are the bytes: a rune
    of [[]rune(host)] is an [ascii] here. *)

(** [strings.ToLower]. *)
Definition toLower (c : ascii) : ascii :=
  let b := Utf8.byteVal c in
  if (65 <=? b) && (b <=? 90) then ascii_of_N (Z.to_N (b + 32)) else c.

Fixpoint strings_ToLower (s : string) : string :=
  match s with
  | EmptyString => EmptyString
  | String c t => String (toLower c) (strings_ToLower t)
  end.

(** The pieces of [l] between the occurrences of [sep]; there is always at
    least one piece. *)
Fixpoint splitOn (sep : ascii) (l : list ascii) : list (list ascii) :=
  match l with
  | [] => [[]]
  | c :: t =>
    if Ascii.eqb c sep then [] :: splitOn sep t
    else match splitOn sep t with
         | piece :: rest => (c :: piece) :: rest
         | [] => [[c]]
         end
  end.

(** [strings.Split(s, sep)] for a separator of one byte. *)
Definition strings_Split (s : string) (sep : ascii) : list string :=
  map string_of_list_ascii (splitOn sep (list_ascii_of_string s)).

(** [hostnameStrip]: [strings.Split(hostname, ":")[0]]. *)
Definition hostnameStrip (hostname : string) : string :=
  match strings_Split hostname ":" with
  | first :: _ => first
  | [] => EmptyString
  end.

(** [for i, j := 0, len(r)-1; i < j; i, j = i+1, j-1 { r[i], r[j] = r[j], r[i] }];
    [fuel] bounds the number of passes of the model. *)
Fixpoint reverseFqdnHost_loop (fuel : nat) (i j : nat) (r : list ascii)
    : list ascii :=
  match fuel with
  | O => r
  | S fuel' =>
    if (i <? j)%nat then
      match r !! i, r !! j with
      | Some ri, Some rj =>
          reverseFqdnHost_loop fuel' (S i) (j - 1) (<[i := rj]> (<[j := ri]> r))
      | _, _ => r
      end
    else r
  end.

Definition reverseFqdnHost (host : string) : string :=
  let r := list_ascii_of_string host in
  let r := reverseFqdnHost_loop (length r) 0 (length r - 1) r in
  let r := match r with
           | c :: r' => if Ascii.eqb c "." then r' else r
           | [] => r
           end in
  string_of_list_ascii r.

Inductive RouteError : Type := ErrNoProduct | ErrNoProductRule | ErrNoMatchRule.

Record route : Type := mkRoute { product : string; tag : string }.

(** [bfe_basic.RequestRoute] and the fields of [bfe_basic.Request] that the
    table reads and writes; [Session_Vip] is [None] for a nil VIP and holds
    [vip.String()] otherwise. *)
Record RequestRoute : Type := mkRequestRoute {
  Error : option RouteError;
  HostTag : string;
  Product : string;
  ClusterName : string;
}.

Record Request : Type := mkRequest {
  HttpRequest_Host : string;
  HttpRequest_Path : string;
  Session_Vip : option string;
  Route : RequestRoute;
}.

(** A rule of [route_rule_conf]: [Cond.Match] is a test of the request. *)
Record RouteRule : Type := mkRouteRule {
  Cond : Request -> bool;
  RuleClusterName : string;
}.


Section WithTrie.

(** The package [bfe_route/trie] is not among the sources: a trie, its
    constructor, [Set] and [Get] are parameters. *)
Context {Trie : Type}.
Variable trie_NewTrie : Trie.
Variable trie_Set : Trie -> list string -> route -> Trie.
Variable trie_Get : Trie -> list string -> option route.

Record HostTable : Type := mkHostTable {
  vipTable : gmap string string;
  defaultProduct : string;
  hostTrie : option Trie;                          (* nil or a trie *)
  productRouteTable : gmap string (list RouteRule);
}.

Definition findHostRoute (t : HostTable) (host : string)
    : route * option RouteError :=
  match hostTrie t with
  | None => (mkRoute EmptyString EmptyString, Some ErrNoProduct)
  | Some tr =>
    let host := strings_ToLower host in
    match trie_Get tr (strings_Split (reverseFqdnHost (hostnameStrip host)) ".") with
    | Some rt => (rt, None)
    | None => (mkRoute EmptyString EmptyString, Some ErrNoProduct)
    end
  end.

Definition findVipRoute (t : HostTable) (vip : string)
    : route * option RouteError :=
  if (size (vipTable t) =? 0)%nat then
    (mkRoute EmptyString EmptyString, Some ErrNoProduct)
  else
    match vipTable t !! vip with
    | Some p => (mkRoute p EmptyString, None)
    | None => (mkRoute EmptyString EmptyString, Some ErrNoProduct)
    end.


Definition setRoute (req : Request) (r : RequestRoute) : Request :=
  {| HttpRequest_Host := HttpRequest_Host req;
     HttpRequest_Path := HttpRequest_Path req;
     Session_Vip := Session_Vip req;
     Route := r |}.

Definition LookupHostTagAndProduct (t : HostTable) (req : Request)
    : Request * option RouteError :=
  let hostName := HttpRequest_Host req in
  let '(hostRoute, err) := findHostRoute t hostName in
  let '(hostRoute, err) :=
    match err with
    | Some _ =>
      match Session_Vip req with
      | Some vip => findVipRoute t vip
      | None => (hostRoute, err)
      end
    | None => (hostRoute, err)
    end in
  let '(hostRoute, err) :=
    match err with
    | Some _ =>
      if negb (String.eqb (defaultProduct t) EmptyString)
      then (mkRoute (defaultProduct t) EmptyString, None)
      else (hostRoute, err)
    | None => (hostRoute, err)
    end in
  (setRoute req {| Error := err;
                   HostTag := tag hostRoute;
                   Product := product hostRoute;
                   ClusterName := ClusterName (Route req) |},
   err).

End WithTrie.

(** The loop [for _, rule := range rules] of [LookupCluster], started with
    the current value of [clusterName]. *)
Fixpoint LookupCluster_loop (rules : list RouteRule) (req : Request)
    (clusterName : string) : string :=
  match rules with
  | [] => clusterName
  | rule :: rest =>
    if Cond rule req then RuleClusterName rule
    else LookupCluster_loop rest req clusterName
  end.

Definition failRoute (req : Request) (e : RouteError) : Request :=
  setRoute req {| Error := Some e;
                  HostTag := HostTag (Route req);
                  Product := Product (Route req);
                  ClusterName := EmptyString |}.

(** [LookupCluster] reads only [productRouteTable]. *)
Definition LookupCluster (productRouteTable : gmap string (list RouteRule))
    (req : Request) : Request * option RouteError :=
  match productRouteTable !! Product (Route req) with
  | None => (failRoute req ErrNoProductRule, Some ErrNoProductRule)
  | Some rules =>
    let clusterName := LookupCluster_loop rules req EmptyString in
    if String.eqb clusterName EmptyString then
      (failRoute req ErrNoMatchRule, Some ErrNoMatchRule)
    else
      (setRoute req {| Error := Error (Route req);
                       HostTag := HostTag (Route req);
                       Product := Product (Route req);
                       ClusterName := clusterName |},
       None)
  end.





(** A product whose only rule matches every request and names no cluster,
    and a request of that product. *)
Definition unnamedRule : RouteRule :=
  {| Cond := fun _ => true; RuleClusterName := EmptyString |}.

Definition unnamedTable : gmap string (list RouteRule) :=
  {[ "P1"%string := [unnamedRule] ]}.

Definition requestOfP1 : Request :=
  {| HttpRequest_Host := "www.example.com"; HttpRequest_Path := "/";
     Session_Vip := None;
     Route := {| Error := None; HostTag := "tag1"; Product := "P1";
                 ClusterName := EmptyString |} |}.

(** The words of the specification. *)

(** The product found through the VIP of the session, if it has one and
    the VIP table knows it. *)
Definition vipProduct (vipTable : gmap string string) (req : Request)
    : option string :=
  Session_Vip req ≫= fun vip => vipTable !! vip.

(** The first rule of the list whose condition matches the request. *)
Definition firstMatch (rules : list RouteRule) (req : Request) : option RouteRule :=
  List.find (fun rule => Cond rule req) rules.




End HostTable.

(** ** bfe_util/ipdict/ipdict.go *)

Module Ipdict.

(** [net.IP] is a byte slice. *)
#[global] Instance byte_eq_dec : EqDecision byte := Byte.byte_eq_dec.

(** [bytes.Compare]: lexicographic, with the result -1, 0 or 1. *)
Fixpoint bytes_Compare (a b : list byte) : Z :=
  match a, b with
  | [], [] => 0
  | [], _ :: _ => -1
  | _ :: _, [] => 1
  | x :: a', y :: b' =>
    match N.compare (Byte.to_N x) (Byte.to_N y) with
    | Lt => -1
    | Gt => 1
    | Eq => bytes_Compare a' b'
    end
  end.

Definition bytes_Equal (a b : list byte) : bool := bool_decide (a = b).

(** [net.IPv4(a, b, c, d)] is the 16-byte form [::ffff:a.b.c.d];
    [net.IPv4zero] is [net.IPv4(0, 0, 0, 0)] and [net.IPv6zero] is [::]. *)
Definition net_IPv4 (a b c d : byte) : list byte :=
  replicate 10 x00 ++ [xff; xff; a; b; c; d].

Definition net_IPv4zero : list byte := net_IPv4 x00 x00 x00 x00.

Definition net_IPv6zero : list byte := replicate 16 x00.

(** [ip.To16()]; [None] is Go's nil. *)
Definition To16 (ip : list byte) : option (list byte) :=
  match ip with
  | [a; b; c; d] => Some (net_IPv4 a b c d)
  | _ => if (length ip =? 16)%nat then Some ip else None
  end.

Record ipPair : Type := mkIpPair { startIP : list byte; endIP : list byte }.

#[global] Instance ipPair_eq_dec : EqDecision ipPair.
Proof. solve_decision. Defined.

#[global] Instance ipPair_inhabited : Inhabited ipPair := populate (mkIpPair [] []).

(** The slice [ipItems.items].  An index expression [items[i]] is
    [items !!! i]; the loops below keep their indices within the slice. *)

Definition Len (items : list ipPair) : nat := length items.

Definition Less (items : list ipPair) (i j : nat) : bool :=
  0 <=? bytes_Compare (startIP (items !!! i)) (startIP (items !!! j)).

Definition Swap (items : list ipPair) (i j : nat) : list ipPair :=
  <[i := items !!! j]> (<[j := items !!! i]> items).

(** [sort.Sort] belongs to the Go library, not to the repository.  On a
    short slice (fewer than 7 elements in every release of Go, up to 12 in
    most) it is [insertionSort(data, 0, n)], transcribed here through [Less]
    and [Swap]:
    [for i := 1; i < n; i++ { for j := i; j > 0 && Less(j, j-1); j-- { Swap(j, j-1) } }]. *)
Fixpoint insertionSort_inner (items : list ipPair) (j : nat) : list ipPair :=
  match j with
  | O => items
  | S j' =>
    if Less items j j' then insertionSort_inner (Swap items j j') j'
    else items
  end.

Definition sort_Sort (items : list ipPair) : list ipPair :=
  foldl insertionSort_inner items (seq 1 (Len items - 1)).

(** The test that the merge uses for "this slot is empty". *)
Definition isZeroIP (ip : list byte) : bool :=
  bytes_Equal ip net_IPv6zero || bytes_Equal ip net_IPv4zero.

Definition zeroPair : ipPair := mkIpPair net_IPv6zero net_IPv6zero.

Definition setStartIP (p : ipPair) (ip : list byte) : ipPair := mkIpPair ip (endIP p).
Definition setEndIP (p : ipPair) (ip : list byte) : ipPair := mkIpPair (startIP p) ip.

(** The loop [for k := i + 1; k < j; k++] of [checkMerge]. *)
Definition checkMerge_body (st : list ipPair * Z) (k : nat) : list ipPair * Z :=
  let '(items, mergedNum) := st in
  if isZeroIP (endIP (items !!! k)) then (items, mergedNum)
  else (<[k := zeroPair]> items, mergedNum + 1).

Definition checkMerge (items : list ipPair) (i j : nat) : list ipPair * Z :=
  if 0 <=? bytes_Compare (endIP (items !!! j)) (startIP (items !!! i)) then
    let items := <[i := setStartIP (items !!! i) (startIP (items !!! j))]> items in
    let items :=
      if 0 <=? bytes_Compare (endIP (items !!! j)) (endIP (items !!! i))
      then <[i := setEndIP (items !!! i) (endIP (items !!! j))]> items
      else items in
    let items := <[j := zeroPair]> items in
    foldl checkMerge_body (items, 1) (seq (S i) (j - S i))
  else (items, 0).

(** The loop [for j := i + 1; j < length; j++] of [mergeItems]; its guard
    reads [items[j]] on the left and [items[i]] on the right, as the source
    does. *)
Definition mergeItems_inner (i : nat) (st : list ipPair * Z) (j : nat)
    : list ipPair * Z :=
  let '(items, mergedNum) := st in
  if bytes_Equal (endIP (items !!! j)) net_IPv6zero
     || bytes_Equal (endIP (items !!! i)) net_IPv4zero
  then (items, mergedNum)
  else
    let '(items, n) := checkMerge items i j in
    (items, mergedNum + n).

(** The loop [for i := 0; i < length-1; i++] of [mergeItems]. *)
Definition mergeItems_outer (length : nat) (st : list ipPair * Z) (i : nat)
    : list ipPair * Z :=
  let '(items, mergedNum) := st in
  if isZeroIP (endIP (items !!! i)) then (items, mergedNum)
  else foldl (mergeItems_inner i) (items, mergedNum) (seq (S i) (length - S i)).

Definition mergeItems (items : list ipPair) : list ipPair * Z :=
  let length := Len items in
  foldl (mergeItems_outer length) (items, 0) (seq 0 (length - 1)).

Definition Sort (items : list ipPair) : list ipPair :=
  let items := sort_Sort items in
  let '(items, mergedNum) := mergeItems items in
  let length := Z.of_nat (Len items) - mergedNum in
  let items := sort_Sort items in
  take (Z.to_nat length) items.

(** [InsertPair]; [checkIPPair] is not among the sources and is a
    parameter.  [None] stands for the error that is returned. *)
Definition InsertPair (checkIPPair : list byte -> list byte -> bool)
    (items : list ipPair) (startIP endIP : list byte) : option (list ipPair) :=
  if negb (checkIPPair startIP endIP) then None
  else
    match To16 startIP, To16 endIP with
    | Some startIP16, Some endIP16 => Some (items ++ [mkIpPair startIP16 endIP16])
    | _, _ => None
    end.

(** The inner guard of [mergeItems] with [items[j]] on both sides, as in the
    two sibling guards of the package; used to tell what the guard of the
    source changes. *)
Definition mergeItems_inner_sameIndex (i : nat) (st : list ipPair * Z) (j : nat)
    : list ipPair * Z :=
  let '(items, mergedNum) := st in
  if bytes_Equal (endIP (items !!! j)) net_IPv6zero
     || bytes_Equal (endIP (items !!! j)) net_IPv4zero
  then (items, mergedNum)
  else
    let '(items, n) := checkMerge items i j in
    (items, mergedNum + n).

Definition Sort_sameIndex (items : list ipPair) : list ipPair :=
  let items := sort_Sort items in
  let length0 := Len items in
  let '(items, mergedNum) :=
    foldl (fun st i =>
             let '(items, mergedNum) := st in
             if isZeroIP (endIP (items !!! i)) then (items, mergedNum)
             else foldl (mergeItems_inner_sameIndex i) (items, mergedNum)
                        (seq (S i) (length0 - S i)))
          (items, 0) (seq 0 (length0 - 1)) in
  let length := Z.of_nat (Len items) - mergedNum in
  let items := sort_Sort items in
  take (Z.to_nat length) items.

(** The words of the specification. *)

(** The big-endian number that an address spells. *)
Fixpoint ipVal (ip : list byte) : Z :=
  match ip with
  | [] => 0
  | x :: t => Z.of_N (Byte.to_N x) * 256 ^ Z.of_nat (length t) + ipVal t
  end.

(** Both ends of a pair are 16-byte addresses. *)
Definition ends16 (p : ipPair) : Prop :=
  length (startIP p) = 16%nat /\ length (endIP p) = 16%nat.

(** [q] does not start after [p]. *)
Definition byStartDesc (p q : ipPair) : Prop :=
  bytes_Compare (startIP q) (startIP p) <= 0.




(** [q] lies entirely below [p]: it ends before [p] starts. *)
Definition below (p q : ipPair) : Prop :=
  bytes_Compare (endIP q) (startIP p) < 0.

(** A range as [InsertPair] stores it (16-byte ends, start not after end)
    none of whose ends is taken for an empty slot: the start is not [::] and
    the end is neither [::] nor [0.0.0.0]. *)
Definition plainRange (p : ipPair) : Prop :=
  length (startIP p) = 16%nat /\ length (endIP p) = 16%nat /\
  bytes_Compare (startIP p) (endIP p) <= 0 /\
  startIP p <> net_IPv6zero /\ isZeroIP (endIP p) = false.

(** [plainRange] in numbers. *)
Definition goodRange (p : ipPair) : Prop :=
  ends16 p /\ 0 < ipVal (startIP p) /\ ipVal (startIP p) <= ipVal (endIP p) /\
  ipVal (endIP p) <> ipVal net_IPv4zero.

(** *** The state of the merge

    While [mergeItems] runs, every slot holds a good range or has been
    zeroed. *)
Definition slot (p : ipPair) : Prop := p = zeroPair \/ goodRange p.

(** The number of zeroed slots. *)
Definition zeroSlots (items : list ipPair) : Z :=
  Z.of_nat (length (filter (fun p => p = zeroPair) items)).

(** The numbers covered by the good ranges of a slice. *)
Definition cover (items : list ipPair) (z : Z) : Prop :=
  exists p, p ∈ items /\ goodRange p /\ ipVal (startIP p) <= z <= ipVal (endIP p).

(** Some good range of the slice contains the whole of [p]. *)
Definition held (items : list ipPair) (p : ipPair) : Prop :=
  exists r, r ∈ items /\ goodRange r /\
    ipVal (startIP r) <= ipVal (startIP p) /\ ipVal (endIP p) <= ipVal (endIP r).

(** The good ranges come in descending order of their starts. *)
Definition sortedLive (items : list ipPair) : Prop :=
  forall a b pa pb, (a < b)%nat ->
    items !! a = Some pa -> items !! b = Some pb ->
    goodRange pa -> goodRange pb ->
    ipVal (startIP pb) <= ipVal (startIP pa).

(** Every good range at an index below [i] lies entirely above the good
    ranges after it. *)
Definition apartBefore (i : nat) (items : list ipPair) : Prop :=
  forall a b pa pb, (a < i)%nat -> (a < b)%nat ->
    items !! a = Some pa -> items !! b = Some pb ->
    goodRange pa -> goodRange pb ->
    ipVal (endIP pb) < ipVal (startIP pa).

(** The range at [i] lies entirely above the good ranges between [i] and [j]. *)
Definition apartFrom (i j : nat) (items : list ipPair) : Prop :=
  forall b pi pb, (i < b < j)%nat ->
    items !! i = Some pi -> items !! b = Some pb -> goodRange pb ->
    ipVal (endIP pb) < ipVal (startIP pi).

(** What the loops of [mergeItems] keep true, with respect to the slice
    [items0] they started from. *)
Record mergeInv (items0 : list ipPair) (i : nat) (st : list ipPair * Z) : Prop :=
  mkMergeInv {
    inv_length : length st.1 = length items0;
    inv_slots : Forall slot st.1;
    inv_sorted : sortedLive st.1;
    inv_apart : apartBefore i st.1;
    inv_cover : forall z, cover st.1 z <-> cover items0 z;
    inv_contain : forall p, p ∈ items0 -> goodRange p -> held st.1 p;
    inv_count : st.2 = zeroSlots st.1;
  }.

(** The range that [checkMerge] leaves at [i] when it merges [pj] into
    [pi]: the start of [pj] and the larger of the two ends. *)
Definition merged (pi pj : ipPair) : ipPair :=
  mkIpPair (startIP pj)
           (if ipVal (endIP pi) <=? ipVal (endIP pj) then endIP pj else endIP pi).

Definition ip_0_0_0 (d : byte) : list byte := [x00; x00; x00; d].

Definition acceptAll (_ _ : list byte) : bool := true.

(** [10.0.0.5-10.0.0.20] and [10.0.0.15-10.0.0.30], which overlap;
    [10.0.0.5-10.0.0.10] and [10.0.0.11-10.0.0.20], which are adjacent. *)
Definition overlappingRanges : list ipPair :=
  [ mkIpPair (net_IPv4 x0a x00 x00 x05) (net_IPv4 x0a x00 x00 x14);
    mkIpPair (net_IPv4 x0a x00 x00 x0f) (net_IPv4 x0a x00 x00 x1e) ].


(** [0.0.0.1-0.0.0.1], [0.0.0.0-0.0.0.1] and [0.0.0.0-0.0.0.0], as
    [InsertPair] stores them. *)
Definition zeroEndedRanges : list ipPair :=
  [ mkIpPair (net_IPv4 x00 x00 x00 x01) (net_IPv4 x00 x00 x00 x01);
    mkIpPair net_IPv4zero (net_IPv4 x00 x00 x00 x01);
    mkIpPair net_IPv4zero net_IPv4zero ].

End Ipdict.

(** ** bfe_util/ipdict/ipdict.go: the slots that [mergeItems] counts *)

Module IpdictSlots.
Import Ipdict.

(** The number of slots whose end is [net.IPv6zero]. *)
Definition emptySlots (items : list ipPair) : Z :=
  Z.of_nat (length (filter (fun p => endIP p = net_IPv6zero) items)).

(** Both addresses of a pair satisfy [Q]. *)
Definition bothEnds (Q : list byte -> Prop) (p : ipPair) : Prop :=
  Q (startIP p) /\ Q (endIP p).

(** [192.168.0.1] to [192.168.0.9] and [::1] to [::2]. *)
Definition mixedRanges : list ipPair :=
  [ mkIpPair (net_IPv4 xc0 xa8 x00 x01) (net_IPv4 xc0 xa8 x00 x09);
    mkIpPair (replicate 15 x00 ++ [x01]) (replicate 15 x00 ++ [x02]) ].

End IpdictSlots.

(** ** bfe_route/host_table.go: the lookups built on the two steps *)

Module HostLookup.
Import HostTable.

Section WithTrie.

Context {Trie : Type}.
Variable trie_Get : Trie -> list string -> option route.

(** [bfe_basic.RequestRoute{}]. *)
Definition emptyRoute : RequestRoute :=
  {| Error := None; HostTag := EmptyString; Product := EmptyString;
     ClusterName := EmptyString |}.

(** [Lookup]; the request is returned with the route fields that the two
    steps have written into it. *)
Definition Lookup (t : HostTable (Trie:=Trie)) (req : Request)
    : Request * RequestRoute :=
  let route := emptyRoute in
  let '(req, err) := LookupHostTagAndProduct trie_Get t req in
  match err with
  | Some e =>
      (req, {| Error := Some e; HostTag := HostTag route;
               Product := Product route; ClusterName := ClusterName route |})
  | None =>
    let route := {| Error := Error route; HostTag := HostTag (Route req);
                    Product := Product (Route req);
                    ClusterName := ClusterName route |} in
    let '(req, err) := LookupCluster (productRouteTable t) req in
    match err with
    | Some e =>
        (req, {| Error := Some e; HostTag := HostTag route;
                 Product := Product route; ClusterName := ClusterName route |})
    | None =>
        (req, {| Error := Error route; HostTag := HostTag route;
                 Product := Product route;
                 ClusterName := ClusterName (Route req) |})
    end
  end.

Definition LookupProductByVip (t : HostTable (Trie:=Trie)) (vip : string)
    : string * option RouteError :=
  let '(hostRoute, err) := findVipRoute t vip in
  match err with
  | Some e => (EmptyString, Some e)
  | None => (product hostRoute, None)
  end.


End WithTrie.


End HostLookup.

(** ** bfe_http2/http2.go: the strings of the status codes *)

Module Http2Codes.

Section WithLibrary.

(** [http.StatusTextGet] and [strconv.Itoa] belong to other packages. *)
Variable http_StatusTextGet : Z -> string.
Variable strconv_Itoa : Z -> string.

(** One pass of [for i := 100; i <= 999; i++] in [init]. *)
Definition init_body (m : gmap Z string) (i : nat) : gmap Z string :=
  let i := Z.of_nat i in
  if negb (String.eqb (http_StatusTextGet i) EmptyString)
  then <[i := strconv_Itoa i]> m
  else m.

(** [httpCodeStringCommon] once [init] has run. *)
Definition httpCodeStringCommon : gmap Z string :=
  foldl init_body ∅ (seq 100 900).

Definition httpCodeString (code : Z) : string :=
  match httpCodeStringCommon !! code with
  | Some s => s
  | None => strconv_Itoa code
  end.

End WithLibrary.

(** What [validHeaderFieldValue] lets pass: no control byte but the tab. *)
Definition valueByte_ok (c : ascii) : Prop :=
  (32 <= Utf8.byteVal c \/ Utf8.byteVal c = 9) /\ Utf8.byteVal c <> 127.

End Http2Codes.

(** ** bfe_config/bfe_cluster_conf/cluster_conf/cluster_conf_load.go *)

Module ClusterConfLoad.

Definition RetryConnect : Z := 0.
Definition RetryGet : Z := 1.

Definition ClientIdOnly : Z := 0.
Definition ClientIpOnly : Z := 1.
Definition ClientIdPreferred : Z := 2.

Definition BalanceModeWrr : string := "WRR".
Definition BalanceModeWlc : string := "WLC".

Definition AnyStatusCode : Z := 0.

(** A field of pointer type is an [option]: [None] is nil.  A Go [int] is a
    [Z]; only [MatchStatusCode] computes with one, and there the 64 bits of
    an [int] are written out. *)
Record BackendCheck : Type := mkBackendCheck {
  Schem : option string;
  Uri : option string;
  Host : option string;
  StatusCode : option Z;
  FailNum : option Z;
  SuccNum : option Z;
  CheckTimeout : option Z;
  CheckInterval : option Z;
}.

Record BackendBasic : Type := mkBackendBasic {
  TimeoutConnSrv : option Z;
  TimeoutResponseHeader : option Z;
  MaxIdleConnsPerHost : option Z;
  RetryLevel : option Z;
}.

Record HashConf : Type := mkHashConf {
  HashStrategy : option Z;
  HashHeader : option string;
  SessionSticky : option bool;
}.

Record GslbBasicConf : Type := mkGslbBasicConf {
  CrossRetry : option Z;
  RetryMax : option Z;
  GslbHashConf : option HashConf;
  BalanceMode : option string;
}.

Record ClusterBasicConf : Type := mkClusterBasicConf {
  TimeoutReadClient : option Z;
  TimeoutWriteClient : option Z;
  TimeoutReadClientAgain : option Z;
  ReqWriteBufferSize : option Z;
  ReqFlushInterval : option Z;
  ResFlushInterval : option Z;
  CancelOnClientClose : option bool;
}.

Record ClusterConf : Type := mkClusterConf {
  BackendConf : option BackendBasic;
  CheckConf : option BackendCheck;
  GslbBasic : option GslbBasicConf;
  ClusterBasic : option ClusterBasicConf;
}.

Record BfeClusterConf : Type := mkBfeClusterConf {
  Version : option string;
  Config : option (gmap string ClusterConf);
}.

(** The errors, one constructor for each message of the source; the
    constructors [In...] are the messages that prefix another one. *)
Inductive ConfError : Type :=
  | NoTimeoutConnSrv | NoTimeoutResponseHeader
  | BadStatusCode
  | BadSchem | NoUri | BadUri | NoFailNum | BadSuccNum | NoCheckInterval
  | NoCrossRetry | NoRetryMax | UnsupportBalMode (mode : string)
  | NoHashStrategy | BadHashStrategy (strategy : Z) | NoHashHeader
  | InvalidHashHeader
  | TimeoutConfigureError
  | NoBackendConf | InBackendConf (e : ConfError)
  | NoCheckConf | InCheckConf (e : ConfError)
  | NoGslbBasic | InGslbBasic (e : ConfError)
  | NoClusterBasic | InClusterBasic (e : ConfError)
  | InCluster (clusterName : string) (e : ConfError)
  | NilBfeClusterConf | NoVersion | NoConfig | InConfig (e : ConfError).

(** A check takes the configuration its pointer leads to and returns it as
    the check leaves it, with the error ([None] is nil). *)

Definition BackendBasicCheck (conf : BackendBasic)
    : BackendBasic * option ConfError :=
  match TimeoutConnSrv conf with
  | None => (conf, Some NoTimeoutConnSrv)
  | Some _ =>
    match TimeoutResponseHeader conf with
    | None => (conf, Some NoTimeoutResponseHeader)
    | Some _ =>
      let conf :=
        match MaxIdleConnsPerHost conf with
        | None => mkBackendBasic (TimeoutConnSrv conf) (TimeoutResponseHeader conf)
                                 (Some 2) (RetryLevel conf)
        | Some _ => conf
        end in
      let conf :=
        match RetryLevel conf with
        | None => mkBackendBasic (TimeoutConnSrv conf) (TimeoutResponseHeader conf)
                                 (MaxIdleConnsPerHost conf) (Some RetryConnect)
        | Some _ => conf
        end in
      (conf, None)
    end
  end.

Definition checkStatusCode (statusCode : Z) : option ConfError :=
  if (100 <=? statusCode) && (statusCode <=? 599) then None
  else if (0 <=? statusCode) && (statusCode <=? 31) then None
  else Some BadStatusCode.

(** The arithmetic of a 64-bit [int]: the value of a result that does not
    fit, the conversion [uint(x)], and [x << s] for an unsigned count. *)
Definition int_wrap (z : Z) : Z := (z + 2 ^ 63) mod 2 ^ 64 - 2 ^ 63.

Definition uint_of_int (z : Z) : Z := z mod 2 ^ 64.

Definition int_shl (x s : Z) : Z :=
  if s <? 64 then int_wrap (Z.shiftl x s) else 0.

(** [MatchStatusCode]; the error is non-nil exactly when the result is
    [false], and its text is made of the two codes. *)
Inductive MatchError : Type :=
  | StatusMismatch (statusCodeGet statusCodeExpect : Z).

Definition MatchStatusCode (statusCodeGet statusCodeExpect : Z)
    : bool * option MatchError :=
  if (100 <=? statusCodeExpect) && (statusCodeExpect <=? 599)
     && (statusCodeGet =? statusCodeExpect)
  then (true, None)
  else if statusCodeExpect =? AnyStatusCode then (true, None)
  else if (1 <=? statusCodeExpect) && (statusCodeExpect <=? 31)
          && negb (Z.land statusCodeExpect
                     (int_shl 1 (uint_of_int (Z.quot statusCodeGet 100 - 1))) =? 0)
  then (true, None)
  else (false, Some (StatusMismatch statusCodeGet statusCodeExpect)).

(** [strings.HasPrefix(s, "/")]. *)
Definition hasSlashPrefix (s : string) : bool :=
  match s with
  | String c _ => Ascii.eqb c "/"
  | EmptyString => false
  end.

Definition setSchem (conf : BackendCheck) (v : string) : BackendCheck :=
  mkBackendCheck (Some v) (Uri conf) (Host conf) (StatusCode conf) (FailNum conf)
                 (SuccNum conf) (CheckTimeout conf) (CheckInterval conf).

Definition setStatusCode (conf : BackendCheck) (v : Z) : BackendCheck :=
  mkBackendCheck (Schem conf) (Uri conf) (Host conf) (Some v) (FailNum conf)
                 (SuccNum conf) (CheckTimeout conf) (CheckInterval conf).

Definition setSuccNum (conf : BackendCheck) (v : Z) : BackendCheck :=
  mkBackendCheck (Schem conf) (Uri conf) (Host conf) (StatusCode conf) (FailNum conf)
                 (Some v) (CheckTimeout conf) (CheckInterval conf).

(** The part of [BackendCheckCheck] after the block for [http]. *)
Definition BackendCheckCheck_tail (conf : BackendCheck)
    : BackendCheck * option ConfError :=
  match FailNum conf with
  | None => (conf, Some NoFailNum)
  | Some _ =>
    let conf := match SuccNum conf with
                | None => setSuccNum conf 1
                | Some _ => conf
                end in
    if default 0 (SuccNum conf) <? 1 then (conf, Some BadSuccNum)
    else
      match CheckInterval conf with
      | None => (conf, Some NoCheckInterval)
      | Some _ => (conf, None)
      end
  end.

(** The block [if *conf.Schem == "http"]. *)
Definition BackendCheckCheck_http (conf : BackendCheck)
    : BackendCheck * option ConfError :=
  match Uri conf with
  | None => (conf, Some NoUri)
  | Some uri =>
    if negb (hasSlashPrefix uri) then (conf, Some BadUri)
    else
      let conf := match StatusCode conf with
                  | None => setStatusCode conf 200
                  | Some _ => conf
                  end in
      match checkStatusCode (default 0 (StatusCode conf)) with
      | Some err => (conf, Some err)
      | None => BackendCheckCheck_tail conf
      end
  end.

Definition BackendCheckCheck (conf : BackendCheck)
    : BackendCheck * option ConfError :=
  let bad := match Schem conf with
             | None => false
             | Some s => negb (String.eqb s "http") && negb (String.eqb s "tcp")
             end in
  if bad then (conf, Some BadSchem)
  else
    let conf := match Schem conf with
                | None => setSchem conf "http"
                | Some _ => conf
                end in
    if String.eqb (default EmptyString (Schem conf)) "http"
    then BackendCheckCheck_http conf
    else BackendCheckCheck_tail conf.

(** [strings.ToUpper] on ASCII text. *)
Definition toUpper (c : ascii) : ascii :=
  let b := Utf8.byteVal c in
  if (97 <=? b) && (b <=? 122) then ascii_of_N (Z.to_N (b - 32)) else c.

Fixpoint strings_ToUpper (s : string) : string :=
  match s with
  | EmptyString => EmptyString
  | String c t => String (toUpper c) (strings_ToUpper t)
  end.

(** [strings.Index(s, ":")] for a separator of one byte: -1 when absent. *)
Fixpoint strings_Index (s : string) (sep : ascii) : Z :=
  match s with
  | EmptyString => -1
  | String c t =>
    if Ascii.eqb c sep then 0
    else let i := strings_Index t sep in if i <? 0 then -1 else i + 1
  end.

(** The slice [s[n:]]. *)
Fixpoint string_from (n : nat) (s : string) : string :=
  match n, s with
  | O, _ => s
  | S n', String _ t => string_from n' t
  | S _, EmptyString => EmptyString
  end.

Section WithTrimSpace.

(** [strings.TrimSpace] belongs to the Go library. *)
Variable strings_TrimSpace : string -> string.

Definition GetCookieKey (header : string) : string * bool :=
  let i := strings_Index header ":" in
  if i <? 0 then (EmptyString, false)
  else (strings_TrimSpace (string_from (Z.to_nat (i + 1)) header), true).

Definition HashConfCheck (conf : HashConf) : HashConf * option ConfError :=
  match HashStrategy conf with
  | None => (conf, Some NoHashStrategy)
  | Some strategy =>
    if negb (strategy =? ClientIdOnly) && negb (strategy =? ClientIpOnly)
       && negb (strategy =? ClientIdPreferred)
    then (conf, Some (BadHashStrategy strategy))
    else
      let headerError :=
        if (strategy =? ClientIdOnly) || (strategy =? ClientIdPreferred) then
          match HashHeader conf with
          | None => Some NoHashHeader
          | Some header =>
            if (String.length header =? 0)%nat then Some NoHashHeader
            else
              let '(cookieKey, ok) := GetCookieKey header in
              if ok && (String.length cookieKey =? 0)%nat
              then Some InvalidHashHeader
              else None
          end
        else None in
      match headerError with
      | Some err => (conf, Some err)
      | None =>
        let conf := match SessionSticky conf with
                    | None => mkHashConf (HashStrategy conf) (HashHeader conf)
                                         (Some false)
                    | Some _ => conf
                    end in
        (conf, None)
      end
  end.

Definition setHashConf (conf : GslbBasicConf) (h : HashConf) : GslbBasicConf :=
  mkGslbBasicConf (CrossRetry conf) (RetryMax conf) (Some h) (BalanceMode conf).

Definition setBalanceMode (conf : GslbBasicConf) (m : string) : GslbBasicConf :=
  mkGslbBasicConf (CrossRetry conf) (RetryMax conf) (GslbHashConf conf) (Some m).

Definition GslbBasicConfCheck (conf : GslbBasicConf)
    : GslbBasicConf * option ConfError :=
  match CrossRetry conf with
  | None => (conf, Some NoCrossRetry)
  | Some _ =>
    match RetryMax conf with
    | None => (conf, Some NoRetryMax)
    | Some _ =>
      let hashConf :=
        match GslbHashConf conf with
        | None => mkHashConf (Some ClientIpOnly) None (Some false)
        | Some h => h
        end in
      let '(hashConf, err) := HashConfCheck hashConf in
      let conf := setHashConf conf hashConf in
      match err with
      | Some e => (conf, Some e)
      | None =>
        let mode := match BalanceMode conf with
                    | None => BalanceModeWrr
                    | Some m => m
                    end in
        let mode := strings_ToUpper mode in
        let conf := setBalanceMode conf mode in
        if String.eqb mode BalanceModeWrr then (conf, None)
        else if String.eqb mode BalanceModeWlc then (conf, None)
        else (conf, Some (UnsupportBalMode mode))
      end
    end
  end.

Definition ClusterBasicConfCheck (conf : ClusterBasicConf)
    : ClusterBasicConf * option ConfError :=
  match TimeoutReadClientAgain conf, TimeoutReadClient conf, TimeoutWriteClient conf with
  | Some _, Some _, Some _ =>
    (mkClusterBasicConf
       (TimeoutReadClient conf) (TimeoutWriteClient conf)
       (TimeoutReadClientAgain conf)
       (Some (default 512 (ReqWriteBufferSize conf)))
       (Some (default 0 (ReqFlushInterval conf)))
       (Some (default 20 (ResFlushInterval conf)))
       (Some (default false (CancelOnClientClose conf))),
     None)
  | _, _, _ => (conf, Some TimeoutConfigureError)
  end.

(** [ClusterConfCheck]: each part is checked in turn, through its pointer,
    so that what a check has filled in stays when a later one fails. *)
Definition ClusterConfCheck (conf : ClusterConf) : ClusterConf * option ConfError :=
  match BackendConf conf with
  | None => (conf, Some NoBackendConf)
  | Some backend =>
    let '(backend, err) := BackendBasicCheck backend in
    let conf := mkClusterConf (Some backend) (CheckConf conf) (GslbBasic conf)
                              (ClusterBasic conf) in
    match err with
    | Some e => (conf, Some (InBackendConf e))
    | None =>
      match CheckConf conf with
      | None => (conf, Some NoCheckConf)
      | Some check =>
        let '(check, err) := BackendCheckCheck check in
        let conf := mkClusterConf (BackendConf conf) (Some check) (GslbBasic conf)
                                  (ClusterBasic conf) in
        match err with
        | Some e => (conf, Some (InCheckConf e))
        | None =>
          match GslbBasic conf with
          | None => (conf, Some NoGslbBasic)
          | Some gslb =>
            let '(gslb, err) := GslbBasicConfCheck gslb in
            let conf := mkClusterConf (BackendConf conf) (CheckConf conf) (Some gslb)
                                      (ClusterBasic conf) in
            match err with
            | Some e => (conf, Some (InGslbBasic e))
            | None =>
              match ClusterBasic conf with
              | None => (conf, Some NoClusterBasic)
              | Some basic =>
                let '(basic, err) := ClusterBasicConfCheck basic in
                let conf := mkClusterConf (BackendConf conf) (CheckConf conf)
                                          (GslbBasic conf) (Some basic) in
                match err with
                | Some e => (conf, Some (InClusterBasic e))
                | None => (conf, None)
                end
              end
            end
          end
        end
      end
    end
  end.

(** [for clusterName, clusterConf := range *conf] of [ClusterToConfCheck],
    over the entries in the order the loop meets them; the map holds what
    the checks have written through the pointers of each entry. *)
Fixpoint ClusterToConfCheck_loop (entries : list (string * ClusterConf))
    (conf : gmap string ClusterConf) : gmap string ClusterConf * option ConfError :=
  match entries with
  | [] => (conf, None)
  | (clusterName, clusterConf) :: rest =>
    let '(clusterConf, err) := ClusterConfCheck clusterConf in
    let conf := <[clusterName := clusterConf]> conf in
    match err with
    | Some e => (conf, Some (InCluster clusterName e))
    | None => ClusterToConfCheck_loop rest conf
    end
  end.

(** The order of [map_to_list] stands for the order Go leaves open. *)
Definition ClusterToConfCheck (conf : gmap string ClusterConf)
    : gmap string ClusterConf * option ConfError :=
  ClusterToConfCheck_loop (map_to_list conf) conf.

Definition BfeClusterConfCheck (conf : option BfeClusterConf)
    : option BfeClusterConf * option ConfError :=
  match conf with
  | None => (conf, Some NilBfeClusterConf)
  | Some c =>
    match Version c with
    | None => (conf, Some NoVersion)
    | Some _ =>
      match Config c with
      | None => (conf, Some NoConfig)
      | Some config =>
        let '(config, err) := ClusterToConfCheck config in
        let conf := Some (mkBfeClusterConf (Version c) (Some config)) in
        match err with
        | Some e => (conf, Some (InConfig e))
        | None => (conf, None)
        end
      end
    end
  end.

(** A configuration that needs nothing more from the checks: what is
    required is present and well formed, and what has a default is set. *)

Definition BackendBasic_complete (c : BackendBasic) : Prop :=
  is_Some (TimeoutConnSrv c) /\ is_Some (TimeoutResponseHeader c) /\
  is_Some (MaxIdleConnsPerHost c) /\ is_Some (RetryLevel c).

Definition BackendCheck_complete (c : BackendCheck) : Prop :=
  ((Schem c = Some "http"%string /\
    (exists uri, Uri c = Some uri /\ hasSlashPrefix uri = true) /\
    (exists code, StatusCode c = Some code /\ checkStatusCode code = None))
   \/ Schem c = Some "tcp"%string) /\
  is_Some (FailNum c) /\ (exists n, SuccNum c = Some n /\ 1 <= n) /\
  is_Some (CheckInterval c).

Definition HashConf_complete (h : HashConf) : Prop :=
  exists strategy, HashStrategy h = Some strategy /\
    (strategy = ClientIdOnly \/ strategy = ClientIpOnly \/
     strategy = ClientIdPreferred) /\
    (strategy <> ClientIpOnly ->
       exists header, HashHeader h = Some header /\ header <> EmptyString /\
         ((GetCookieKey header).2 = true ->
          (GetCookieKey header).1 <> EmptyString)) /\
    is_Some (SessionSticky h).

Definition GslbBasicConf_complete (g : GslbBasicConf) : Prop :=
  is_Some (CrossRetry g) /\ is_Some (RetryMax g) /\
  (exists h, GslbHashConf g = Some h /\ HashConf_complete h) /\
  (BalanceMode g = Some BalanceModeWrr \/ BalanceMode g = Some BalanceModeWlc).

Definition ClusterBasicConf_complete (b : ClusterBasicConf) : Prop :=
  is_Some (TimeoutReadClient b) /\ is_Some (TimeoutWriteClient b) /\
  is_Some (TimeoutReadClientAgain b) /\ is_Some (ReqWriteBufferSize b) /\
  is_Some (ReqFlushInterval b) /\ is_Some (ResFlushInterval b) /\
  is_Some (CancelOnClientClose b).

Definition ClusterConf_complete (c : ClusterConf) : Prop :=
  (exists b, BackendConf c = Some b /\ BackendBasic_complete b) /\
  (exists k, CheckConf c = Some k /\ BackendCheck_complete k) /\
  (exists g, GslbBasic c = Some g /\ GslbBasicConf_complete g) /\
  (exists b, ClusterBasic c = Some b /\ ClusterBasicConf_complete b).

End WithTrimSpace.

(** The parts of a configuration with their defaults filled in. *)

Definition BackendBasic_filled (b : BackendBasic) : BackendBasic :=
  mkBackendBasic (TimeoutConnSrv b) (TimeoutResponseHeader b)
                 (Some (default 2 (MaxIdleConnsPerHost b)))
                 (Some (default RetryConnect (RetryLevel b))).

Definition BackendCheck_filled (k : BackendCheck) : BackendCheck :=
  let schem := default "http"%string (Schem k) in
  mkBackendCheck (Some schem) (Uri k) (Host k)
                 (if String.eqb schem "http" then Some (default 200 (StatusCode k))
                  else StatusCode k)
                 (FailNum k) (Some (default 1 (SuccNum k)))
                 (CheckTimeout k) (CheckInterval k).

Definition HashConf_filled (h : option HashConf) : HashConf :=
  match h with
  | None => mkHashConf (Some ClientIpOnly) None (Some false)
  | Some h => mkHashConf (HashStrategy h) (HashHeader h)
                         (Some (default false (SessionSticky h)))
  end.

Definition GslbBasicConf_filled (g : GslbBasicConf) : GslbBasicConf :=
  mkGslbBasicConf (CrossRetry g) (RetryMax g)
                  (Some (HashConf_filled (GslbHashConf g)))
                  (Some (strings_ToUpper (default BalanceModeWrr (BalanceMode g)))).

Definition ClusterBasicConf_filled (b : ClusterBasicConf) : ClusterBasicConf :=
  mkClusterBasicConf (TimeoutReadClient b) (TimeoutWriteClient b)
                     (TimeoutReadClientAgain b)
                     (Some (default 512 (ReqWriteBufferSize b)))
                     (Some (default 0 (ReqFlushInterval b)))
                     (Some (default 20 (ResFlushInterval b)))
                     (Some (default false (CancelOnClientClose b))).

(** A configuration that gives only what the checks require. *)
Definition minimalConf : ClusterConf :=
  {| BackendConf := Some (mkBackendBasic (Some 2000) (Some 50000) None None);
     CheckConf := Some (mkBackendCheck None (Some "/health"%string) None None
                                       (Some 5) None None (Some 1000));
     GslbBasic := Some (mkGslbBasicConf (Some 0) (Some 2) None (Some "wlc"%string));
     ClusterBasic := Some (mkClusterBasicConf (Some 30000) (Some 60000) (Some 60000)
                                              None None None None) |}.

End ClusterConfLoad.

(** ** bfe_module: the lists of callback filters *)

Module HandlerList.

Definition HANDLERS_ACCEPT : Z := 0.
Definition HANDLERS_REQUEST : Z := 1.
Definition HANDLERS_FORWARD : Z := 2.
Definition HANDLERS_RESPONSE : Z := 3.
Definition HANDLERS_FINISH : Z := 4.

Definition BFE_HANDLER_FINISH : Z := 0.
Definition BFE_HANDLER_GOON : Z := 1.
Definition BFE_HANDLER_REDIRECT : Z := 2.
Definition BFE_HANDLER_RESPONSE : Z := 3.
Definition BFE_HANDLER_CLOSE : Z := 4.

Section WithTypes.

(** What a session, a request and a response hold is left open.  A callback
    works on them through pointers: it is a function of the state it finds
    that returns its results with the state it leaves. *)
Context {Session Request Response : Type}.

Definition SessionCallback : Type := Session -> Z * Session.
Definition RequestCallback : Type := Request -> (Z * option Response) * Request.
Definition ForwardCallback : Type := Request -> Z * Request.
Definition ResponseCallback : Type :=
  Request -> option Response -> Z * (Request * option Response).

(** An element of the list.  The file that declares the filter interfaces
    and [NewAcceptFilter] ... [NewFinishFilter] is not among the sources:
    the value that [New<Kind>Filter(callback)] builds is taken to be a
    filter of that kind only, whose method calls the callback. *)
Inductive Filter : Type :=
  | AcceptFilter (f : SessionCallback)
  | RequestFilter (f : RequestCallback)
  | ForwardFilter (f : ForwardCallback)
  | ResponseFilter (f : ResponseCallback)
  | FinishFilter (f : SessionCallback).

(** The [interface{}] that is passed to an [Add...Filter]: a function of one
    of the four types that the assertions test, or any other value. *)
Inductive Callback : Type :=
  | SessionFunc (f : SessionCallback)    (* func(session) int *)
  | RequestFunc (f : RequestCallback)    (* func(req) (int, res) *)
  | ForwardFunc (f : ForwardCallback)    (* func(req) int *)
  | ResponseFunc (f : ResponseCallback)  (* func(req, res) int *)
  | OtherValue.

Record HandlerList : Type := mkHandlerList {
  h_type : Z;
  handlers : list Filter;
}.

Definition NewHandlerList (h_type : Z) : HandlerList :=
  {| h_type := h_type; handlers := [] |}.

(** The loops [for e := hl.handlers.Front(); e != nil; e = e.Next()]; the
    branch [default] logs and leaves the loop. *)

Fixpoint FilterAccept_loop (es : list Filter) (retVal : Z) (session : Session)
    : Z * Session :=
  match es with
  | [] => (retVal, session)
  | AcceptFilter f :: rest =>
    let '(retVal, session) := f session in
    if negb (retVal =? BFE_HANDLER_GOON) then (retVal, session)
    else FilterAccept_loop rest retVal session
  | _ :: _ => (retVal, session)
  end.

Definition FilterAccept (hl : HandlerList) (session : Session) : Z * Session :=
  FilterAccept_loop (handlers hl) BFE_HANDLER_GOON session.

Fixpoint FilterRequest_loop (es : list Filter) (retVal : Z)
    (res : option Response) (req : Request) : (Z * option Response) * Request :=
  match es with
  | [] => ((retVal, res), req)
  | RequestFilter f :: rest =>
    let '((retVal, res), req) := f req in
    if negb (retVal =? BFE_HANDLER_GOON) then ((retVal, res), req)
    else FilterRequest_loop rest retVal res req
  | _ :: _ => ((retVal, res), req)
  end.

Definition FilterRequest (hl : HandlerList) (req : Request)
    : (Z * option Response) * Request :=
  FilterRequest_loop (handlers hl) BFE_HANDLER_GOON None req.

Fixpoint FilterForward_loop (es : list Filter) (retVal : Z) (req : Request)
    : Z * Request :=
  match es with
  | [] => (retVal, req)
  | ForwardFilter f :: rest =>
    let '(retVal, req) := f req in
    if negb (retVal =? BFE_HANDLER_GOON) then (retVal, req)
    else FilterForward_loop rest retVal req
  | _ :: _ => (retVal, req)
  end.

Definition FilterForward (hl : HandlerList) (req : Request) : Z * Request :=
  FilterForward_loop (handlers hl) BFE_HANDLER_GOON req.

Fixpoint FilterResponse_loop (es : list Filter) (retVal : Z)
    (req : Request) (res : option Response) : Z * (Request * option Response) :=
  match es with
  | [] => (retVal, (req, res))
  | ResponseFilter f :: rest =>
    let '(retVal, (req, res)) := f req res in
    if negb (retVal =? BFE_HANDLER_GOON) then (retVal, (req, res))
    else FilterResponse_loop rest retVal req res
  | _ :: _ => (retVal, (req, res))
  end.

Definition FilterResponse (hl : HandlerList) (req : Request)
    (res : option Response) : Z * (Request * option Response) :=
  FilterResponse_loop (handlers hl) BFE_HANDLER_GOON req res.

Fixpoint FilterFinish_loop (es : list Filter) (retVal : Z) (session : Session)
    : Z * Session :=
  match es with
  | [] => (retVal, session)
  | FinishFilter f :: rest =>
    let '(retVal, session) := f session in
    if negb (retVal =? BFE_HANDLER_GOON) then (retVal, session)
    else FilterFinish_loop rest retVal session
  | _ :: _ => (retVal, session)
  end.

Definition FilterFinish (hl : HandlerList) (session : Session) : Z * Session :=
  FilterFinish_loop (handlers hl) BFE_HANDLER_GOON session.

(** [hl.handlers.PushBack]. *)
Definition PushBack (hl : HandlerList) (e : Filter) : HandlerList :=
  {| h_type := h_type hl; handlers := handlers hl ++ [e] |}.

Inductive AddError : Type := InvalidCallbackFunc.

Definition AddAcceptFilter (hl : HandlerList) (f : Callback)
    : HandlerList * option AddError :=
  match f with
  | SessionFunc callback => (PushBack hl (AcceptFilter callback), None)
  | _ => (hl, Some InvalidCallbackFunc)
  end.

Definition AddRequestFilter (hl : HandlerList) (f : Callback)
    : HandlerList * option AddError :=
  match f with
  | RequestFunc callback => (PushBack hl (RequestFilter callback), None)
  | _ => (hl, Some InvalidCallbackFunc)
  end.

Definition AddForwardFilter (hl : HandlerList) (f : Callback)
    : HandlerList * option AddError :=
  match f with
  | ForwardFunc callback => (PushBack hl (ForwardFilter callback), None)
  | _ => (hl, Some InvalidCallbackFunc)
  end.

Definition AddResponseFilter (hl : HandlerList) (f : Callback)
    : HandlerList * option AddError :=
  match f with
  | ResponseFunc callback => (PushBack hl (ResponseFilter callback), None)
  | _ => (hl, Some InvalidCallbackFunc)
  end.

Definition AddFinishFilter (hl : HandlerList) (f : Callback)
    : HandlerList * option AddError :=
  match f with
  | SessionFunc callback => (PushBack hl (FinishFilter callback), None)
  | _ => (hl, Some InvalidCallbackFunc)
  end.

(** The kind of a filter, as the type switches of the loops test it. *)
Definition kindOf (e : Filter) : Z :=
  match e with
  | AcceptFilter _ => HANDLERS_ACCEPT
  | RequestFilter _ => HANDLERS_REQUEST
  | ForwardFilter _ => HANDLERS_FORWARD
  | ResponseFilter _ => HANDLERS_RESPONSE
  | FinishFilter _ => HANDLERS_FINISH
  end.

End WithTypes.

Arguments Filter : clear implicits.
Arguments Callback : clear implicits.
Arguments HandlerList : clear implicits.

(** Two filters of a request that count their calls in the request, the
    first going on and the second sending a response. *)
Definition countingGoOn : @RequestCallback nat unit :=
  fun n => ((BFE_HANDLER_GOON, None), S n).
Definition countingRespond : @RequestCallback nat unit :=
  fun n => ((BFE_HANDLER_RESPONSE, Some tt), S n).

End HandlerList.

(** ** bfe_server/reverseproxy.go: the flow of [ServeHTTP] *)

Module ServeHTTP.

(** The verdicts of the filters, as in [bfe_module]. *)
Definition BFE_HANDLER_FINISH : Z := 0.
Definition BFE_HANDLER_GOON : Z := 1.
Definition BFE_HANDLER_REDIRECT : Z := 2.
Definition BFE_HANDLER_RESPONSE : Z := 3.
Definition BFE_HANDLER_CLOSE : Z := 4.

Inductive Phase : Type :=
  HANDLE_BEFORE_LOCATION | HANDLE_FOUND_PRODUCT | HANDLE_AFTER_LOCATION.

(** The responses that [ServeHTTP] handles: the one of
    [CreateInternalSrvErrResp], one that a filter of the request made, and
    the one of the backend. *)
Inductive Response : Type :=
  | InternalSrvErrResp
  | FilterResp (phase : Phase)
  | BackendResp.

Inductive StatusCode : Type := StatusInternalServerError | RedirectCode.

Inductive ErrCode : Type :=
  ErrBkFindProduct | ErrBkFindLocation | ErrBkNoCluster | ErrClientWrite.

(** The calls that [ServeHTTP] makes, in the order it makes them. *)
Inductive Event : Type :=
  | CallFilterRequest (phase : Phase)
  | CallFindProduct
  | CallFindCluster
  | CallClusterLookup
  | CallRedirect
  | CallClusterInvoke
  | CallFilterResponse (res : option Response)
  | CallSendResponse (res : Response)
  | CallBodyClose
  | CallWriteTimerStop.

#[global] Instance Phase_eq_dec : EqDecision Phase.
Proof. solve_decision. Defined.
#[global] Instance Response_eq_dec : EqDecision Response.
Proof. solve_decision. Defined.
#[global] Instance Event_eq_dec : EqDecision Event.
Proof. solve_decision. Defined.

(** What lies outside [ServeHTTP].  Each of these is asked at most once in
    a run, so that one answer each stands for whatever the filters, the
    tables and the backend do.  A handler list that is nil is [None]; a
    filter of the request answers with its verdict and with whether it made
    a response; [clusterInvoke] answers with whether it got a response, its
    action and whether it failed. *)
Record Env : Type := mkEnv {
  filterRequest : Phase -> option (Z * bool);
  findProduct_ok : bool;
  findCluster_ok : bool;
  clusterLookup_ok : bool;
  invoke : bool * Z * bool;
  filterResponse : option Z;
  sendResponse_ok : bool;
  supportMultiplex : bool;
}.

(** The variables of [ServeHTTP] and the fields of the request that it
    writes. *)
Record State : Type := mkState {
  action : Z;
  res : option Response;
  isRedirect : bool;
  BfeStatusCode : option StatusCode;
  ReqErrCode : option ErrCode;
  events : list Event;
  deferred : list Event;      (* the deferred calls, the last one first *)
  panicked : bool;            (* a nil [res] was dereferenced *)
}.

Section WithActions.

(** The two actions are constants of the package that the sources do not
    show. *)
Variables closeDirectly closeAfterReply : Z.

Definition emit (e : Event) (st : State) : State :=
  mkState (action st) (res st) (isRedirect st) (BfeStatusCode st) (ReqErrCode st)
          (events st ++ [e]) (deferred st) (panicked st).

Definition setAction (a : Z) (st : State) : State :=
  mkState a (res st) (isRedirect st) (BfeStatusCode st) (ReqErrCode st)
          (events st) (deferred st) (panicked st).

Definition setRes (r : option Response) (st : State) : State :=
  mkState (action st) r (isRedirect st) (BfeStatusCode st) (ReqErrCode st)
          (events st) (deferred st) (panicked st).

Definition setStatus (c : StatusCode) (st : State) : State :=
  mkState (action st) (res st) (isRedirect st) (Some c) (ReqErrCode st)
          (events st) (deferred st) (panicked st).

Definition setErrCode (c : ErrCode) (st : State) : State :=
  mkState (action st) (res st) (isRedirect st) (BfeStatusCode st) (Some c)
          (events st) (deferred st) (panicked st).

(** [return]: the deferred calls run. *)
Definition ret (st : State) : State :=
  mkState (action st) (res st) (isRedirect st) (BfeStatusCode st) (ReqErrCode st)
          (events st ++ deferred st) [] (panicked st).

(** [Redirect(...); isRedirect = true; basicReq.BfeStatusCode = ...]. *)
Definition redirect (st : State) : State :=
  let st := emit CallRedirect st in
  mkState (action st) (res st) true (Some RedirectCode) (ReqErrCode st)
          (events st) (deferred st) (panicked st).

(** The label [send_response]. *)
Definition send_response (env : Env) (st : State) : State :=
  match isRedirect st, res st with
  | false, Some r =>
    let st := emit (CallSendResponse r) st in
    if sendResponse_ok env then ret st
    else
      let st := if negb (supportMultiplex env) then setAction closeAfterReply st
                else st in
      ret (setErrCode ErrClientWrite st)
  | _, _ => ret st
  end.

(** The label [response_got]. *)
Definition response_got (env : Env) (st : State) : State :=
  match filterResponse env with
  | None => send_response env st
  | Some retVal =>
    let st := emit (CallFilterResponse (res st)) st in
    if retVal =? BFE_HANDLER_FINISH then
      ret (setStatus StatusInternalServerError (setAction closeAfterReply st))
    else if retVal =? BFE_HANDLER_REDIRECT then send_response env (redirect st)
    else send_response env st
  end.

(** One of the three callbacks of the request, with what follows it when
    the verdict lets the request go on. *)
Definition requestPhase (env : Env) (phase : Phase) (st : State)
    (next : State -> State) : State :=
  match filterRequest env phase with
  | None => next st
  | Some (retVal, made) =>
    let st := emit (CallFilterRequest phase) st in
    let st := setRes (if made then Some (FilterResp phase) else None) st in
    if retVal =? BFE_HANDLER_CLOSE then ret (setAction closeDirectly st)
    else if retVal =? BFE_HANDLER_FINISH then
      ret (setStatus StatusInternalServerError (setAction closeAfterReply st))
    else if retVal =? BFE_HANDLER_REDIRECT then send_response env (redirect st)
    else if retVal =? BFE_HANDLER_RESPONSE then response_got env st
    else next st
  end.

(** The reply to a failed lookup. *)
Definition internalError (env : Env) (c : ErrCode) (st : State) : State :=
  response_got env
    (setAction closeAfterReply (setRes (Some InternalSrvErrResp) (setErrCode c st))).

Definition initialState : State :=
  mkState 0 None false None None [] [] false.

(** What follows the third callback: the call of [clusterInvoke] and the
    reply.  Three calls are deferred once [clusterInvoke] has returned
    without error, [writeTimer.Stop()], [p.setTimeout(...)] and
    [res.Body.Close()]; the last one reads [res.Body], which cannot be done
    when [res] is nil. *)
Definition invokeStage (env : Env) (st : State) : State :=
  let st := emit CallClusterInvoke st in
  let '(got, invokeAction, failed) := invoke env in
  let st := setAction invokeAction
              (setRes (if got then Some BackendResp else None) st) in
  if failed then
    response_got env
      (setRes (Some InternalSrvErrResp) (setStatus StatusInternalServerError st))
  else
    let st := mkState (action st) (res st) (isRedirect st) (BfeStatusCode st)
                      (ReqErrCode st) (events st) [CallWriteTimerStop]
                      (panicked st) in
    match res st with
    | None =>
        ret (mkState (action st) (res st) (isRedirect st) (BfeStatusCode st)
                     (ReqErrCode st) (events st) (deferred st) true)
    | Some _ =>
        response_got env
          (mkState (action st) (res st) (isRedirect st) (BfeStatusCode st)
                   (ReqErrCode st) (events st)
                   (CallBodyClose :: deferred st) (panicked st))
    end.

Definition ServeHTTP (env : Env) : State :=
  requestPhase env HANDLE_BEFORE_LOCATION initialState (fun st =>
  let st := emit CallFindProduct st in
  if negb (findProduct_ok env) then internalError env ErrBkFindProduct st else
  requestPhase env HANDLE_FOUND_PRODUCT st (fun st =>
  let st := emit CallFindCluster st in
  if negb (findCluster_ok env) then internalError env ErrBkFindLocation st else
  let st := emit CallClusterLookup st in
  if negb (clusterLookup_ok env) then internalError env ErrBkNoCluster st else
  requestPhase env HANDLE_AFTER_LOCATION st (invokeStage env))).

End WithActions.

(** The place of a call in the text of [ServeHTTP]. *)
Definition rank (e : Event) : nat :=
  match e with
  | CallFilterRequest HANDLE_BEFORE_LOCATION => 0
  | CallFindProduct => 1
  | CallFilterRequest HANDLE_FOUND_PRODUCT => 2
  | CallFindCluster => 3
  | CallClusterLookup => 4
  | CallFilterRequest HANDLE_AFTER_LOCATION => 5
  | CallClusterInvoke => 6
  | CallFilterResponse _ => 7
  | CallRedirect => 8
  | CallSendResponse _ => 9
  | CallBodyClose => 10
  | CallWriteTimerStop => 11
  end.

(** The calls of a list come in the order of the text, none twice. *)
Definition inTextOrder (l : list Event) : Prop :=
  StronglySorted (fun a b => (rank a < rank b)%nat) l.

(** A filter of the request lets the request go on. *)
Definition goesOn (answer : option (Z * bool)) : Prop :=
  match answer with
  | None => True
  | Some (retVal, _) =>
      retVal <> BFE_HANDLER_CLOSE /\ retVal <> BFE_HANDLER_FINISH /\
      retVal <> BFE_HANDLER_REDIRECT /\ retVal <> BFE_HANDLER_RESPONSE
  end.

(** Nothing stops the request before [clusterInvoke]: every callback of
    the request lets it go on and the three lookups succeed. *)
Definition allPass (env : Env) : Prop :=
  (forall p, goesOn (filterRequest env p)) /\
  findProduct_ok env = true /\ findCluster_ok env = true /\
  clusterLookup_ok env = true.

(** An environment in which nothing stops the request and the backend
    answers. *)
Definition plainEnv : Env :=
  {| filterRequest := fun _ => None;
     findProduct_ok := true; findCluster_ok := true; clusterLookup_ok := true;
     invoke := (true, 0, false);
     filterResponse := None;
     sendResponse_ok := true; supportMultiplex := false |}.

End ServeHTTP.

(** ** bfe_server/reverseproxy.go: what [clusterInvoke] returns *)

Module InvokeOutcome.
Import ReverseProxy.

(** The three ways in which [clusterInvoke] can end: with a response and no
    error, with an error and no response, or with neither, the action being
    [closeAfterReply]. *)
Inductive Outcome : Type := GotResponse | Failed | Neither.

Definition outcome (st : InvokeState) : option Outcome :=
  match gotResponse st, err st with
  | true, None => Some GotResponse
  | false, Some _ => Some Failed
  | false, None => Some Neither
  | true, Some _ => None
  end.

(** An environment whose forward filter ends the request at the first
    backend. *)
Definition forwardFinishes : Env :=
  {| balLookup := true;
     Balance := fun _ _ => BalanceBackend;
     FilterForwardFinish := fun _ _ => true;
     RoundTrip := fun _ _ => None |}.

End InvokeOutcome.

(** ** package parser: the semantic check of condition expressions *)

Module Parser.

(** The kinds of literal that the table of prototypes names; the other
    tokens of the language are not told apart. *)
Inductive Token : Type := STRING | BOOL | OtherToken (n : nat).

#[global] Instance Token_eq_dec : EqDecision Token.
Proof. solve_decision. Defined.

(** The nodes of the syntax tree, with the fields that the checks read. *)
Record Ident : Type := mkIdent { NamePos : Z; Name : string }.

Record BasicLit : Type := mkBasicLit { Kind : Token; Value : string }.

Record CallExpr : Type := mkCallExpr { Fun : Ident; Args : list BasicLit }.

Inductive Node : Type :=
  | BinaryExpr
  | UnaryExpr
  | ParenExpr
  | IdentNode (x : Ident)
  | CallExprNode (x : CallExpr)
  | OtherNode.

(** The entries of [funcProtos], in the order of the source. *)
Definition funcProtos_entries : list (string * list Token) :=
  [ ("default_t", []);
    ("req_cip_trusted", []);
    ("req_vip_in", [STRING]);
    ("req_proto_match", [STRING]);
    ("req_proto_secure", []);
    ("req_host_in", [STRING]);
    ("req_host_regmatch", [STRING]);
    ("req_path_in", [STRING; BOOL]);
    ("req_path_prefix_in", [STRING; BOOL]);
    ("req_path_suffix_in", [STRING; BOOL]);
    ("req_path_regmatch", [STRING]);
    ("req_query_key_prefix_in", [STRING]);
    ("req_query_key_in", [STRING]);
    ("req_query_exist", []);
    ("req_query_value_in", [STRING; STRING; BOOL]);
    ("req_query_value_prefix_in", [STRING; STRING; BOOL]);
    ("req_query_value_suffix_in", [STRING; STRING; BOOL]);
    ("req_query_value_regmatch", [STRING; STRING]);
    ("req_url_regmatch", [STRING]);
    ("req_cookie_key_in", [STRING]);
    ("req_cookie_value_in", [STRING; STRING; BOOL]);
    ("req_cookie_value_prefix_in", [STRING; STRING; BOOL]);
    ("req_cookie_value_suffix_in", [STRING; STRING; BOOL]);
    ("req_port_in", [STRING]);
    ("req_tag_match", [STRING; STRING]);
    ("req_ua_regmatch", [STRING]);
    ("req_header_key_in", [STRING]);
    ("req_header_value_in", [STRING; STRING; BOOL]);
    ("req_header_value_prefix_in", [STRING; STRING; BOOL]);
    ("req_header_value_suffix_in", [STRING; STRING; BOOL]);
    ("req_header_value_regmatch", [STRING; STRING]);
    ("req_method_in", [STRING]);
    ("req_cip_range", [STRING; STRING]);
    ("req_vip_range", [STRING; STRING]);
    ("res_code_in", [STRING]);
    ("res_header_key_in", [STRING]);
    ("res_header_value_in", [STRING; STRING; BOOL]);
    ("ses_vip_range", [STRING; STRING]);
    ("ses_sip_range", [STRING; STRING]) ]%string.

Definition funcProtos : gmap string (list Token) := list_to_map funcProtos_entries.

Inductive ProtoError : Type :=
  | PrimitiveNotFound (name : string)
  | ArgsLenError (expect got : nat)
  | ArgTypeError (name : string) (i : nat) (expect got : Token).

(** [for i, argType := range argsType], from index [i] on. *)
Fixpoint prototypeCheck_loop (name : string) (i : nat) (argsType : list Token)
    (args : list BasicLit) : option ProtoError :=
  match argsType, args with
  | argType :: argsType', arg :: args' =>
    if negb (bool_decide (argType = Kind arg))
    then Some (ArgTypeError name i argType (Kind arg))
    else prototypeCheck_loop name (S i) argsType' args'
  | _, _ => None
  end.

Definition prototypeCheck (expr : CallExpr) : option ProtoError :=
  match funcProtos !! Name (Fun expr) with
  | None => Some (PrimitiveNotFound (Name (Fun expr)))
  | Some argsType =>
    if negb (length argsType =? length (Args expr))%nat
    then Some (ArgsLenError (length argsType) (length (Args expr)))
    else prototypeCheck_loop (Name (Fun expr)) 0 argsType (Args expr)
  end.

(** The parser, as far as the two traverse functions use it: the list of
    identifiers, and its other fields together. *)
Record ParserState (Rest : Type) : Type := mkParserState {
  identList : list Ident;
  rest : Rest;
}.
Arguments mkParserState {Rest}.
Arguments identList {Rest}.
Arguments rest {Rest}.

Section WithParser.

Context {Rest : Type}.

(** [x.Pos()] and [p.addError] are not among the sources: they are any
    functions.  The message [err.Error()] is passed as the error. *)
Variable Pos : CallExpr -> Z.
Variable addError : ParserState Rest -> Z -> ProtoError -> ParserState Rest.

(** In the default case the node is logged only. *)
Definition primitiveCheck (p : ParserState Rest) (n : Node) : ParserState Rest * bool :=
  match n with
  | BinaryExpr | UnaryExpr | ParenExpr => (p, true)
  | IdentNode _ => (p, false)
  | CallExprNode x =>
    match prototypeCheck x with
    | Some err => (addError p (Pos x) err, false)
    | None => (p, false)
    end
  | OtherNode => (p, false)
  end.

(** [for _, i := range p.identList { if i.Name == x.Name { exist = true } }]. *)
Definition collectVariable_exist (l : list Ident) (x : Ident) : bool :=
  foldl (fun exist i => if String.eqb (Name i) (Name x) then true else exist)
        false l.

Definition collectVariable (p : ParserState Rest) (n : Node) : ParserState Rest * bool :=
  match n with
  | BinaryExpr | UnaryExpr | ParenExpr => (p, true)
  | IdentNode x =>
    if negb (collectVariable_exist (identList p) x)
    then (mkParserState (identList p ++ [x]) (rest p), false)
    else (p, false)
  | CallExprNode _ => (p, false)
  | OtherNode => (p, false)
  end.

(** The parser after a traverse function was called on some nodes, one
    after the other. *)
Definition visitAll (f : ParserState Rest -> Node -> ParserState Rest * bool)
    (p : ParserState Rest) (nodes : list Node) : ParserState Rest :=
  foldl (fun p n => (f p n).1) p nodes.

(** The identifiers among some nodes. *)
Definition identsOf (nodes : list Node) : list Ident :=
  omap (fun n => match n with IdentNode x => Some x | _ => None end) nodes.

(** The errors that [prototypeCheck] finds in the calls among some nodes,
    each with the position of its call. *)
Definition callErrors (nodes : list Node) : list (Z * ProtoError) :=
  omap (fun n => match n with
                 | CallExprNode x => pair (Pos x) <$> prototypeCheck x
                 | _ => None
                 end) nodes.

End WithParser.

(** The nodes of [a && (f(...) || a)], in the order of a traversal, with a
    call of a primitive that does not exist. *)
Definition exampleNodes : list Node :=
  [ BinaryExpr; IdentNode (mkIdent 0 "a"); ParenExpr; BinaryExpr;
    CallExprNode (mkCallExpr (mkIdent 6 "f") []); IdentNode (mkIdent 13 "a") ].

End Parser.

(** ** bfe_server/reverseproxy.go: the transports of the clusters *)

Module Transports.

(** A cluster, as far as the transports read it: its name, the values that
    [BackendConf().MaxIdleConnsPerHost] and [.TimeoutResponseHeader] point to
    (both set, as [ClusterConfCheck] leaves them), and the values of
    [ReqWriteBufferSize()] and [ReqFlushInterval()]. *)
Record BfeCluster : Type := mkBfeCluster {
  Name : string;
  MaxIdleConnsPerHost : Z;
  TimeoutResponseHeader : Z;
  ReqWriteBufferSize : Z;
  ReqFlushInterval : Z;
}.

(** [time.Millisecond * time.Duration(ms)], a product of 64-bit integers. *)
Definition milliseconds (ms : Z) : Z := ClusterConfLoad.int_wrap (1000000 * ms).

(** [bfe_http.Transport], without its dialer. *)
Record Transport : Type := mkTransport {
  DisableKeepAlives : bool;
  T_MaxIdleConnsPerHost : Z;
  ResponseHeaderTimeout : Z;
  T_ReqWriteBufferSize : Z;
  T_ReqFlushInterval : Z;
  DisableCompression : bool;
}.

(** The transports live in a heap; the map [p.transports] holds pointers,
    so that one can tell a transport that is kept from a new one. *)
Abbreviation TransportHeap := (gmap positive Transport).
Abbreviation RoundTripperMap := (gmap string positive).

Definition createTransport (heap : TransportHeap) (cluster : BfeCluster)
    : TransportHeap * positive :=
  let l := fresh (dom heap) in
  (<[l := {| DisableKeepAlives := MaxIdleConnsPerHost cluster =? 0;
             T_MaxIdleConnsPerHost := MaxIdleConnsPerHost cluster;
             ResponseHeaderTimeout := milliseconds (TimeoutResponseHeader cluster);
             T_ReqWriteBufferSize := ReqWriteBufferSize cluster;
             T_ReqFlushInterval := ReqFlushInterval cluster;
             DisableCompression := true |}]> heap,
   l).

(** The test "transport needs update" of [setTransports]. *)
Definition needsUpdate (t : Transport) (conf : BfeCluster) : bool :=
  negb (T_MaxIdleConnsPerHost t =? MaxIdleConnsPerHost conf)
  || negb (ResponseHeaderTimeout t =? milliseconds (TimeoutResponseHeader conf))
  || negb (T_ReqWriteBufferSize t =? ReqWriteBufferSize conf)
  || negb (T_ReqFlushInterval t =? ReqFlushInterval conf).

(** [for cluster, conf := range clusterMap] of [setTransports]; [None] is
    the panic of reading a transport through a pointer that is nil. *)
Fixpoint setTransports_loop (transports : RoundTripperMap)
    (entries : list (string * BfeCluster))
    (st : TransportHeap * RoundTripperMap)
    : option (TransportHeap * RoundTripperMap) :=
  match entries with
  | [] => Some st
  | (cluster, conf) :: rest =>
    let '(heap, newTransports) := st in
    match transports !! cluster with
    | None =>
      let '(heap, transport) := createTransport heap conf in
      setTransports_loop transports rest (heap, <[cluster := transport]> newTransports)
    | Some transport =>
      match heap !! transport with
      | None => None
      | Some t =>
        if needsUpdate t conf then
          let '(heap, transport) := createTransport heap conf in
          setTransports_loop transports rest
            (heap, <[cluster := transport]> newTransports)
        else
          setTransports_loop transports rest
            (heap, <[cluster := transport]> newTransports)
      end
    end
  end.

(** [setTransports]: the new value of [p.transports], with the heap. *)
Definition setTransports (heap : TransportHeap) (transports : RoundTripperMap)
    (clusterMap : gmap string BfeCluster)
    : option (TransportHeap * RoundTripperMap) :=
  setTransports_loop transports (map_to_list clusterMap) (heap, ∅).

(** [getTransport]: the heap and [p.transports] after the call, and the
    transport returned. *)
Definition getTransport (heap : TransportHeap) (transports : RoundTripperMap)
    (cluster : BfeCluster) : TransportHeap * RoundTripperMap * positive :=
  match transports !! Name cluster with
  | Some transport => (heap, transports, transport)
  | None =>
    let '(heap, transport) := createTransport heap cluster in
    (heap, <[Name cluster := transport]> transports, transport)
  end.

(** A transport has the settings of a cluster. *)
Definition settingsOf (conf : BfeCluster) (t : Transport) : Prop :=
  T_MaxIdleConnsPerHost t = MaxIdleConnsPerHost conf /\
  ResponseHeaderTimeout t = milliseconds (TimeoutResponseHeader conf) /\
  T_ReqWriteBufferSize t = ReqWriteBufferSize conf /\
  T_ReqFlushInterval t = ReqFlushInterval conf.

(** Every transport of the map is in the heap. *)
Definition allocated (heap : TransportHeap) (transports : RoundTripperMap) : Prop :=
  forall cluster l, transports !! cluster = Some l -> is_Some (heap !! l).

(** A cluster named [a] with two idle connections per host, and one
    transport made for it. *)
Definition clusterA : BfeCluster := mkBfeCluster "a" 2 1000 512 0.
Definition clusterB : BfeCluster := mkBfeCluster "b" 0 2000 512 0.
Definition heapA : TransportHeap := (createTransport ∅ clusterA).1.
Definition transportsA : RoundTripperMap :=
  {[ "a" := (createTransport ∅ clusterA).2 ]}.

End Transports.

(* ===================================================================== *)
(** * Part II: properties                                                 *)
(* ===================================================================== *)

Module ListFacts.

Lemma insert_at_length {A} (l1 : list A) y l2 x :
  <[length l1 := x]> (l1 ++ y :: l2) = l1 ++ x :: l2.
Proof. induction l1 as [|a l1 IH]; simpl; [done|]. by rewrite IH. Qed.


Lemma StronglySorted_lookup {A} (R : relation A) l :
  StronglySorted R l ->
  forall a b x y, (a < b)%nat -> l !! a = Some x -> l !! b = Some y -> R x y.
Proof.
  induction 1 as [|p l Hl IH Hall]; intros a b x y Hab Ha Hb; [done|].
  destruct b as [|b]; [lia|]. destruct a as [|a]; simpl in *.
  - simplify_eq. rewrite Forall_forall in Hall. apply Hall.
    by eapply list_elem_of_lookup_2.
  - apply (IH a b); [lia|done..].
Qed.

Lemma StronglySorted_from_lookup {A} (R : relation A) l :
  (forall a b x y, (a < b)%nat -> l !! a = Some x -> l !! b = Some y -> R x y) ->
  StronglySorted R l.
Proof.
  induction l as [|p l IH]; intros H; constructor.
  - apply IH. intros a b x y Hab Ha Hb. apply (H (S a) (S b)); [lia|done..].
  - apply Forall_lookup_2. intros k q Hq. apply (H 0%nat (S k)); [lia|done..].
Qed.

(** A symmetric relation that holds between the elements of a list pair by
    pair holds so in every permutation of it. *)
Lemma StronglySorted_symmetric_perm {A} (R : relation A) l1 l2 :
  (forall x y, R x y -> R y x) ->
  l1 ≡ₚ l2 -> StronglySorted R l1 -> StronglySorted R l2.
Proof.
  intros Hsym Hperm. induction Hperm as [|x l l' Hp IH|x y l|l l' l'' _ IH1 _ IH2];
    intros Hs.
  - done.
  - apply StronglySorted_cons in Hs as [Hall Hs].
    apply StronglySorted_cons. split; [by rewrite <- Hp|by apply IH].
  - apply StronglySorted_cons in Hs as [Hally Hs].
    apply StronglySorted_cons in Hs as [Hallx Hs].
    apply Forall_cons in Hally as [Hyx Hally].
    apply StronglySorted_cons. split.
    + apply Forall_cons. split; [by apply Hsym|done].
    + apply StronglySorted_cons. done.
  - by apply IH2, IH1.
Qed.

Lemma StronglySorted_combine {A} (R1 R2 R3 : relation A) l :
  (forall x y, R1 x y -> R2 x y -> R3 x y) ->
  StronglySorted R1 l -> StronglySorted R2 l -> StronglySorted R3 l.
Proof.
  intros Himp H1 H2. apply StronglySorted_from_lookup.
  intros a b x y Hab Ha Hb. apply Himp.
  - by apply (StronglySorted_lookup R1 l H1 a b).
  - by apply (StronglySorted_lookup R2 l H2 a b).
Qed.

(** The rule for a counted loop [for k := a; k < a + n; k++]: a property
    that holds at the start and is kept by each pass holds at the end. *)
Lemma foldl_seq_invariant {St} (P : nat -> St -> Prop) (f : St -> nat -> St) n :
  forall a st,
  P a st ->
  (forall k s, (a <= k < a + n)%nat -> P k s -> P (S k) (f s k)) ->
  P (a + n)%nat (foldl f st (seq a n)).
Proof.
  induction n as [|n IH]; intros a st Hst Hstep.
  - by rewrite Nat.add_0_r.
  - cbn [seq foldl]. replace (a + S n)%nat with (S a + n)%nat by lia.
    apply IH.
    + apply Hstep; [lia|done].
    + intros k s Hk. apply Hstep. lia.
Qed.

End ListFacts.

Module Http2Facts.
Import Utf8 Http2.

Lemma byteVal_range c : 0 <= byteVal c < 256.
Proof.
  unfold byteVal. pose proof (N_ascii_bounded c) as H. lia.
Qed.

Lemma lor_lower_bound a b : 0 <= b -> a <= Z.lor a b.
Proof.
  intros Hb. pose proof (Z.sub_lor_l_same_l b a) as H.
  assert (0 <= Z.land b (Z.lnot a)) by (apply Z.land_nonneg; lia).
  lia.
Qed.

Lemma land_mask_nonneg a m : 0 <= m -> 0 <= Z.land a m.
Proof. intros. apply Z.land_nonneg. lia. Qed.

Lemma shiftl_mask_nonneg a m k : 0 <= m -> 0 <= Z.shiftl (Z.land a m) k.
Proof. intros. apply Z.shiftl_nonneg. by apply land_mask_nonneg. Qed.

(** Low bits of a byte in a given range, by enumeration of the byte. *)
Lemma lead2_bits c : 0xC2 <= byteVal c < 0xE0 -> 2 <= Z.land (byteVal c) 0x1F.
Proof.
  destruct c as [[] [] [] [] [] [] [] []]; vm_compute; intros [H1 H2];
    try (exfalso; by (apply H1 || apply H2)); discriminate.
Qed.

Lemma lead3_bits c : 0xE1 <= byteVal c < 0xF0 -> 1 <= Z.land (byteVal c) 0x0F.
Proof.
  destruct c as [[] [] [] [] [] [] [] []]; vm_compute; intros [H1 H2];
    try (exfalso; by (apply H1 || apply H2)); discriminate.
Qed.

Lemma second_E0_bits c : 0xA0 <= byteVal c <= 0xBF -> 32 <= Z.land (byteVal c) 0x3F.
Proof.
  destruct c as [[] [] [] [] [] [] [] []]; vm_compute; intros [H1 H2];
    try (exfalso; by (apply H1 || apply H2)); discriminate.
Qed.

Lemma lead4_bits c : 0xF1 <= byteVal c <= 0xF4 -> 1 <= Z.land (byteVal c) 0x07.
Proof.
  destruct c as [[] [] [] [] [] [] [] []]; vm_compute; intros [H1 H2];
    try (exfalso; by (apply H1 || apply H2)); discriminate.
Qed.

Lemma second_F0_bits c : 0x90 <= byteVal c <= 0xBF -> 16 <= Z.land (byteVal c) 0x3F.
Proof.
  destruct c as [[] [] [] [] [] [] [] []]; vm_compute; intros [H1 H2];
    try (exfalso; by (apply H1 || apply H2)); discriminate.
Qed.

(** A one-byte (ASCII) rune is the byte itself. *)
Lemma decode_ascii c t :
  byteVal c < 0x80 -> DecodeRuneInString (String c t) = (byteVal c, 1%nat).
Proof.
  intros H. unfold DecodeRuneInString.
  destruct (Z.ltb_spec (byteVal c) 0x80); [done | lia].
Qed.

(** Whatever follows a byte of 0x80 or more, the rune read there is not
    below 0x80: a multi-byte encoding or [RuneError]. *)
Lemma decode_high c t :
  0x80 <= byteVal c -> 0x80 <= (DecodeRuneInString (String c t)).1.
Proof.
  intros H. unfold DecodeRuneInString.
  repeat match goal with
  | |- context [Z.ltb ?a ?b] => destruct (Z.ltb_spec a b); simpl
  | |- context [Z.eqb ?a ?b] => destruct (Z.eqb_spec a b); simpl
  | |- context [match ?s with EmptyString => _ | String _ _ => _ end] =>
      destruct s; simpl
  | |- _ <= RuneError => by vm_compute
  end; try lia.
  - (* two bytes *)
    etrans; [| apply lor_lower_bound; by apply land_mask_nonneg].
    rewrite Z.shiftl_mul_pow2 by lia.
    pose proof (lead2_bits c). lia.
  - (* three bytes, lead E0 *)
    etrans; [| apply lor_lower_bound; by apply land_mask_nonneg].
    rewrite Z.lor_comm.
    etrans; [| apply lor_lower_bound; by apply shiftl_mask_nonneg].
    rewrite Z.shiftl_mul_pow2 by lia.
    match goal with |- _ <= Z.land (byteVal ?a) _ * _ =>
      pose proof (second_E0_bits a) end. lia.
  - (* three bytes, lead E1..EF with the narrow second byte *)
    etrans; [| apply lor_lower_bound; by apply land_mask_nonneg].
    etrans; [| apply lor_lower_bound; by apply shiftl_mask_nonneg].
    rewrite Z.shiftl_mul_pow2 by lia.
    pose proof (lead3_bits c). lia.
  - etrans; [| apply lor_lower_bound; by apply land_mask_nonneg].
    etrans; [| apply lor_lower_bound; by apply shiftl_mask_nonneg].
    rewrite Z.shiftl_mul_pow2 by lia.
    pose proof (lead3_bits c). lia.
  - (* four bytes, lead F0 *)
    etrans; [| apply lor_lower_bound; by apply land_mask_nonneg].
    etrans; [| apply lor_lower_bound; by apply shiftl_mask_nonneg].
    rewrite Z.lor_comm.
    etrans; [| apply lor_lower_bound; by apply shiftl_mask_nonneg].
    rewrite Z.shiftl_mul_pow2 by lia.
    match goal with |- _ <= Z.land (byteVal ?a) _ * _ =>
      pose proof (second_F0_bits a) end. lia.
  - etrans; [| apply lor_lower_bound; by apply land_mask_nonneg].
    etrans; [| apply lor_lower_bound; by apply shiftl_mask_nonneg].
    etrans; [| apply lor_lower_bound; by apply shiftl_mask_nonneg].
    rewrite Z.shiftl_mul_pow2 by lia.
    pose proof (lead4_bits c). lia.
  - etrans; [| apply lor_lower_bound; by apply land_mask_nonneg].
    etrans; [| apply lor_lower_bound; by apply shiftl_mask_nonneg].
    etrans; [| apply lor_lower_bound; by apply shiftl_mask_nonneg].
    rewrite Z.shiftl_mul_pow2 by lia.
    pose proof (lead4_bits c). lia.
Qed.

(** The rune loop accepts exactly the strings all of whose bytes pass
    [nameByte_ok]: a byte of 0x80 or more starts a rune that is rejected. *)
Lemma validHeaderFieldName_loop_bytes v :
  validHeaderFieldName_loop 0 v = forallb nameByte_ok (list_ascii_of_string v).
Proof.
  induction v as [|c t IH]; [done|].
  cbn [validHeaderFieldName_loop list_ascii_of_string forallb].
  pose proof (byteVal_range c) as Hc.
  destruct (Z.lt_ge_cases (byteVal c) 0x80) as [Hlo|Hhi].
  - rewrite decode_ascii by done. unfold nameByte_ok at 1.
    rewrite Z.mod_small by lia.
    destruct (_ || _); [done|]. simpl.
    destruct (isTokenTable _); [|done]. simpl. apply IH.
  - pose proof (decode_high c t Hhi) as Hr.
    destruct (DecodeRuneInString (String c t)) as [r size]. simpl in Hr.
    unfold nameByte_ok at 1, isTokenTable_len.
    destruct (Z.leb_spec 127 r); [|lia].
    destruct (Z.leb_spec 127 (byteVal c)); [done|lia].
Qed.

Lemma rfc7230_tcharb_spec c : rfc7230_tcharb c = true <-> rfc7230_tchar c.
Proof.
  unfold rfc7230_tcharb, rfc7230_tchar.
  rewrite !orb_true_iff, !andb_true_iff, !Z.leb_le, existsb_exists.
  split.
  - intros [[[(x & Hin & Hx)|H]|H]|H]; try tauto.
    apply Ascii.eqb_eq in Hx. subst. tauto.
  - intros [H|[H|[H|H]]]; try tauto.
    left; left; left. exists c. split; [done|]. apply Ascii.eqb_refl.
Qed.

Lemma upper_asciib_spec c : upper_asciib c = true <-> upper_ascii c.
Proof.
  unfold upper_asciib, upper_ascii. rewrite andb_true_iff, !Z.leb_le. tauto.
Qed.

(** The table agrees with the grammar, checked on all 256 bytes. *)
Lemma nameByte_ok_tcharb c :
  nameByte_ok c = rfc7230_tcharb c && negb (upper_asciib c).
Proof. destruct c as [[] [] [] [] [] [] [] []]; vm_compute; reflexivity. Qed.

Lemma nameByte_ok_spec c :
  nameByte_ok c = true <-> rfc7230_tchar c /\ ~ upper_ascii c.
Proof.
  rewrite nameByte_ok_tcharb, andb_true_iff, negb_true_iff.
  rewrite rfc7230_tcharb_spec, <- upper_asciib_spec.
  destruct (upper_asciib c); intuition congruence.
Qed.

Lemma validHeaderFieldName_bytes v :
  validHeaderFieldName v = true <->
  v <> EmptyString /\ forallb nameByte_ok (list_ascii_of_string v) = true.
Proof.
  unfold validHeaderFieldName. rewrite validHeaderFieldName_loop_bytes.
  destruct v; simpl; [intuition congruence|]. intuition congruence.
Qed.

Lemma validHeaderFieldName_rejects v c :
  In c (list_ascii_of_string v) -> nameByte_ok c = false ->
  validHeaderFieldName v = false.
Proof.
  intros Hin Hc. apply not_true_is_false. intros Hv.
  apply validHeaderFieldName_bytes in Hv as [_ Hall].
  rewrite forallb_forall in Hall. specialize (Hall c Hin). congruence.
Qed.

Lemma validHeaderFieldValue_rejects v c :
  In c (list_ascii_of_string v) ->
  byteVal c = 0 \/ byteVal c = 13 \/ byteVal c = 10 ->
  validHeaderFieldValue v = false.
Proof.
  induction v as [|a t IH]; simpl; [done|].
  intros [->|Hin] Hc.
  - destruct Hc as [->|[->| ->]]; reflexivity.
  - destruct (_ || _); [done|]. by apply IH.
Qed.

(** C8.  [validHeaderFieldName v] holds exactly when [v] is not empty and
    each of its characters is an RFC 7230 token character that is not an
    upper-case ASCII letter; hence a name with a capital letter, a colon or a
    NUL, and the empty name, are rejected.  [validHeaderFieldValue v] is false
    for every [v] that contains NUL, CR or LF. *)
Theorem header_field_name_value_valid (v : string) :
  (validHeaderFieldName v = true <->
     v <> EmptyString /\
     Forall (fun c => rfc7230_tchar c /\ ~ upper_ascii c) (list_ascii_of_string v))
  /\ (forall c, In c (list_ascii_of_string v) ->
        upper_ascii c \/ c = ":"%char \/ c = "000"%char ->
        validHeaderFieldName v = false)
  /\ validHeaderFieldName EmptyString = false
  /\ (forall c, In c (list_ascii_of_string v) ->
        c = "000"%char \/ c = "013"%char \/ c = "010"%char ->
        validHeaderFieldValue v = false).
Proof.
  split; [|split; [|split]].
  - rewrite validHeaderFieldName_bytes, forallb_forall, List.Forall_forall.
    split; intros [Hne Hall]; (split; [done|]); intros c Hc;
      apply nameByte_ok_spec; by apply Hall.
  - intros c Hin Hc. apply (validHeaderFieldName_rejects v c Hin).
    apply not_true_is_false. rewrite nameByte_ok_spec. intros [Ht Hu].
    destruct Hc as [Hc|[->| ->]]; [done| |].
    + apply rfc7230_tcharb_spec in Ht. by vm_compute in Ht.
    + apply rfc7230_tcharb_spec in Ht. by vm_compute in Ht.
  - reflexivity.
  - intros c Hin Hc. apply (validHeaderFieldValue_rejects v c Hin).
    destruct Hc as [->|[->| ->]]; vm_compute; tauto.
Qed.

End Http2Facts.

Module RetryFacts.
Import ReverseProxy.

(** Each pass calls the balancer once and the transport at most once. *)
Lemma clusterInvoke_body_calls env lvl outreq i st flow st' :
  clusterInvoke_body env lvl outreq i st = (flow, st') ->
  balanceCalls st' = S (balanceCalls st) /\
  (roundTrips st <= roundTrips st' <= S (roundTrips st))%nat.
Proof.
  unfold clusterInvoke_body. intros H.
  repeat match type of H with
  | context [match ?x with _ => _ end] => destruct x eqn:?
  end; inversion H; subst; simpl; lia.
Qed.

(** From index [i] on, the loop ends within [20 - i] passes, whatever the
    environment answers, provided the model has fuel for one more step. *)
Lemma clusterInvoke_loop_bound env lvl outreq fuel :
  forall i st, 0 <= i <= 20 -> (Z.to_nat (20 - i) < fuel)%nat ->
  exists st', clusterInvoke_loop env lvl outreq fuel i st = Some st' /\
    (balanceCalls st <= balanceCalls st' <= balanceCalls st + Z.to_nat (20 - i))%nat /\
    (roundTrips st <= roundTrips st')%nat /\
    (roundTrips st' + balanceCalls st <= balanceCalls st' + roundTrips st)%nat.
Proof.
  induction fuel as [|fuel IH]; intros i st Hi Hfuel; [lia|].
  cbn [clusterInvoke_loop].
  destruct (Z.ltb_spec i 20) as [Hlt|Hge].
  - destruct (clusterInvoke_body env lvl outreq i st) as [flow st1] eqn:Hbody.
    apply clusterInvoke_body_calls in Hbody as [Hb Hr].
    destruct flow.
    + destruct (IH (i + 1) st1) as (st' & Hrun & Hb' & Hr' & Hd); [lia|lia|].
      exists st'. split; [done|]. lia.
    + exists st1. split; [done|]. lia.
    + exists st1. split; [done|]. lia.
  - exists st. split; [done|]. lia.
Qed.

(** C1.  [clusterInvoke] always returns, and by then it has asked the
    balancer for a backend at most 20 times and forwarded at most 20 times
    (never more often than it asked), whatever the balancer (and with it
    RetryMax and CrossRetry), the filters and the transport answer. *)
Theorem clusterInvoke_at_most_20_attempts env lvl outreq fuel st :
  (21 <= fuel)%nat ->
  exists st', clusterInvoke env lvl outreq fuel st = Some st' /\
    (balanceCalls st' <= balanceCalls st + 20)%nat /\
    (roundTrips st' <= roundTrips st + 20)%nat /\
    (roundTrips st' - roundTrips st <= balanceCalls st' - balanceCalls st)%nat.
Proof.
  intros Hfuel. unfold clusterInvoke.
  destruct (balLookup env); simpl.
  - destruct (clusterInvoke_loop_bound env lvl outreq fuel 0 st)
      as (st' & Hrun & Hb & Hr & Hd); [lia|simpl; lia|].
    exists st'. split; [done|]. simpl in Hb. lia.
  - eexists. split; [done|]. simpl. lia.
Qed.

(** The bound of 20 is reached: twenty cross-cluster retries in a row. *)
Lemma clusterInvoke_at_most_20_attempts_witness :
  (21 <= 21)%nat /\
  exists st', clusterInvoke crossRetryForever RetryConnect getRequest 21 freshState
              = Some st' /\
    (balanceCalls st' <= balanceCalls freshState + 20)%nat /\
    (roundTrips st' <= roundTrips freshState + 20)%nat /\
    (roundTrips st' - roundTrips freshState
       <= balanceCalls st' - balanceCalls freshState)%nat.
Proof.
  split; [lia|].
  apply (clusterInvoke_at_most_20_attempts crossRetryForever RetryConnect
           getRequest 21 freshState). lia.
Defined.







End RetryFacts.

Module OutRequestFacts.
Import ReverseProxy.









End OutRequestFacts.

Module HostKeyFacts.
Import ListFacts HostTable.









Section WithTrie.
Context {Trie : Type}.
Variable trie_NewTrie : Trie.
Variable trie_Set : Trie -> list string -> route -> Trie.
Variable trie_Get : Trie -> list string -> option route.


End WithTrie.


End HostKeyFacts.

Module LookupFacts.
Import HostTable.

Lemma LookupCluster_loop_firstMatch rules req :
  LookupCluster_loop rules req EmptyString =
  match firstMatch rules req with
  | Some rule => RuleClusterName rule
  | None => EmptyString
  end.
Proof.
  induction rules as [|rule rest IH]; [done|].
  unfold firstMatch in *. simpl. by destruct (Cond rule req).
Qed.

(** C6.  [LookupCluster] answers [ErrNoProductRule] when the product of the
    request has no entry in the product route table.  Otherwise the rules of
    the product are tried in order and the cluster name of the request
    becomes that of the first rule whose condition matches (without an error
    when that name is not empty); when no rule matches the answer is
    [ErrNoMatchRule].  Whenever an error is returned the cluster name of the
    request is empty and the error is recorded in the route. *)
Theorem LookupCluster_first_match (table : gmap string (list RouteRule))
    (req : Request) :
  let req' := (LookupCluster table req).1 in
  let err := (LookupCluster table req).2 in
  match table !! Product (Route req) with
  | None => err = Some ErrNoProductRule
  | Some rules =>
    match firstMatch rules req with
    | Some rule =>
        ClusterName (Route req') = RuleClusterName rule /\
        (RuleClusterName rule <> EmptyString -> err = None)
    | None => err = Some ErrNoMatchRule
    end
  end /\
  (err <> None ->
     ClusterName (Route req') = EmptyString /\ Error (Route req') = err) /\
  Product (Route req') = Product (Route req) /\
  HostTag (Route req') = HostTag (Route req).
Proof.
  intros req' err. subst req' err. unfold LookupCluster.
  destruct (table !! Product (Route req)) as [rules|]; [|by cbn].
  rewrite LookupCluster_loop_firstMatch.
  destruct (firstMatch rules req) as [rule|].
  - destruct (String.eqb_spec (RuleClusterName rule) EmptyString) as [He|Hne];
      cbn; rewrite ?He; intuition congruence.
  - by cbn.
Qed.

(** C10.  When the first rule whose condition matches names the empty
    cluster, [LookupCluster] answers [ErrNoMatchRule] and leaves the request
    as it does when no rule of the product matches at all. *)
Theorem LookupCluster_empty_name_is_no_match
    (table : gmap string (list RouteRule)) (req : Request) rules rule :
  table !! Product (Route req) = Some rules ->
  firstMatch rules req = Some rule ->
  RuleClusterName rule = EmptyString ->
  LookupCluster table req = (failRoute req ErrNoMatchRule, Some ErrNoMatchRule) /\
  (forall rules0, firstMatch rules0 req = None ->
     LookupCluster (<[Product (Route req) := rules0]> table) req
     = LookupCluster table req).
Proof.
  intros Htable Hfirst Hname.
  assert (Hres : LookupCluster table req =
                 (failRoute req ErrNoMatchRule, Some ErrNoMatchRule)).
  { unfold LookupCluster. rewrite Htable, LookupCluster_loop_firstMatch, Hfirst.
    by rewrite Hname. }
  split; [exact Hres|]. intros rules0 Hnone. rewrite Hres.
  unfold LookupCluster. rewrite lookup_insert_eq.
  by rewrite LookupCluster_loop_firstMatch, Hnone.
Qed.

Lemma LookupCluster_empty_name_is_no_match_witness :
  unnamedTable !! Product (Route requestOfP1) = Some [unnamedRule] /\
  firstMatch [unnamedRule] requestOfP1 = Some unnamedRule /\
  RuleClusterName unnamedRule = EmptyString /\
  LookupCluster unnamedTable requestOfP1
    = (failRoute requestOfP1 ErrNoMatchRule, Some ErrNoMatchRule) /\
  (forall rules0, firstMatch rules0 requestOfP1 = None ->
     LookupCluster (<[Product (Route requestOfP1) := rules0]> unnamedTable)
       requestOfP1
     = LookupCluster unnamedTable requestOfP1).
Proof.
  assert (H1 : unnamedTable !! Product (Route requestOfP1) = Some [unnamedRule])
    by (vm_compute; reflexivity).
  assert (H2 : firstMatch [unnamedRule] requestOfP1 = Some unnamedRule)
    by reflexivity.
  assert (H3 : RuleClusterName unnamedRule = EmptyString) by reflexivity.
  split; [exact H1|]. split; [exact H2|]. split; [exact H3|].
  exact (LookupCluster_empty_name_is_no_match unnamedTable requestOfP1
           [unnamedRule] unnamedRule H1 H2 H3).
Defined.

Section WithTrie.
Context {Trie : Type}.
Variable trie_Get : Trie -> list string -> option route.

Lemma findVipRoute_lookup (t : HostTable (Trie:=Trie)) vip :
  findVipRoute t vip =
  match vipTable t !! vip with
  | Some p => (mkRoute p EmptyString, None)
  | None => (mkRoute EmptyString EmptyString, Some ErrNoProduct)
  end.
Proof.
  unfold findVipRoute. destruct (Nat.eqb_spec (size (vipTable t)) 0) as [Hz|]; [|done].
  apply map_size_empty_iff in Hz. rewrite Hz. by rewrite lookup_empty.
Qed.

(** C7.  [LookupHostTagAndProduct] takes the product and the tag of the
    host name when the host lookup succeeds; failing that, the product the VIP
    table gives for the VIP of the session, when there is a VIP; failing that
    too, the default product when it is not the empty string; and it answers
    [ErrNoProduct] only when all three fail. *)
Theorem LookupHostTagAndProduct_fallbacks (t : HostTable (Trie:=Trie))
    (req : Request) :
  let byHost := findHostRoute trie_Get t (HttpRequest_Host req) in
  let req' := (LookupHostTagAndProduct trie_Get t req).1 in
  let err := (LookupHostTagAndProduct trie_Get t req).2 in
  match byHost.2 with
  | None =>
      err = None /\ Product (Route req') = product byHost.1 /\
      HostTag (Route req') = tag byHost.1
  | Some _ =>
    match vipProduct (vipTable t) req with
    | Some p =>
        err = None /\ Product (Route req') = p /\
        HostTag (Route req') = EmptyString
    | None =>
      if decide (defaultProduct t = EmptyString)
      then err = Some ErrNoProduct
      else err = None /\ Product (Route req') = defaultProduct t /\
           HostTag (Route req') = EmptyString
    end
  end /\
  (err = Some ErrNoProduct <->
     byHost.2 <> None /\ vipProduct (vipTable t) req = None /\
     defaultProduct t = EmptyString) /\
  (err = None \/ err = Some ErrNoProduct) /\
  Error (Route req') = err.
Proof.
  intros byHost req' err. subst byHost req' err.
  unfold LookupHostTagAndProduct, vipProduct.
  assert (Hhost : (findHostRoute trie_Get t (HttpRequest_Host req)).2 = None \/
                  (findHostRoute trie_Get t (HttpRequest_Host req)).2
                    = Some ErrNoProduct).
  { unfold findHostRoute. destruct (hostTrie t); [|by right].
    destruct (trie_Get _ _); [by left|by right]. }
  destruct (findHostRoute trie_Get t (HttpRequest_Host req)) as [hr [e|]];
    cbn [fst snd] in *.
  - destruct Hhost as [|[= ->]]; [done|].
    destruct (Session_Vip req) as [vip|]; cbn [mbind option_bind].
    + rewrite findVipRoute_lookup.
      destruct (vipTable t !! vip) as [p|]; cbn.
      * intuition congruence.
      * destruct (String.eqb_spec (defaultProduct t) EmptyString) as [He|Hne];
          cbn; [rewrite decide_True by done|rewrite decide_False by done];
          intuition congruence.
    + destruct (String.eqb_spec (defaultProduct t) EmptyString) as [He|Hne];
        cbn; [rewrite decide_True by done|rewrite decide_False by done];
        intuition congruence.
  - cbn. intuition congruence.
Qed.

End WithTrie.

End LookupFacts.

Module IpdictFacts.
Import ListFacts Ipdict.

Local Abbreviation sv p := (ipVal (startIP p)).
Local Abbreviation ev p := (ipVal (endIP p)).

(** *** Addresses as numbers *)

Lemma ipVal_bound ip : 0 <= ipVal ip < 256 ^ Z.of_nat (length ip).
Proof.
  induction ip as [|x t IH]; [simpl; lia|].
  cbn [ipVal length]. rewrite Nat2Z.inj_succ, Z.pow_succ_r by lia.
  pose proof (Byte.to_N_bounded x) as Hx.
  assert (0 <= Z.of_N (Byte.to_N x) <= 255) as Hb by lia.
  nia.
Qed.

Lemma to_N_inj x y : Byte.to_N x = Byte.to_N y -> x = y.
Proof.
  intros H. pose proof (Byte.of_to_N x) as Hx. pose proof (Byte.of_to_N y) as Hy.
  rewrite H in Hx. congruence.
Qed.

(** On addresses of one length [bytes.Compare] compares the numbers. *)
Lemma bytes_Compare_val a : forall b,
  length a = length b -> bytes_Compare a b = Z.sgn (ipVal a - ipVal b).
Proof.
  induction a as [|x a IH]; intros [|y b] Hlen; try discriminate; [done|].
  cbn [bytes_Compare ipVal]. injection Hlen as Hlen. rewrite <- Hlen.
  pose proof (ipVal_bound a) as Ha. pose proof (ipVal_bound b) as Hb.
  rewrite <- Hlen in Hb.
  set (w := 256 ^ Z.of_nat (length a)) in *.
  destruct (N.compare_spec (Byte.to_N x) (Byte.to_N y)) as [Heq|Hlt|Hgt].
  - rewrite Heq, (IH b Hlen). f_equal. lia.
  - symmetry. apply Z.sgn_neg_iff. nia.
  - symmetry. apply Z.sgn_pos_iff. nia.
Qed.

Lemma bytes_Compare_eq a : forall b, bytes_Compare a b = 0 -> a = b.
Proof.
  induction a as [|x a IH]; intros [|y b]; cbn [bytes_Compare]; try done.
  destruct (N.compare_spec (Byte.to_N x) (Byte.to_N y)) as [Heq|Hlt|Hgt];
    try done.
  intros H. f_equal; [by apply to_N_inj|by apply IH].
Qed.

Lemma ipVal_inj a b : length a = length b -> ipVal a = ipVal b -> a = b.
Proof.
  intros Hlen Hval. apply bytes_Compare_eq.
  rewrite (bytes_Compare_val a b Hlen), Hval, Z.sub_diag. done.
Qed.

Lemma bytes_Compare_ge a b :
  length a = length b -> (0 <=? bytes_Compare a b) = (ipVal b <=? ipVal a).
Proof.
  intros Hlen. rewrite (bytes_Compare_val a b Hlen).
  pose proof (Z.sgn_spec (ipVal a - ipVal b)) as Hs.
  destruct (Z.leb_spec (ipVal b) (ipVal a)); [apply Z.leb_le|apply Z.leb_gt]; lia.
Qed.

Lemma bytes_Compare_le_val a b :
  length a = length b -> bytes_Compare a b <= 0 <-> ipVal a <= ipVal b.
Proof.
  intros Hlen. rewrite (bytes_Compare_val a b Hlen).
  pose proof (Z.sgn_spec (ipVal a - ipVal b)) as Hs. lia.
Qed.

Lemma bytes_Compare_lt_val a b :
  length a = length b -> bytes_Compare a b < 0 <-> ipVal a < ipVal b.
Proof.
  intros Hlen. rewrite (bytes_Compare_val a b Hlen).
  pose proof (Z.sgn_spec (ipVal a - ipVal b)) as Hs. lia.
Qed.

(** *** The sort *)

Lemma Less_val items i j pi pj :
  items !! i = Some pi -> items !! j = Some pj -> ends16 pi -> ends16 pj ->
  Less items i j = (sv pj <=? sv pi).
Proof.
  intros Hi Hj [Hli _] [Hlj _]. unfold Less.
  rewrite (list_lookup_total_correct _ _ _ Hi), (list_lookup_total_correct _ _ _ Hj).
  apply bytes_Compare_ge. congruence.
Qed.

Lemma Swap_adjacent pre (y x : ipPair) post :
  Swap (pre ++ y :: x :: post) (S (length pre)) (length pre)
  = pre ++ x :: y :: post.
Proof.
  unfold Swap.
  rewrite (list_lookup_total_correct (pre ++ y :: x :: post) (length pre) y)
    by (by apply list_lookup_middle).
  rewrite (list_lookup_total_correct (pre ++ y :: x :: post) (S (length pre)) x).
  2:{ replace (pre ++ y :: x :: post) with ((pre ++ [y]) ++ x :: post)
        by (by rewrite <- app_assoc).
      apply list_lookup_middle. rewrite length_app. simpl. lia. }
  rewrite insert_at_length.
  replace (pre ++ x :: x :: post) with ((pre ++ [x]) ++ x :: post)
    by (by rewrite <- app_assoc).
  replace (S (length pre)) with (length (pre ++ [x]))
    by (rewrite length_app; simpl; lia).
  rewrite insert_at_length. by rewrite <- app_assoc.
Qed.

(** The inner loop of the insertion sort moves [x] to the left past the
    elements that do not start above it, and stops below the first one that
    does. *)
Lemma insertionSort_inner_spec pre : forall x post,
  Forall ends16 pre -> ends16 x ->
  exists pre1 pre2,
    pre = pre1 ++ pre2 /\
    insertionSort_inner (pre ++ x :: post) (length pre) = pre1 ++ x :: pre2 ++ post /\
    Forall (fun y => sv y <= sv x) pre2 /\
    (pre1 = [] \/ exists init y, pre1 = init ++ [y] /\ sv x < sv y).
Proof.
  induction pre as [|y pre IH] using rev_ind; intros x post Hpre Hx.
  - exists [], []. repeat split; auto.
  - rewrite Forall_app, Forall_singleton in Hpre. destruct Hpre as [Hpre Hy].
    rewrite length_app. cbn [length]. rewrite Nat.add_1_r.
    cbn [insertionSort_inner].
    rewrite <- app_assoc. cbn [app].
    rewrite (Less_val _ (S (length pre)) (length pre) x y); [| |by apply list_lookup_middle|done|done].
    2:{ replace (pre ++ y :: x :: post) with ((pre ++ [y]) ++ x :: post)
          by (by rewrite <- app_assoc).
        apply list_lookup_middle. rewrite length_app. simpl. lia. }
    destruct (Z.leb_spec (sv y) (sv x)) as [Hle|Hgt].
    + rewrite Swap_adjacent.
      destruct (IH x (y :: post) Hpre Hx) as (pre1 & pre2 & -> & Hrun & Hall & Hlast).
      exists pre1, (pre2 ++ [y]). split; [by rewrite app_assoc|].
      split; [by rewrite Hrun, <- app_assoc|].
      split; [|done]. rewrite Forall_app, Forall_singleton. done.
    + exists (pre ++ [y]), []. split; [by rewrite app_nil_r|].
      split; [by rewrite <- app_assoc|]. split; [done|]. right. eauto.
Qed.

Lemma Forall_ends16_perm l1 l2 : l1 ≡ₚ l2 -> Forall ends16 l1 -> Forall ends16 l2.
Proof. intros Hp. by rewrite Hp. Qed.

(** [sort.Sort] returns a permutation of the slice in which no element
    starts above an element before it. *)
Lemma sort_Sort_spec items :
  Forall ends16 items ->
  sort_Sort items ≡ₚ items /\
  StronglySorted (fun p q => sv q <= sv p) (sort_Sort items).
Proof.
  intros H16. unfold sort_Sort, Len.
  pose proof (foldl_seq_invariant
    (fun i cur => cur ≡ₚ items /\
                  StronglySorted (fun p q => sv q <= sv p) (take i cur))
    insertionSort_inner (length items - 1) 1 items) as Hinv.
  cbv beta in Hinv.
  destruct Hinv as [Hperm Hsorted].
  - split; [done|]. destruct items as [|p [|q items]]; cbn; repeat constructor.
  - intros k cur Hk [Hperm Hsorted].
    assert (Hlen : length cur = length items) by (by rewrite Hperm).
    destruct (lookup_lt_is_Some_2 cur k) as [x Hx]; [lia|].
    assert (H16cur : Forall ends16 cur)
      by (apply (Forall_ends16_perm items); [by symmetry|done]).
    pose proof (take_drop_middle cur k x Hx) as Hsplit.
    assert (Hlk : length (take k cur) = k) by (rewrite length_take; lia).
    destruct (insertionSort_inner_spec (take k cur) x (drop (S k) cur))
      as (pre1 & pre2 & Hpre & Hrun & Hall & Hlast).
    { rewrite <- Hsplit in H16cur. by apply Forall_app in H16cur as [? _]. }
    { rewrite Forall_forall in H16cur. apply H16cur.
      by apply list_elem_of_lookup_2 in Hx. }
    rewrite Hlk, Hsplit in Hrun. rewrite Hrun.
    remember (drop (S k) cur) as post eqn:Hpost. clear Hpost.
    rewrite Hpre in Hsplit. split.
    + etrans; [|exact Hperm]. rewrite <- Hsplit.
      rewrite <- !app_assoc. apply Permutation_app_head.
      by rewrite Permutation_middle.
    + replace (pre1 ++ x :: pre2 ++ post) with ((pre1 ++ x :: pre2) ++ post)
        by (by rewrite <- app_assoc).
      rewrite take_app_length'.
      2:{ rewrite length_app. cbn [length]. rewrite <- Hlk, Hpre, length_app. lia. }
      rewrite Hpre in Hsorted. apply StronglySorted_app in Hsorted
        as (Hcross & Hs1 & Hs2).
      apply StronglySorted_app_2; [|done|].
      * intros a b Ha Hb. apply elem_of_cons in Hb as [->|Hb].
        -- destruct Hlast as [->|(init & y & -> & Hy)];
             [by apply elem_of_nil in Ha|].
           apply elem_of_app in Ha as [Ha|Ha].
           ++ apply StronglySorted_app in Hs1 as (Hc1 & _ & _).
              specialize (Hc1 a y Ha). cbv beta in Hc1.
              assert (sv y <= sv a) by (apply Hc1; by apply list_elem_of_singleton).
              lia.
           ++ apply list_elem_of_singleton in Ha as ->. lia.
        -- by apply Hcross.
      * apply StronglySorted_cons. split; [|done].
        eapply Forall_impl; [exact Hall|]. done.
  - split; [done|]. rewrite take_ge in Hsorted; [done|].
    rewrite Hperm. lia.
Qed.

(** *** Good ranges and zeroed slots *)

Lemma ipVal_IPv6zero : ipVal net_IPv6zero = 0.
Proof. reflexivity. Qed.

Lemma ipVal_IPv4zero : ipVal net_IPv4zero = 281470681743360.
Proof. reflexivity. Qed.

Lemma length_IPv6zero : length net_IPv6zero = 16%nat.
Proof. reflexivity. Qed.

Lemma length_IPv4zero : length net_IPv4zero = 16%nat.
Proof. reflexivity. Qed.

Lemma bytes_Equal_val a b :
  length a = length b -> bytes_Equal a b = true <-> ipVal a = ipVal b.
Proof.
  intros Hlen. unfold bytes_Equal. rewrite bool_decide_eq_true.
  split; [by intros ->|by apply ipVal_inj].
Qed.

Lemma isZeroIP_val ip :
  length ip = 16%nat ->
  isZeroIP ip = true <-> ipVal ip = 0 \/ ipVal ip = ipVal net_IPv4zero.
Proof.
  intros Hlen. unfold isZeroIP. rewrite orb_true_iff.
  rewrite !bytes_Equal_val by (by rewrite Hlen). by rewrite ipVal_IPv6zero.
Qed.

Lemma plainRange_goodRange p : plainRange p <-> goodRange p.
Proof.
  unfold plainRange, goodRange, ends16. split.
  - intros (Hs & He & Hle & Hne & Hz).
    apply bytes_Compare_le_val in Hle; [|congruence].
    pose proof (ipVal_bound (startIP p)) as Hb.
    assert (ipVal (startIP p) <> 0).
    { intros H0. apply Hne, ipVal_inj; [by rewrite Hs|].
      by rewrite ipVal_IPv6zero. }
    assert (isZeroIP (endIP p) <> true) as Hnz by (by rewrite Hz).
    rewrite (isZeroIP_val _ He) in Hnz.
    repeat split; try done; lia.
  - intros ((Hs & He) & Hpos & Hle & Hne).
    repeat split; try done.
    + apply bytes_Compare_le_val; [congruence|done].
    + intros Heq. rewrite Heq, ipVal_IPv6zero in Hpos. lia.
    + apply not_true_is_false. rewrite (isZeroIP_val _ He). lia.
Qed.

Lemma zeroPair_not_good : ~ goodRange zeroPair.
Proof. intros (_ & Hpos & _). by vm_compute in Hpos. Qed.

Lemma slot_ends16 p : slot p -> ends16 p.
Proof. intros [->|[H _]]; [by split|done]. Qed.

Lemma slot_isZero p : slot p -> isZeroIP (endIP p) = true -> p = zeroPair.
Proof.
  intros [->|Hg] Hz; [done|].
  destruct Hg as ((Hs & He) & Hpos & Hle & Hne).
  apply (isZeroIP_val _ He) in Hz. lia.
Qed.

Lemma good_isZero p : goodRange p -> isZeroIP (endIP p) = false.
Proof.
  intros Hg. apply not_true_is_false. intros Hz.
  apply (slot_isZero p) in Hz; [|by right]. subst. by apply zeroPair_not_good in Hg.
Qed.

Lemma good_not_IPv6zero p : goodRange p -> bytes_Equal (endIP p) net_IPv6zero = false.
Proof.
  intros Hg. pose proof (good_isZero p Hg) as Hz. unfold isZeroIP in Hz.
  by apply orb_false_iff in Hz as [? _].
Qed.

Lemma good_not_IPv4zero p : goodRange p -> bytes_Equal (endIP p) net_IPv4zero = false.
Proof.
  intros Hg. pose proof (good_isZero p Hg) as Hz. unfold isZeroIP in Hz.
  by apply orb_false_iff in Hz as [_ ?].
Qed.

Lemma zeroSlots_insert items k p q :
  items !! k = Some p ->
  zeroSlots (<[k := q]> items) =
  zeroSlots items - (if decide (p = zeroPair) then 1 else 0)
                  + (if decide (q = zeroPair) then 1 else 0).
Proof.
  intros Hk. pose proof (take_drop_middle items k p Hk) as Hsplit.
  assert (Hlk : length (take k items) = k).
  { rewrite length_take. apply lookup_lt_Some in Hk. lia. }
  rewrite <- Hsplit at 1 2. rewrite <- Hlk at 1. rewrite insert_at_length.
  unfold zeroSlots. rewrite !filter_app, !filter_cons, !length_app.
  destruct (decide (p = zeroPair)), (decide (q = zeroPair)); cbn [length]; lia.
Qed.

Lemma zeroSlots_good items : Forall goodRange items -> zeroSlots items = 0.
Proof.
  intros Hall. unfold zeroSlots. induction Hall as [|p l Hp _ IH]; [done|].
  rewrite filter_cons. destruct (decide (p = zeroPair)) as [->|]; [|done].
  by apply zeroPair_not_good in Hp.
Qed.

(** *** The loops of the merge *)

Lemma isZeroIP_zeroPair : isZeroIP (endIP zeroPair) = true.
Proof. reflexivity. Qed.

(** The loop of [checkMerge] zeroes the slots from [lo] up to [hi] and
    counts those that held a range. *)
Lemma checkMerge_loop_spec its m lo hi :
  Forall slot its -> (lo <= hi <= length its)%nat ->
  let st := foldl checkMerge_body (its, m) (seq lo (hi - lo)) in
  length st.1 = length its /\
  (forall q, st.1 !! q =
     if decide (lo <= q < hi)%nat then (fun _ => zeroPair) <$> its !! q else its !! q) /\
  st.2 = m + zeroSlots st.1 - zeroSlots its.
Proof.
  intros Hslots Hbounds st. subst st.
  pose proof (foldl_seq_invariant
    (fun k st => length st.1 = length its /\
       (forall q, st.1 !! q =
          if decide (lo <= q < k)%nat then (fun _ => zeroPair) <$> its !! q else its !! q) /\
       st.2 = m + zeroSlots st.1 - zeroSlots its)
    checkMerge_body (hi - lo) lo (its, m)) as Hinv.
  cbv beta in Hinv. replace (lo + (hi - lo))%nat with hi in Hinv by lia.
  apply Hinv; clear Hinv.
  - cbn [fst snd]. split; [done|]. split; [|lia].
    intros q. rewrite decide_False by lia. done.
  - intros k [c n] Hk (Hlen & Hlook & Hcount). cbn [fst snd] in *.
    assert (Hck : c !! k = its !! k).
    { rewrite Hlook. rewrite decide_False by lia. done. }
    destruct (lookup_lt_is_Some_2 its k) as [p Hp]; [lia|].
    rewrite Hp in Hck.
    assert (Hslot : slot p) by (by eapply Forall_lookup_1 in Hslots).
    unfold checkMerge_body. rewrite (list_lookup_total_correct _ _ _ Hck).
    destruct (isZeroIP (endIP p)) eqn:Hz; cbn [fst snd].
    + apply (slot_isZero p Hslot) in Hz. subst p.
      split; [done|]. split; [|done]. intros q.
      destruct (decide (q = k)) as [->|Hne].
      * rewrite decide_True by lia. by rewrite Hck, Hp.
      * rewrite Hlook. destruct (decide (lo <= q < k)%nat);
          [rewrite decide_True by lia|rewrite decide_False by lia]; done.
    + assert (p <> zeroPair) as Hnz.
      { intros ->. by rewrite isZeroIP_zeroPair in Hz. }
      rewrite length_insert. split; [done|]. split.
      * intros q. destruct (decide (q = k)) as [->|Hne].
        -- rewrite decide_True by lia.
           rewrite list_lookup_insert_eq by lia. by rewrite Hp.
        -- rewrite list_lookup_insert_ne by done. rewrite Hlook.
           destruct (decide (lo <= q < k)%nat);
             [rewrite decide_True by lia|rewrite decide_False by lia]; done.
      * rewrite (zeroSlots_insert c k p zeroPair Hck).
        rewrite decide_False by done. rewrite decide_True by done. lia.
Qed.

Lemma merged_good pi pj :
  goodRange pi -> goodRange pj -> sv pj <= sv pi ->
  goodRange (merged pi pj) /\
  sv (merged pi pj) = sv pj /\
  ev (merged pi pj) = Z.max (ev pi) (ev pj).
Proof.
  intros ((Hsi & Hei) & Hpi & Hli & Hni) ((Hsj & Hej) & Hpj & Hlj & Hnj) Hle.
  unfold merged, goodRange, ends16. cbn [startIP endIP].
  destruct (Z.leb_spec (ev pi) (ev pj)); repeat split; try done; lia.
Qed.

(** The assignments of [checkMerge] before its loop, when the two ranges
    meet. *)
Lemma checkMerge_unfold its i j pi pj :
  its !! i = Some pi -> its !! j = Some pj -> i <> j ->
  ends16 pi -> ends16 pj -> sv pi <= ev pj ->
  checkMerge its i j =
  foldl checkMerge_body (<[j := zeroPair]> (<[i := merged pi pj]> its), 1)
        (seq (S i) (j - S i)).
Proof.
  intros Hi Hj Hne [Hsi Hei] [Hsj Hej] Hmeet. unfold checkMerge.
  assert (Hlt : (i < length its)%nat) by (by eapply lookup_lt_Some).
  rewrite (list_lookup_total_correct _ _ _ Hi), (list_lookup_total_correct _ _ _ Hj).
  rewrite bytes_Compare_ge by congruence.
  destruct (Z.leb_spec (sv pi) (ev pj)); [|lia].
  rewrite list_lookup_total_insert_eq by done.
  rewrite list_lookup_total_insert_ne by done.
  rewrite (list_lookup_total_correct _ _ _ Hj).
  cbn [setStartIP endIP]. rewrite bytes_Compare_ge by congruence.
  unfold merged. destruct (Z.leb_spec (ev pi) (ev pj)).
  - by rewrite list_insert_insert_eq.
  - done.
Qed.

(** One merge: [checkMerge] on two good ranges that meet keeps the
    invariant, zeroes everything between [i] and [j], and leaves a good range
    at [i]. *)
Lemma checkMerge_merges items0 i j its n pi pj :
  mergeInv items0 i (its, n) ->
  (i < j < length its)%nat ->
  its !! i = Some pi -> its !! j = Some pj ->
  goodRange pi -> goodRange pj ->
  apartFrom i j its ->
  sv pi <= ev pj ->
  let st := checkMerge its i j in
  mergeInv items0 i (st.1, n + st.2) /\
  apartFrom i (S j) st.1 /\
  exists pi', st.1 !! i = Some pi' /\ goodRange pi'.
Proof.
  intros [Hlen Hslots Hsorted Hapart Hcover Hcontain Hcount]
    Hij Hi Hj Hgi Hgj Hfrom Hmeet st.
  cbn [fst snd] in *. subst st.
  assert (Hsij : sv pj <= sv pi) by (apply (Hsorted i j pi pj); [lia|done..]).
  destruct (merged_good pi pj Hgi Hgj Hsij) as (Hgm & Hsm & Hem).
  rewrite (checkMerge_unfold its i j pi pj) by (try done; try lia; by destruct Hgi, Hgj).
  set (its2 := <[j := zeroPair]> (<[i := merged pi pj]> its)).
  assert (Hlen2 : length its2 = length its)
    by (unfold its2; by rewrite !length_insert).
  assert (Hslots2 : Forall slot its2).
  { unfold its2. apply Forall_insert; [|by left].
    apply Forall_insert; [done|by right]. }
  destruct (checkMerge_loop_spec its2 1 (S i) j Hslots2) as (Hlen3 & Hlook3 & Hcount3);
    [lia|].
  set (st := foldl checkMerge_body (its2, 1) (seq (S i) (j - S i))) in *.
  destruct st as [its3 m]. cbn [fst snd] in *.
  (* the slots of the result *)
  assert (Hat_i : its3 !! i = Some (merged pi pj)).
  { rewrite Hlook3, decide_False by lia. unfold its2.
    rewrite list_lookup_insert_ne by lia.
    rewrite list_lookup_insert_eq by lia. done. }
  assert (Houtside : forall q, (q < i \/ j < q)%nat -> its3 !! q = its !! q).
  { intros q Hq. rewrite Hlook3, decide_False by lia. unfold its2.
    rewrite !list_lookup_insert_ne by lia. done. }
  assert (Hinside : forall q p, (i < q <= j)%nat -> its3 !! q = Some p -> p = zeroPair).
  { intros q p Hq Hp. rewrite Hlook3 in Hp.
    destruct (decide (S i <= q < j)%nat).
    - destruct (its2 !! q); by simplify_eq/=.
    - assert (q = j) as -> by lia. unfold its2 in Hp.
      rewrite list_lookup_insert_eq in Hp by (rewrite length_insert; lia).
      by simplify_eq. }
  assert (Hcases : forall q p, its3 !! q = Some p -> goodRange p ->
            (q = i /\ p = merged pi pj) \/
            ((q < i \/ j < q)%nat /\ its !! q = Some p)).
  { intros q p Hp Hg.
    destruct (decide (q = i)) as [->|Hqi]; [left; split; [done|congruence]|].
    destruct (decide (i < q <= j)%nat) as [Hin|Hout].
    - apply (Hinside q p Hin) in Hp. subst. by apply zeroPair_not_good in Hg.
    - right. split; [lia|]. rewrite <- Houtside by lia. done. }
  assert (Hgrow : forall r, r ∈ its -> goodRange r -> held its3 r).
  { intros p Hin Hg. apply list_elem_of_lookup in Hin as [q Hq].
    destruct (decide (q < i \/ j < q)%nat) as [Hout|Hin].
    { exists p. split; [|split; [done|lia]]. apply (list_elem_of_lookup_2 _ q).
      by rewrite Houtside. }
    exists (merged pi pj).
    split; [by eapply list_elem_of_lookup_2|]. split; [done|].
    rewrite Hsm, Hem.
    destruct Hgi as (_ & _ & Hli & _).
    destruct (decide (q = i)) as [->|Hqi]; [simplify_eq; lia|].
    destruct (decide (q = j)) as [->|Hqj]; [simplify_eq; lia|].
    assert (ev p < sv pi) by (apply (Hfrom q pi p); [lia|done..]).
    assert (sv pj <= sv p) by (apply (Hsorted q j p pj); [lia|done..]).
    lia. }
  split; [|split].
  - split; cbn [fst snd].
    + congruence.
    + apply Forall_lookup_2. intros q p Hp.
      destruct (decide (q = i)) as [->|Hqi]; [right; congruence|].
      destruct (decide (i < q <= j)%nat) as [Hin|Hout].
      * left. by apply (Hinside q p Hin).
      * rewrite Houtside in Hp by lia. by eapply Forall_lookup_1 in Hslots.
    + intros a b pa pb Hab Ha Hb Hga Hgb.
      destruct (Hcases a pa Ha Hga) as [[-> ->]|[Hqa Ha']],
               (Hcases b pb Hb Hgb) as [[-> ->]|[Hqb Hb']]; try lia.
      * rewrite Hsm. apply (Hsorted j b pj pb); [lia|done..].
      * rewrite Hsm. apply (Hsorted a j pa pj); [lia|done..].
      * by apply (Hsorted a b pa pb).
    + intros a b pa pb Hai Hab Ha Hb Hga Hgb.
      rewrite Houtside in Ha by lia.
      destruct (Hcases b pb Hb Hgb) as [[-> ->]|[Hqb Hb']].
      * rewrite Hem.
        assert (ev pi < sv pa) by (apply (Hapart a i pa pi); [lia|lia|done..]).
        assert (ev pj < sv pa) by (apply (Hapart a j pa pj); [lia|lia|done..]).
        lia.
      * by apply (Hapart a b pa pb).
    + intros z. rewrite <- Hcover. split.
      * intros (p & Hin & Hg & Hz). apply list_elem_of_lookup in Hin as [q Hq].
        destruct (Hcases q p Hq Hg) as [[-> ->]|[_ Hq']].
        -- rewrite Hsm, Hem in Hz. destruct (Z.le_gt_cases z (ev pj)).
           ++ exists pj. split; [by eapply list_elem_of_lookup_2|]. split; [done|lia].
           ++ exists pi. split; [by eapply list_elem_of_lookup_2|]. split; [done|lia].
        -- exists p. split; [by eapply list_elem_of_lookup_2|done].
      * intros (p & Hin & Hg & Hz).
        destruct (Hgrow p Hin Hg) as (r & Hr & Hgr & Hsr & Her).
        exists r. split; [done|]. split; [done|lia].
    + intros p Hin Hg.
      destruct (Hcontain p Hin Hg) as (r & Hr & Hgr & Hsr & Her).
      destruct (Hgrow r Hr Hgr) as (r' & Hr' & Hgr' & Hsr' & Her').
      exists r'. split; [done|]. split; [done|lia].
    + rewrite Hcount3, Hcount. unfold its2.
      rewrite (zeroSlots_insert _ j pj zeroPair)
        by (rewrite list_lookup_insert_ne by lia; done).
      rewrite (zeroSlots_insert _ i pi (merged pi pj)) by done.
      assert (pi <> zeroPair) by (intros ->; by apply zeroPair_not_good in Hgi).
      assert (pj <> zeroPair) by (intros ->; by apply zeroPair_not_good in Hgj).
      assert (merged pi pj <> zeroPair) as Hnm.
      { intros Heq. rewrite Heq in Hgm. by apply zeroPair_not_good in Hgm. }
      repeat case_decide; try done; lia.
  - intros b pi' pb Hb Hi' Hpb Hgb.
    apply (Hinside b pb) in Hpb; [|lia]. subst. by apply zeroPair_not_good in Hgb.
  - exists (merged pi pj). done.
Qed.

Lemma zeroPair_end_IPv6zero : bytes_Equal (endIP zeroPair) net_IPv6zero = true.
Proof. vm_compute. reflexivity. Qed.

Lemma checkMerge_apart its i j pi pj :
  its !! i = Some pi -> its !! j = Some pj ->
  ends16 pi -> ends16 pj -> ev pj < sv pi ->
  checkMerge its i j = (its, 0).
Proof.
  intros Hi Hj [Hsi Hei] [Hsj Hej] Hlt. unfold checkMerge.
  rewrite (list_lookup_total_correct _ _ _ Hi), (list_lookup_total_correct _ _ _ Hj).
  rewrite bytes_Compare_ge by congruence.
  destruct (Z.leb_spec (sv pi) (ev pj)); [lia|done].
Qed.

(** The loop over [j] for a good range at [i]. *)
Lemma mergeItems_inner_loop items0 i its n pi :
  mergeInv items0 i (its, n) ->
  its !! i = Some pi -> goodRange pi ->
  mergeInv items0 (S i)
    (foldl (mergeItems_inner i) (its, n) (seq (S i) (length items0 - S i))).
Proof.
  intros Hinv Hi Hgi.
  assert (Hlt : (i < length items0)%nat).
  { rewrite <- (inv_length _ _ _ Hinv). by eapply lookup_lt_Some. }
  pose proof (foldl_seq_invariant
    (fun j st => mergeInv items0 i st /\ apartFrom i j st.1 /\
                 exists pi', st.1 !! i = Some pi' /\ goodRange pi')
    (mergeItems_inner i) (length items0 - S i) (S i) (its, n)) as Hloop.
  cbv beta in Hloop.
  replace (S i + (length items0 - S i))%nat with (length items0) in Hloop by lia.
  destruct Hloop as (Hfin & Hfrom & pi' & Hi' & Hgi').
  - split; [done|]. split; [|by exists pi].
    intros b ? ? Hb. lia.
  - intros j [c m] Hj (Hc & Hfrom & pi' & Hi' & Hgi'). cbn [fst snd] in *.
    pose proof (inv_length _ _ _ Hc) as Hlen. cbn [fst] in Hlen.
    destruct (lookup_lt_is_Some_2 c j) as [pj Hpj]; [lia|].
    assert (Hslot : slot pj).
    { pose proof (inv_slots _ _ _ Hc) as Hs. by eapply Forall_lookup_1 in Hs. }
    unfold mergeItems_inner.
    rewrite (list_lookup_total_correct _ _ _ Hpj), (list_lookup_total_correct _ _ _ Hi').
    rewrite (good_not_IPv4zero pi' Hgi'), orb_false_r.
    destruct Hslot as [->|Hgj].
    + (* an empty slot is passed over *)
      rewrite zeroPair_end_IPv6zero. cbn [fst snd].
      split; [done|]. split; [|by exists pi'].
      intros b qi qb Hb Hqi Hqb Hgb. cbn [fst snd] in *.
      destruct (decide (b = j)) as [->|Hbj].
      * assert (qb = zeroPair) as -> by congruence.
        by apply zeroPair_not_good in Hgb.
      * apply (Hfrom b qi qb); [lia|done..].
    + rewrite (good_not_IPv6zero pj Hgj).
      destruct (Z.le_gt_cases (sv pi') (ev pj)) as [Hmeet|Hapart].
      * destruct (checkMerge_merges items0 i j c m pi' pj) as (H1 & H2 & H3);
          try done; [lia|].
        by destruct (checkMerge c i j) as [c' m'].
      * rewrite (checkMerge_apart c i j pi' pj); try done;
          [|by destruct Hgi'|by destruct Hgj].
        rewrite Z.add_0_r. split; [done|]. split; [|by exists pi'].
        intros b qi qb Hb Hqi Hqb Hgb. cbn [fst snd] in *.
        destruct (decide (b = j)) as [->|Hbj].
        -- assert (qb = pj) as -> by congruence.
           assert (qi = pi') as -> by congruence. done.
        -- apply (Hfrom b qi qb); [lia|done..].
  - destruct (foldl _ _ _) as [c m]. cbn [fst snd] in *.
    destruct Hfin as [Hlen Hslots Hsorted Hapart Hcover Hcontain Hcount].
    split; try done. cbn [fst] in *.
    intros a b pa pb Ha Hab Hpa Hpb Hga Hgb.
    destruct (decide (a = i)) as [->|Hai].
    + apply (Hfrom b pa pb); [|done..].
      apply lookup_lt_Some in Hpb. lia.
    + apply (Hapart a b pa pb); [lia|done..].
Qed.

(** One pass of the loop over [i]. *)
Lemma mergeItems_outer_step items0 i st :
  mergeInv items0 i st -> (i < length items0)%nat ->
  mergeInv items0 (S i) (mergeItems_outer (length items0) st i).
Proof.
  destruct st as [its n]. intros Hinv Hlt.
  pose proof (inv_length _ _ _ Hinv) as Hlen. cbn [fst] in Hlen.
  destruct (lookup_lt_is_Some_2 its i) as [pi Hpi]; [lia|].
  assert (Hslot : slot pi).
  { pose proof (inv_slots _ _ _ Hinv) as Hs. by eapply Forall_lookup_1 in Hs. }
  unfold mergeItems_outer. rewrite (list_lookup_total_correct _ _ _ Hpi).
  destruct Hslot as [->|Hgi].
  - rewrite isZeroIP_zeroPair.
    destruct Hinv as [? Hslots Hsorted Hapart Hcover Hcontain Hcount].
    split; try done.
    cbn [fst] in *. intros a b pa pb Ha Hab Hpa Hpb Hga Hgb.
    destruct (decide (a = i)) as [->|Hai].
    + assert (pa = zeroPair) as -> by congruence.
      by apply zeroPair_not_good in Hga.
    + apply (Hapart a b pa pb); [lia|done..].
  - rewrite (good_isZero pi Hgi). by apply (mergeItems_inner_loop items0 i its n pi).
Qed.

(** [mergeItems] on good ranges in descending order of their starts: the
    ranges that are left lie apart from one another, cover what the input
    covered, and the count returned is the number of zeroed slots. *)
Lemma mergeItems_spec items0 :
  Forall goodRange items0 -> sortedLive items0 ->
  mergeInv items0 (length items0 - 1) (mergeItems items0).
Proof.
  intros Hgood Hsorted. unfold mergeItems, Len.
  pose proof (foldl_seq_invariant (mergeInv items0)
    (mergeItems_outer (length items0)) (length items0 - 1) 0 (items0, 0)) as Hloop.
  cbn [Nat.add] in Hloop. apply Hloop; clear Hloop.
  - split; cbn [fst snd]; try done.
    + eapply Forall_impl; [exact Hgood|]. intros p Hp. by right.
    + intros a b pa pb Ha. lia.
    + intros p Hin Hg. exists p. split; [done|]. split; [done|lia].
    + by rewrite zeroSlots_good.
  - intros k st Hk Hinv. apply mergeItems_outer_step; [done|lia].
Qed.

(** *** From the merged slice to the result of [Sort] *)

Lemma zeroSlots_perm l1 l2 : l1 ≡ₚ l2 -> zeroSlots l1 = zeroSlots l2.
Proof. intros Hp. unfold zeroSlots. by rewrite Hp. Qed.

Lemma zeroSlots_app l1 l2 : zeroSlots (l1 ++ l2) = zeroSlots l1 + zeroSlots l2.
Proof. unfold zeroSlots. rewrite filter_app, length_app. lia. Qed.

Lemma zeroSlots_zero l :
  Forall (fun p => p = zeroPair) l -> zeroSlots l = Z.of_nat (length l).
Proof.
  intros Hall. unfold zeroSlots. induction Hall as [|p l Hp _ IH]; [done|].
  rewrite filter_cons, decide_True by done. cbn [length]. lia.
Qed.

Lemma cover_perm l1 l2 z : l1 ≡ₚ l2 -> cover l1 z <-> cover l2 z.
Proof.
  intros Hp. unfold cover. split; intros (p & Hin & H); exists p;
    (split; [|done]); [by rewrite <- Hp|by rewrite Hp].
Qed.

Lemma held_perm l1 l2 p : l1 ≡ₚ l2 -> held l1 p -> held l2 p.
Proof.
  intros Hp (r & Hin & H). exists r. split; [by rewrite <- Hp|done].
Qed.

(** In a slice ordered by descending start, the good ranges come first and
    the zeroed slots last. *)
Lemma sorted_slots_split l :
  StronglySorted (fun p q => sv q <= sv p) l -> Forall slot l ->
  exists G Zs, l = G ++ Zs /\ Forall goodRange G /\
               Forall (fun p => p = zeroPair) Zs.
Proof.
  induction 1 as [|p l Hl IH Hall]; intros Hslots.
  - exists [], []. done.
  - apply Forall_cons in Hslots as [Hp Hslots].
    destruct (IH Hslots) as (G & Zs & -> & HG & HZ).
    destruct Hp as [->|Hg].
    + exists [], (zeroPair :: G ++ Zs). split; [done|]. split; [done|].
      constructor; [done|]. apply Forall_forall. intros q Hq.
      rewrite Forall_forall in Hall, Hslots.
      destruct (Hslots q Hq) as [|(_ & Hpos & _)]; [done|].
      specialize (Hall q Hq). cbv beta in Hall.
      change (sv zeroPair) with 0 in Hall. lia.
    + exists (p :: G), Zs. split; [done|]. split; [|done]. by constructor.
Qed.

(** [Sort] on good ranges, in numbers: the result holds good ranges only,
    each lying entirely below the ones before it; it covers what the input
    covers, and every range of the input lies within one range of the
    result. *)
Lemma Sort_good items :
  Forall goodRange items ->
  Forall goodRange (Sort items) /\
  StronglySorted (fun p q => ev q < sv p) (Sort items) /\
  (forall z, cover (Sort items) z <-> cover items z) /\
  (forall p, p ∈ items -> held (Sort items) p).
Proof.
  intros Hgood. unfold Sort, Len.
  assert (H16 : Forall ends16 items)
    by (eapply Forall_impl; [exact Hgood|]; by intros p [? _]).
  destruct (sort_Sort_spec items H16) as [Hperm1 Hsorted1].
  set (s1 := sort_Sort items) in *.
  assert (Hgood1 : Forall goodRange s1) by (by rewrite Hperm1).
  assert (Hlive1 : sortedLive s1).
  { intros a b pa pb Hab Ha Hb _ _.
    by apply (StronglySorted_lookup _ s1 Hsorted1 a b pa pb). }
  pose proof (mergeItems_spec s1 Hgood1 Hlive1) as Hinv.
  destruct (mergeItems s1) as [m1 n].
  destruct Hinv as [Hlen Hslots Hsorted Hapart Hcover Hcontain Hcount].
  cbn [fst snd] in *.
  assert (H16m : Forall ends16 m1)
    by (eapply Forall_impl; [exact Hslots|]; apply slot_ends16).
  destruct (sort_Sort_spec m1 H16m) as [Hperm2 Hsorted2].
  set (s2 := sort_Sort m1) in *.
  assert (Hslots2 : Forall slot s2) by (by rewrite Hperm2).
  destruct (sorted_slots_split s2 Hsorted2 Hslots2) as (G & Zs & HGZ & HG & HZ).
  (* the count returned by the merge is the number of zeroed slots *)
  assert (Hn : n = Z.of_nat (length Zs)).
  { rewrite Hcount, <- (zeroSlots_perm _ _ Hperm2), HGZ, zeroSlots_app.
    rewrite (zeroSlots_good G HG), (zeroSlots_zero Zs HZ). lia. }
  assert (Hlen2 : length m1 = (length G + length Zs)%nat).
  { rewrite <- Hperm2, HGZ. apply length_app. }
  replace (Z.to_nat (Z.of_nat (length m1) - n)) with (length G) by lia.
  rewrite HGZ, take_app_length.
  (* the good ranges of the merged slice lie apart pair by pair *)
  set (apart := fun p q : ipPair =>
         goodRange p -> goodRange q -> ev q < sv p \/ ev p < sv q).
  assert (Hapart_m : StronglySorted apart m1).
  { apply StronglySorted_from_lookup. intros a b x y Hab Ha Hb Hgx Hgy. left.
    apply (Hapart a b x y); [|done..].
    apply lookup_lt_Some in Hb. lia. }
  assert (Hapart_G : StronglySorted apart G).
  { apply (StronglySorted_app_1_l _ G Zs). rewrite <- HGZ.
    apply (StronglySorted_symmetric_perm apart m1 s2); [|by symmetry|done].
    intros x y Hxy Hgy Hgx. destruct (Hxy Hgx Hgy); [by right|by left]. }
  assert (Hsorted_G : StronglySorted (fun p q => sv q <= sv p) G).
  { apply (StronglySorted_app_1_l _ G Zs). by rewrite <- HGZ. }
  assert (HinG : forall p, p ∈ G -> p ∈ m1).
  { intros p Hp. rewrite <- Hperm2, HGZ. apply elem_of_app. by left. }
  assert (HG_m : forall p, p ∈ m1 -> goodRange p -> p ∈ G).
  { intros p Hp Hg. rewrite <- Hperm2, HGZ in Hp.
    apply elem_of_app in Hp as [|Hz]; [done|].
    rewrite Forall_forall in HZ. rewrite (HZ p Hz) in Hg.
    by apply zeroPair_not_good in Hg. }
  split; [done|]. split; [|split].
  - apply StronglySorted_from_lookup. intros a b x y Hab Ha Hb.
    assert (goodRange x) as Hgx
      by (eapply Forall_lookup_1 in HG; [exact HG|exact Ha]).
    assert (goodRange y) as Hgy
      by (eapply Forall_lookup_1 in HG; [exact HG|exact Hb]).
    pose proof (StronglySorted_lookup _ G Hapart_G a b x y Hab Ha Hb Hgx Hgy) as H1.
    pose proof (StronglySorted_lookup _ G Hsorted_G a b x y Hab Ha Hb) as H2.
    cbv beta in H2. destruct Hgx as (_ & _ & Hlx & _). lia.
  - intros z. rewrite <- (cover_perm s1 items z Hperm1), <- Hcover. split.
    + intros (p & Hin & H). exists p. split; [by apply HinG|done].
    + intros (p & Hin & Hg & H). exists p. split; [by apply HG_m|done].
  - intros p Hp.
    assert (p ∈ s1) as Hp1 by (by rewrite Hperm1).
    assert (goodRange p) as Hg by (rewrite Forall_forall in Hgood1; by apply Hgood1).
    destruct (Hcontain p Hp1 Hg) as (r & Hr & Hgr & H).
    exists r. split; [by apply HG_m|done].
Qed.




Lemma overlappingRanges_plain : Forall plainRange overlappingRanges.
Proof.
  repeat constructor; vm_compute; try discriminate; try reflexivity;
    by intros [=].
Qed.



(** *** A second [Sort] on ranges without zero ends *)

Lemma sort_Sort_sorted_id l :
  Forall ends16 l -> StronglySorted (fun p q => sv q < sv p) l -> sort_Sort l = l.
Proof.
  intros H16 Hsorted. unfold sort_Sort, Len.
  pose proof (foldl_seq_invariant (fun _ cur => cur = l)
    insertionSort_inner (length l - 1) 1 l) as Hloop.
  apply Hloop; [done|]. intros k cur Hk ->.
  destruct k as [|k]; [done|]. cbn [insertionSort_inner].
  destruct (lookup_lt_is_Some_2 l (S k)) as [x Hx]; [lia|].
  destruct (lookup_lt_is_Some_2 l k) as [y Hy]; [lia|].
  rewrite (Less_val l (S k) k x y Hx Hy).
  - pose proof (StronglySorted_lookup _ l Hsorted k (S k) y x) as Hlt.
    cbv beta in Hlt.
    destruct (Z.leb_spec (sv y) (sv x)); [|done]. specialize (Hlt ltac:(lia) Hy Hx). lia.
  - eapply Forall_lookup_1 in H16; [exact H16|exact Hx].
  - eapply Forall_lookup_1 in H16; [exact H16|exact Hy].
Qed.

Lemma mergeItems_apart_id l :
  Forall goodRange l -> StronglySorted (fun p q => ev q < sv p) l ->
  mergeItems l = (l, 0).
Proof.
  intros Hgood Hapart. unfold mergeItems, Len.
  pose proof (foldl_seq_invariant (fun _ st => st = (l, 0))
    (mergeItems_outer (length l)) (length l - 1) 0 (l, 0)) as Hloop.
  apply Hloop; [done|]. intros i st Hi ->.
  destruct (lookup_lt_is_Some_2 l i) as [pi Hpi]; [lia|].
  assert (Hgi : goodRange pi) by (eapply Forall_lookup_1 in Hgood; [exact Hgood|exact Hpi]).
  unfold mergeItems_outer. rewrite (list_lookup_total_correct _ _ _ Hpi).
  rewrite (good_isZero pi Hgi).
  pose proof (foldl_seq_invariant (fun _ st => st = (l, 0))
    (mergeItems_inner i) (length l - S i) (S i) (l, 0)) as Hinner.
  apply Hinner; [done|]. intros j st Hj ->.
  destruct (lookup_lt_is_Some_2 l j) as [pj Hpj]; [lia|].
  assert (Hgj : goodRange pj) by (eapply Forall_lookup_1 in Hgood; [exact Hgood|exact Hpj]).
  unfold mergeItems_inner.
  rewrite (list_lookup_total_correct _ _ _ Hpj), (list_lookup_total_correct _ _ _ Hpi).
  rewrite (good_not_IPv6zero pj Hgj), (good_not_IPv4zero pi Hgi). cbn [orb].
  rewrite (checkMerge_apart l i j pi pj Hpi Hpj);
    [done|by destruct Hgi|by destruct Hgj|].
  apply (StronglySorted_lookup _ l Hapart i j pi pj); [lia|done..].
Qed.

(** On ranges none of whose ends is taken for an empty slot a second [Sort]
    changes nothing. *)
Lemma Sort_idempotent_on_plain_ranges items :
  Forall plainRange items -> Sort (Sort items) = Sort items.
Proof.
  intros Hplain.
  assert (Hgood : Forall goodRange items).
  { eapply Forall_impl; [exact Hplain|]. intros p. apply plainRange_goodRange. }
  destruct (Sort_good items Hgood) as (HG & Hapart & _ & _).
  set (out := Sort items) in *. unfold Sort at 1.
  assert (H16 : Forall ends16 out)
    by (eapply Forall_impl; [exact HG|]; by intros p [? _]).
  assert (Hstrict : StronglySorted (fun p q => sv q < sv p) out).
  { apply StronglySorted_from_lookup. intros a b x y Hab Ha Hb.
    pose proof (StronglySorted_lookup _ out Hapart a b x y Hab Ha Hb) as Hlt.
    cbv beta in Hlt.
    assert (goodRange y) as (_ & _ & Hle & _)
      by (eapply Forall_lookup_1 in HG; [exact HG|exact Hb]).
    lia. }
  rewrite (sort_Sort_sorted_id out H16 Hstrict).
  rewrite (mergeItems_apart_id out HG Hapart).
  rewrite (sort_Sort_sorted_id out H16 Hstrict). unfold Len.
  rewrite Z.sub_0_r, Nat2Z.id. apply firstn_all.
Qed.

(** C5 at a failing input.  [0.0.0.1-0.0.0.1], [0.0.0.0-0.0.0.1] and
    [0.0.0.0-0.0.0.0] are inserted; one [Sort] leaves two ranges, a second
    [Sort] merges them into one.  With the inner guard of [mergeItems] reading
    [items[j]] on both sides, the second [Sort] changes nothing. *)
Theorem Sort_twice_differs_on_zero_ended_ranges :
  (exists i1 i2,
     InsertPair acceptAll [] (ip_0_0_0 x01) (ip_0_0_0 x01) = Some i1 /\
     InsertPair acceptAll i1 (ip_0_0_0 x00) (ip_0_0_0 x01) = Some i2 /\
     InsertPair acceptAll i2 (ip_0_0_0 x00) (ip_0_0_0 x00) = Some zeroEndedRanges) /\
  Forall (fun p => ends16 p /\ bytes_Compare (startIP p) (endIP p) <= 0)
         zeroEndedRanges /\
  Sort zeroEndedRanges =
    [ mkIpPair net_IPv4zero net_IPv4zero;
      mkIpPair net_IPv4zero (net_IPv4 x00 x00 x00 x01) ] /\
  Sort (Sort zeroEndedRanges) =
    [ mkIpPair net_IPv4zero (net_IPv4 x00 x00 x00 x01) ] /\
  Sort (Sort zeroEndedRanges) <> Sort zeroEndedRanges /\
  Sort_sameIndex (Sort_sameIndex zeroEndedRanges) = Sort_sameIndex zeroEndedRanges.
Proof.
  split; [|split; [|split; [|split; [|split]]]].
  - eexists. eexists. repeat split; reflexivity.
  - repeat constructor; vm_compute; try reflexivity; by intros [=].
  - vm_compute. reflexivity.
  - vm_compute. reflexivity.
  - vm_compute. discriminate.
  - vm_compute. reflexivity.
Qed.

End IpdictFacts.

Module IpdictSafetyFacts.
Import ListFacts Ipdict IpdictSlots IpdictFacts.

Lemma emptySlots_insert items k p q :
  items !! k = Some p ->
  emptySlots (<[k := q]> items) =
  emptySlots items - (if decide (endIP p = net_IPv6zero) then 1 else 0)
                   + (if decide (endIP q = net_IPv6zero) then 1 else 0).
Proof.
  intros Hk. pose proof (take_drop_middle items k p Hk) as Hsplit.
  assert (Hlk : length (take k items) = k).
  { rewrite length_take. apply lookup_lt_Some in Hk. lia. }
  rewrite <- Hsplit at 1 2. rewrite <- Hlk at 1. rewrite insert_at_length.
  unfold emptySlots. rewrite !filter_app, !filter_cons, !length_app.
  destruct (decide (endIP p = net_IPv6zero)), (decide (endIP q = net_IPv6zero));
    cbn [length]; lia.
Qed.

Lemma emptySlots_bound l : 0 <= emptySlots l <= Z.of_nat (length l).
Proof. unfold emptySlots. pose proof (length_filter (fun p => endIP p = net_IPv6zero) l). lia. Qed.

Lemma isZeroIP_false ip : isZeroIP ip = false -> ip <> net_IPv6zero.
Proof.
  unfold isZeroIP, bytes_Equal. intros H ->.
  rewrite bool_decide_eq_true_2 in H by reflexivity. discriminate.
Qed.

Section Closed.

Variable Q : list byte -> Prop.
Hypothesis Q_zero : Q net_IPv6zero.

Lemma bothEnds_zeroPair : bothEnds Q zeroPair.
Proof. split; exact Q_zero. Qed.

(** The loop of [checkMerge], on any slice. *)
Lemma checkMerge_loop_safe its m lo hi :
  Forall (bothEnds Q) its -> (lo <= hi <= length its)%nat ->
  let st := foldl checkMerge_body (its, m) (seq lo (hi - lo)) in
  length st.1 = length its /\ Forall (bothEnds Q) st.1 /\
  (forall q, (q < lo \/ hi <= q)%nat -> st.1 !! q = its !! q) /\
  m <= st.2 /\ st.2 = m + emptySlots st.1 - emptySlots its.
Proof.
  intros HQ Hbounds st. subst st.
  pose proof (foldl_seq_invariant
    (fun k st => length st.1 = length its /\ Forall (bothEnds Q) st.1 /\
       (forall q, (q < lo \/ k <= q)%nat -> st.1 !! q = its !! q) /\
       m <= st.2 /\ st.2 = m + emptySlots st.1 - emptySlots its)
    checkMerge_body (hi - lo) lo (its, m)) as Hinv.
  cbv beta in Hinv. replace (lo + (hi - lo))%nat with hi in Hinv by lia.
  assert (Hend : forall st : list ipPair * Z,
    (length st.1 = length its /\ Forall (bothEnds Q) st.1 /\
       (forall q, (q < lo \/ hi <= q)%nat -> st.1 !! q = its !! q) /\
       m <= st.2 /\ st.2 = m + emptySlots st.1 - emptySlots its) ->
    length st.1 = length its /\ Forall (bothEnds Q) st.1 /\
       (forall q, (q < lo \/ hi <= q)%nat -> st.1 !! q = its !! q) /\
       m <= st.2 /\ st.2 = m + emptySlots st.1 - emptySlots its) by auto.
  apply Hend, Hinv; clear Hinv Hend.
  - cbn [fst snd]. repeat split; [exact HQ|lia|lia].
  - intros k [c n] Hk (Hlen & HcQ & Hlook & Hm & Hcount). cbn [fst snd] in *.
    destruct (lookup_lt_is_Some_2 c k) as [p Hp]; [lia|].
    unfold checkMerge_body. rewrite (list_lookup_total_correct _ _ _ Hp).
    destruct (isZeroIP (endIP p)) eqn:Hz; cbn [fst snd].
    + repeat split; try assumption. intros q Hq. apply Hlook. lia.
    + rewrite length_insert. split; [exact Hlen|]. split; [|split; [|split]].
      * apply Forall_insert; [exact HcQ|apply bothEnds_zeroPair].
      * intros q Hq. rewrite list_lookup_insert_ne by lia. apply Hlook. lia.
      * lia.
      * rewrite (emptySlots_insert c k p zeroPair Hp).
        apply isZeroIP_false in Hz.
        rewrite decide_False by exact Hz.
        rewrite decide_True by reflexivity. lia.
Qed.

(** One call of [checkMerge] on two slots whose ends are not [::]. *)
Lemma checkMerge_safe its i j :
  (i < j < length its)%nat -> Forall (bothEnds Q) its ->
  endIP (its !!! i) <> net_IPv6zero -> endIP (its !!! j) <> net_IPv6zero ->
  let st := checkMerge its i j in
  length st.1 = length its /\ Forall (bothEnds Q) st.1 /\
  0 <= st.2 /\ st.2 = emptySlots st.1 - emptySlots its /\
  endIP (st.1 !!! i) <> net_IPv6zero.
Proof.
  intros Hij HQ Hi Hj st. subst st.
  destruct (lookup_lt_is_Some_2 its i) as [pi Hpi]; [lia|].
  destruct (lookup_lt_is_Some_2 its j) as [pj Hpj]; [lia|].
  rewrite (list_lookup_total_correct _ _ _ Hpi) in Hi.
  rewrite (list_lookup_total_correct _ _ _ Hpj) in Hj.
  assert (HQi : bothEnds Q pi) by (eapply Forall_lookup_1 in HQ; [exact HQ|exact Hpi]).
  assert (HQj : bothEnds Q pj) by (eapply Forall_lookup_1 in HQ; [exact HQ|exact Hpj]).
  unfold checkMerge.
  rewrite (list_lookup_total_correct _ _ _ Hpi), (list_lookup_total_correct _ _ _ Hpj).
  destruct (0 <=? bytes_Compare (endIP pj) (startIP pi)); cbn [fst snd].
  2:{ rewrite (list_lookup_total_correct _ _ _ Hpi).
      repeat split; [exact HQ|lia|lia|exact Hi]. }
  set (its1 := <[i := setStartIP pi (startIP pj)]> its).
  assert (H1i : its1 !! i = Some (setStartIP pi (startIP pj))).
  { subst its1. apply list_lookup_insert_eq. lia. }
  assert (H1j : its1 !! j = Some pj).
  { subst its1. rewrite list_lookup_insert_ne by lia. exact Hpj. }
  assert (H1Q : Forall (bothEnds Q) its1).
  { subst its1. apply Forall_insert; [exact HQ|]. split; [apply HQj|apply HQi]. }
  assert (H1n : emptySlots its1 = emptySlots its).
  { subst its1. rewrite (emptySlots_insert its i pi _ Hpi). cbn [setStartIP endIP].
    destruct (decide (endIP pi = net_IPv6zero)); lia. }
  assert (H1l : length its1 = length its) by (subst its1; apply length_insert).
  rewrite (list_lookup_total_correct _ _ _ H1i), (list_lookup_total_correct _ _ _ H1j).
  set (its2 := if 0 <=? bytes_Compare (endIP pj) (endIP (setStartIP pi (startIP pj)))
               then <[i := setEndIP (setStartIP pi (startIP pj)) (endIP pj)]> its1
               else its1).
  assert (H2 : exists pi2, its2 !! i = Some pi2 /\ endIP pi2 <> net_IPv6zero /\
             its2 !! j = Some pj /\ Forall (bothEnds Q) its2 /\
             emptySlots its2 = emptySlots its /\ length its2 = length its).
  { subst its2.
    destruct (0 <=? bytes_Compare (endIP pj) (endIP (setStartIP pi (startIP pj)))).
    - exists (setEndIP (setStartIP pi (startIP pj)) (endIP pj)).
      split; [apply list_lookup_insert_eq; lia|]. split; [exact Hj|].
      split; [rewrite list_lookup_insert_ne by lia; exact H1j|].
      split; [apply Forall_insert; [exact H1Q|]; split; [apply HQj|apply HQj]|].
      split; [|rewrite length_insert; exact H1l].
      rewrite (emptySlots_insert its1 i _ _ H1i). cbn [setStartIP setEndIP endIP].
      rewrite !decide_False by assumption. lia.
    - exists (setStartIP pi (startIP pj)). repeat split; try assumption. }
  clearbody its2. destruct H2 as (pi2 & H2i & H2e & H2j & H2Q & H2n & H2l).
  set (its3 := <[j := zeroPair]> its2).
  assert (H3Q : Forall (bothEnds Q) its3).
  { subst its3. apply Forall_insert; [exact H2Q|apply bothEnds_zeroPair]. }
  assert (H3l : length its3 = length its) by (subst its3; rewrite length_insert; exact H2l).
  assert (H3n : emptySlots its3 = emptySlots its + 1).
  { subst its3. rewrite (emptySlots_insert its2 j pj _ H2j).
    rewrite decide_False by exact Hj. rewrite decide_True by reflexivity. lia. }
  assert (H3i : its3 !! i = Some pi2).
  { subst its3. rewrite list_lookup_insert_ne by lia. exact H2i. }
  destruct (checkMerge_loop_safe its3 1 (S i) j H3Q) as (Hl & HfQ & Hlook & Hm & Hc); [lia|].
  split; [lia|]. split; [exact HfQ|]. split; [lia|]. split; [lia|].
  rewrite (list_lookup_total_correct _ _ pi2); [exact H2e|].
  rewrite Hlook by lia. exact H3i.
Qed.

(** The state of [mergeItems] on any slice [items0]: the length is kept,
    and the count is the number of slots emptied so far. *)
Definition safeInv (items0 : list ipPair) (st : list ipPair * Z) : Prop :=
  length st.1 = length items0 /\ Forall (bothEnds Q) st.1 /\
  0 <= st.2 /\ st.2 = emptySlots st.1 - emptySlots items0.

Lemma mergeItems_inner_safe items0 i st :
  safeInv items0 st -> (i < length items0)%nat ->
  endIP (st.1 !!! i) <> net_IPv6zero ->
  let st' := foldl (mergeItems_inner i) st (seq (S i) (length items0 - S i)) in
  safeInv items0 st'.
Proof.
  intros Hinv Hi Hne st'. subst st'.
  pose proof (foldl_seq_invariant
    (fun (_ : nat) st => safeInv items0 st /\ endIP (st.1 !!! i) <> net_IPv6zero)
    (mergeItems_inner i) (length items0 - S i) (S i) st) as H.
  cbv beta in H. apply H; clear H; [split; assumption|].
  intros j [c n] Hj [(Hlen & HQ & Hn & Hcount) Hci]. cbn [fst snd] in *.
  unfold mergeItems_inner.
  destruct (bytes_Equal (endIP (c !!! j)) net_IPv6zero) eqn:Hz; cbn [orb].
  { split; [repeat split; assumption|exact Hci]. }
  destruct (bytes_Equal (endIP (c !!! i)) net_IPv4zero); cbn [orb].
  { split; [repeat split; assumption|exact Hci]. }
  assert (Hjne : endIP (c !!! j) <> net_IPv6zero).
  { unfold bytes_Equal in Hz. intros E. rewrite bool_decide_eq_true_2 in Hz by exact E.
    discriminate. }
  destruct (checkMerge_safe c i j) as (Hl & HfQ & H0 & Hc & Hie); [lia|assumption..|].
  destruct (checkMerge c i j) as [c' n'] eqn:Hcm. cbn [fst snd] in *.
  split; [|exact Hie]. unfold safeInv. cbn [fst snd].
  split; [lia|]. split; [exact HfQ|]. lia.
Qed.

Lemma mergeItems_safe items :
  Forall (bothEnds Q) items ->
  let st := mergeItems items in
  length st.1 = length items /\ Forall (bothEnds Q) st.1 /\
  0 <= st.2 <= Z.of_nat (length items).
Proof.
  intros HQ st. subst st. unfold mergeItems, Len.
  pose proof (foldl_seq_invariant (fun (_ : nat) st => safeInv items st)
    (mergeItems_outer (length items)) (length items - 1) 0 (items, 0)) as H.
  cbv beta in H.
  assert (Hfin : safeInv items
            (foldl (mergeItems_outer (length items)) (items, 0)
                   (seq 0 (length items - 1)))).
  { apply H; clear H.
    - unfold safeInv. cbn [fst snd]. repeat split; [exact HQ|lia|lia].
    - intros i [c n] Hi Hinv. unfold mergeItems_outer.
      destruct (isZeroIP (endIP (c !!! i))) eqn:Hz; [exact Hinv|].
      apply mergeItems_inner_safe; [exact Hinv|lia|].
      cbn [fst]. by apply isZeroIP_false. }
  destruct Hfin as (Hl & HfQ & H0 & Hc).
  split; [exact Hl|]. split; [exact HfQ|]. split; [exact H0|].
  pose proof (emptySlots_bound
    (foldl (mergeItems_outer (length items)) (items, 0) (seq 0 (length items - 1))).1).
  pose proof (emptySlots_bound items). lia.
Qed.

End Closed.

(** *** [sort.Sort] and [Sort] on any slice *)

Lemma Swap_perm items j :
  (S j < length items)%nat -> Swap items (S j) j ≡ₚ items.
Proof.
  intros Hj.
  destruct (lookup_lt_is_Some_2 items j) as [y Hy]; [lia|].
  destruct (lookup_lt_is_Some_2 items (S j)) as [x Hx]; [lia|].
  pose proof (take_drop_middle items j y Hy) as Hsplit.
  rewrite (drop_S items x (S j) Hx) in Hsplit.
  assert (Hlk : length (take j items) = j) by (rewrite length_take; lia).
  remember (take j items) as pre eqn:Hpre.
  remember (drop (S (S j)) items) as post eqn:Hpost.
  clear Hpre Hpost Hy Hx Hj. subst items j.
  rewrite Swap_adjacent. apply Permutation_app_head. apply perm_swap.
Qed.

Lemma insertionSort_inner_perm j : forall items,
  (j < length items)%nat -> insertionSort_inner items j ≡ₚ items.
Proof.
  induction j as [|j IH]; intros items Hj; cbn [insertionSort_inner]; [reflexivity|].
  destruct (Less items (S j) j); [|reflexivity].
  pose proof (Swap_perm items j Hj) as Hsw.
  etrans; [|exact Hsw]. apply IH.
  rewrite (Permutation_length Hsw). lia.
Qed.

Lemma sort_Sort_perm items : sort_Sort items ≡ₚ items.
Proof.
  unfold sort_Sort, Len.
  pose proof (foldl_seq_invariant (fun (_ : nat) st => st ≡ₚ items)
    insertionSort_inner (length items - 1) 1 items) as H.
  cbv beta in H. apply H; clear H; [reflexivity|].
  intros k s Hk Hs. etrans; [|exact Hs].
  apply insertionSort_inner_perm. rewrite (Permutation_length Hs). lia.
Qed.

Lemma Sort_ends (Q : list byte -> Prop) items :
  Q net_IPv6zero -> Forall (bothEnds Q) items -> Forall (bothEnds Q) (Sort items).
Proof.
  intros Hz HQ. unfold Sort.
  assert (HsQ : Forall (bothEnds Q) (sort_Sort items)).
  { rewrite (sort_Sort_perm items). exact HQ. }
  destruct (mergeItems_safe Q Hz (sort_Sort items) HsQ) as (_ & HmQ & _).
  destruct (mergeItems (sort_Sort items)) as [m n]. cbn [fst snd] in *.
  apply Forall_take. rewrite (sort_Sort_perm m). exact HmQ.
Qed.

(** X3. For every slice, whatever its pairs hold, the count that
    [mergeItems] returns to [Sort] lies between 0 and the length of the
    slice, so that the reslice [items[0:length]] of [Sort] is within the
    slice; [Sort] returns exactly [len(items) - mergedNum] pairs. *)
Theorem Sort_reslice_within_bounds (items : list ipPair) :
  let st := mergeItems (sort_Sort items) in
  Len st.1 = Len items /\
  0 <= st.2 <= Z.of_nat (Len st.1) /\
  Z.of_nat (Len (Sort items)) = Z.of_nat (Len items) - st.2.
Proof.
  intros st. subst st. unfold Len.
  assert (HT : Forall (bothEnds (fun _ => True)) (sort_Sort items)).
  { apply Forall_forall. intros p _. split; exact I. }
  destruct (mergeItems_safe (fun _ => True) I (sort_Sort items) HT) as (Hl & _ & Hn).
  pose proof (Permutation_length (sort_Sort_perm items)) as Hp.
  unfold Sort. destruct (mergeItems (sort_Sort items)) as [m n]. cbn [fst snd] in *.
  rewrite Hl, Hp in *. split; [reflexivity|]. split; [exact Hn|].
  rewrite length_take, (Permutation_length (sort_Sort_perm m)). unfold Len. lia.
Qed.

(** X4. [Sort] invents no address: every start and every end of its result
    is [::] or an address of a pair that was inserted.  Hence a slice of
    16-byte addresses, as [InsertPair] builds it, stays one. *)
Theorem Sort_keeps_addresses (items : list ipPair) :
  Forall (bothEnds (fun ip => ip = net_IPv6zero \/
            exists p, p ∈ items /\ (ip = startIP p \/ ip = endIP p)))
         (Sort items) /\
  (Forall ends16 items -> Forall ends16 (Sort items)).
Proof.
  split.
  - apply Sort_ends; [by left|].
    apply Forall_forall. intros p Hp. split; right; exists p; auto.
  - intros H16. apply (Sort_ends (fun ip => length ip = 16%nat)); [reflexivity|exact H16].
Qed.

Lemma Sort_keeps_addresses_witness :
  Forall ends16 mixedRanges /\ Forall ends16 (Sort mixedRanges).
Proof.
  assert (H : Forall ends16 mixedRanges) by (repeat constructor).
  split; [exact H|]. exact (proj2 (Sort_keeps_addresses mixedRanges) H).
Defined.

(** *** The order of [Less], the merge of two ranges, a second [Sort] *)

Local Abbreviation sv p := (ipVal (startIP p)).
Local Abbreviation ev p := (ipVal (endIP p)).

(** X1. [Less] compares the starts with [>=]: after [sort.Sort] the slice
    holds the same pairs, the highest start first. *)
Theorem sort_Sort_descending_starts (items : list ipPair) :
  Forall ends16 items ->
  sort_Sort items ≡ₚ items /\ StronglySorted byStartDesc (sort_Sort items).
Proof.
  intros H16. destruct (sort_Sort_spec items H16) as [Hp Hs]. split; [exact Hp|].
  assert (H16s : Forall ends16 (sort_Sort items)) by (rewrite Hp; exact H16).
  apply StronglySorted_from_lookup. intros a b x y Hab Ha Hb.
  pose proof (StronglySorted_lookup _ _ Hs a b x y Hab Ha Hb) as Hle. cbv beta in Hle.
  assert (ends16 x) as [Hx _] by (eapply Forall_lookup_1 in H16s; [exact H16s|exact Ha]).
  assert (ends16 y) as [Hy _] by (eapply Forall_lookup_1 in H16s; [exact H16s|exact Hb]).
  unfold byStartDesc. apply bytes_Compare_le_val; [congruence|exact Hle].
Qed.

Lemma sort_Sort_descending_starts_witness :
  Forall ends16 mixedRanges /\
  sort_Sort mixedRanges ≡ₚ mixedRanges /\
  StronglySorted byStartDesc (sort_Sort mixedRanges).
Proof.
  assert (H : Forall ends16 mixedRanges) by (repeat constructor).
  split; [exact H|]. exact (sort_Sort_descending_starts mixedRanges H).
Defined.

Lemma merged_goodRange pi pj :
  goodRange pi -> goodRange pj -> goodRange (merged pi pj).
Proof.
  intros ([Hi1 Hi2] & Hi3 & Hi4 & Hi5) ([Hj1 Hj2] & Hj3 & Hj4 & Hj5).
  unfold merged, goodRange, ends16. cbn [startIP endIP].
  destruct (ev pi <=? ev pj) eqn:Hc; repeat split; try assumption; lia.
Qed.

(** X5. What one call of [checkMerge] does to two ranges [i < j] of a
    slice whose slots are ranges or emptied.  If the range at [j] ends
    before the range at [i] starts, nothing changes and 0 is returned.
    Otherwise slot [i] takes the start of [j] and the larger end, the slots
    after [i] up to [j] are emptied, the other slots are kept, and the
    number returned is the number of slots that were emptied. *)
Theorem checkMerge_effect (its : list ipPair) (i j : nat) (pi pj : ipPair) :
  (i < j < length its)%nat -> Forall slot its ->
  its !! i = Some pi -> its !! j = Some pj -> goodRange pi -> goodRange pj ->
  let st := checkMerge its i j in
  (below pi pj -> st = (its, 0)) /\
  (~ below pi pj ->
     length st.1 = length its /\
     st.1 !! i = Some (merged pi pj) /\
     (forall q, (i < q <= j)%nat -> st.1 !! q = Some zeroPair) /\
     (forall q, (q < i \/ j < q)%nat -> st.1 !! q = its !! q) /\
     st.2 = zeroSlots st.1 - zeroSlots its).
Proof.
  intros Hij Hslots Hpi Hpj Hgi Hgj st. subst st.
  assert (H16i : ends16 pi) by apply Hgi. assert (H16j : ends16 pj) by apply Hgj.
  assert (Hbelow : below pi pj <-> ev pj < sv pi).
  { unfold below. apply bytes_Compare_lt_val.
    destruct H16i as [-> _], H16j as [_ ->]. reflexivity. }
  split.
  - intros Hb. apply (checkMerge_apart its i j pi pj); try assumption. by apply Hbelow.
  - intros Hnb. assert (Hle : sv pi <= ev pj) by (rewrite Hbelow in Hnb; lia).
    rewrite (checkMerge_unfold its i j pi pj) by (try assumption; lia).
    set (its1 := <[i := merged pi pj]> its).
    set (its2 := <[j := zeroPair]> its1).
    assert (Hnzi : pi <> zeroPair) by (intros ->; by apply zeroPair_not_good in Hgi).
    assert (Hnzj : pj <> zeroPair) by (intros ->; by apply zeroPair_not_good in Hgj).
    assert (Hgm : goodRange (merged pi pj)) by (by apply merged_goodRange).
    assert (Hnzm : merged pi pj <> zeroPair).
    { intros E. rewrite E in Hgm. by apply zeroPair_not_good in Hgm. }
    assert (H1j : its1 !! j = Some pj).
    { subst its1. rewrite list_lookup_insert_ne by lia. exact Hpj. }
    assert (Hs2 : Forall slot its2).
    { subst its2 its1. apply Forall_insert; [apply Forall_insert; [exact Hslots|]|].
      - by right.
      - by left. }
    assert (Hl2 : length its2 = length its).
    { subst its2 its1. by rewrite !length_insert. }
    assert (Hz2 : zeroSlots its2 = zeroSlots its + 1).
    { subst its2. rewrite (zeroSlots_insert its1 j pj zeroPair H1j).
      subst its1. rewrite (zeroSlots_insert its i pi (merged pi pj) Hpi).
      rewrite !decide_False by assumption. rewrite decide_True by reflexivity. lia. }
    destruct (checkMerge_loop_spec its2 1 (S i) j Hs2) as (Hl & Hlook & Hn); [lia|].
    split; [lia|]. split; [|split; [|split]].
    + rewrite Hlook, decide_False by lia. subst its2 its1.
      rewrite list_lookup_insert_ne by lia. apply list_lookup_insert_eq. lia.
    + intros q Hq. rewrite Hlook. destruct (decide (S i <= q < j)%nat) as [Hin|Hout].
      * destruct (lookup_lt_is_Some_2 its2 q) as [x Hx]; [lia|].
        rewrite Hx. reflexivity.
      * assert (q = j) as -> by lia. subst its2.
        apply list_lookup_insert_eq. subst its1. rewrite length_insert. lia.
    + intros q Hq. rewrite Hlook, decide_False by lia. subst its2 its1.
      rewrite !list_lookup_insert_ne by lia. reflexivity.
    + lia.
Qed.

Lemma checkMerge_effect_witness :
  let pi := mkIpPair (net_IPv4 x0a x00 x00 x0f) (net_IPv4 x0a x00 x00 x1e) in
  let pj := mkIpPair (net_IPv4 x0a x00 x00 x05) (net_IPv4 x0a x00 x00 x14) in
  let its := [pi; pj] in
  let st := checkMerge its 0 1 in
  ~ below pi pj /\
  length st.1 = length its /\
  st.1 !! 0%nat = Some (merged pi pj) /\
  (forall q, (0 < q <= 1)%nat -> st.1 !! q = Some zeroPair) /\
  (forall q, (q < 0 \/ 1 < q)%nat -> st.1 !! q = its !! q) /\
  st.2 = zeroSlots st.1 - zeroSlots its.
Proof.
  intros pi pj its st.
  assert (Hgi : goodRange pi) by (apply plainRange_goodRange; repeat split; vm_compute; congruence).
  assert (Hgj : goodRange pj) by (apply plainRange_goodRange; repeat split; vm_compute; congruence).
  assert (Hnb : ~ below pi pj) by (vm_compute; congruence).
  split; [exact Hnb|].
  refine (proj2 (checkMerge_effect its 0 1 pi pj _ _ _ _ Hgi Hgj) Hnb).
  - cbn [length its]. lia.
  - constructor; [right; exact Hgi|]. constructor; [right; exact Hgj|]. constructor.
  - reflexivity.
  - reflexivity.
Defined.

(** X2. On ranges that are plain (16-byte ends, start not after end, no
    end taken for an empty slot) the result of [Sort] is again a slice of
    plain ranges, and sorting it again changes nothing. *)
Theorem Sort_again_changes_nothing (items : list ipPair) :
  Forall plainRange items ->
  Forall plainRange (Sort items) /\ Sort (Sort items) = Sort items.
Proof.
  intros Hplain. split; [|by apply Sort_idempotent_on_plain_ranges].
  assert (Hgood : Forall goodRange items).
  { eapply Forall_impl; [exact Hplain|]. intros p. apply plainRange_goodRange. }
  destruct (Sort_good items Hgood) as (HG & _).
  eapply Forall_impl; [exact HG|]. intros p. apply plainRange_goodRange.
Qed.

Lemma Sort_again_changes_nothing_witness :
  Forall plainRange overlappingRanges /\
  Forall plainRange (Sort overlappingRanges) /\
  Sort (Sort overlappingRanges) = Sort overlappingRanges.
Proof.
  split; [exact overlappingRanges_plain|].
  exact (Sort_again_changes_nothing overlappingRanges overlappingRanges_plain).
Defined.

End IpdictSafetyFacts.

Module HostLookupFacts.
Import ListFacts HostTable HostLookup HostKeyFacts LookupFacts.


Lemma list_ascii_of_string_app s1 s2 :
  list_ascii_of_string (s1 +:+ s2) = list_ascii_of_string s1 ++ list_ascii_of_string s2.
Proof. induction s1 as [|c s1 IH]; simpl; [reflexivity|]. by rewrite IH. Qed.

Lemma string_of_list_ascii_inj_list s l :
  list_ascii_of_string s = l -> s = string_of_list_ascii l.
Proof. intros <-. by rewrite string_of_list_ascii_of_string. Qed.



Lemma splitOn_head sep l :
  exists first rest, splitOn sep l = first :: rest /\ (sep ∉ first) /\
    (l = first \/ exists tl, l = first ++ sep :: tl).
Proof.
  induction l as [|c l (first & rest & Heq & Hn & Hl)]; cbn [splitOn].
  - exists [], []. split; [reflexivity|]. split; [apply not_elem_of_nil|by left].
  - destruct (Ascii.eqb_spec c sep) as [->|Hc].
    + exists [], (splitOn sep l). split; [reflexivity|].
      split; [apply not_elem_of_nil|]. right. by exists l.
    + rewrite Heq. exists (c :: first), rest. split; [reflexivity|].
      split; [by apply not_elem_of_cons|].
      destruct Hl as [->|[tl ->]]; [by left|right; by exists tl].
Qed.

(** X6. [hostnameStrip] returns the part of the host before its first colon:
    the result holds no colon, and the host is the result itself or the
    result followed by a colon and the rest. *)
Theorem hostnameStrip_spec (hostname : string) :
  let s := hostnameStrip hostname in
  (":"%char ∉ list_ascii_of_string s) /\
  (s = hostname \/ exists rest, hostname = s +:+ (":" +:+ rest)).
Proof.
  intros s. subst s. unfold hostnameStrip, strings_Split.
  destruct (splitOn_head ":" (list_ascii_of_string hostname))
    as (first & rest & Heq & Hn & Hl).
  rewrite Heq. cbn [map]. rewrite list_ascii_of_string_of_list_ascii.
  split; [exact Hn|]. destruct Hl as [Hl|[tl Hl]].
  - left. symmetry. by apply string_of_list_ascii_inj_list.
  - right. exists (string_of_list_ascii tl).
    rewrite (string_of_list_ascii_inj_list _ _ Hl).
    rewrite <- (string_of_list_ascii_of_string
                 (string_of_list_ascii first +:+ (":" +:+ string_of_list_ascii tl))).
    f_equal. rewrite !list_ascii_of_string_app, !list_ascii_of_string_of_list_ascii.
    reflexivity.
Qed.










Section WithTrie.

Context {Trie : Type}.
Variable trie_Get : Trie -> list string -> option route.


Lemma LookupHostTagAndProduct_error (t : HostTable (Trie:=Trie)) (req : Request) :
  (LookupHostTagAndProduct trie_Get t req).2 <> None ->
  Product (Route (LookupHostTagAndProduct trie_Get t req).1) = EmptyString /\
  HostTag (Route (LookupHostTagAndProduct trie_Get t req).1) = EmptyString.
Proof.
  unfold LookupHostTagAndProduct, findHostRoute, findVipRoute.
  destruct (hostTrie t) as [tr|]; [destruct (trie_Get _ _)|];
    destruct (Session_Vip req) as [vip|];
    try destruct (size (vipTable t) =? 0)%nat;
    try destruct (vipTable t !! vip);
    destruct (negb (String.eqb (defaultProduct t) EmptyString));
    cbv beta iota zeta; cbn [fst snd setRoute Route Product HostTag product tag];
    intros H; try (exfalso; apply H; reflexivity); split; reflexivity.
Qed.

Lemma LookupHostTagAndProduct_result (t : HostTable (Trie:=Trie)) (req : Request) :
  let err := (LookupHostTagAndProduct trie_Get t req).2 in
  (err = None \/ err = Some ErrNoProduct) /\
  Error (Route (LookupHostTagAndProduct trie_Get t req).1) = err.
Proof.
  unfold LookupHostTagAndProduct, findHostRoute, findVipRoute.
  destruct (hostTrie t) as [tr|]; [destruct (trie_Get _ _)|];
    destruct (Session_Vip req) as [vip|];
    try destruct (size (vipTable t) =? 0)%nat;
    try destruct (vipTable t !! vip);
    destruct (negb (String.eqb (defaultProduct t) EmptyString));
    cbv beta iota zeta; cbn [fst snd setRoute Route Error];
    (split; [first [left; reflexivity|right; reflexivity]|reflexivity]).
Qed.

(** X8. The route that [Lookup] returns names a cluster exactly when it
    carries no error; then the product is the one the first step resolved and
    the cluster is that of the first matching rule of the product.  An error
    [ErrNoProduct] leaves product and tag empty; the errors of the second
    step keep them.  The fields [Error], [Product] and [HostTag] of the
    request are left equal to those of the route. *)
Theorem Lookup_route (t : HostTable (Trie:=Trie)) (req : Request) :
  let req1 := (LookupHostTagAndProduct trie_Get t req).1 in
  let req' := (Lookup trie_Get t req).1 in
  let r := (Lookup trie_Get t req).2 in
  (Error r = None <-> ClusterName r <> EmptyString) /\
  (Error r = None ->
     Product r = Product (Route req1) /\ HostTag r = HostTag (Route req1) /\
     ClusterName (Route req') = ClusterName r /\
     exists rules rule,
       productRouteTable t !! Product r = Some rules /\
       firstMatch rules req1 = Some rule /\
       ClusterName r = RuleClusterName rule) /\
  (Error r = Some ErrNoProduct ->
     Product r = EmptyString /\ HostTag r = EmptyString) /\
  (Error r = Some ErrNoProductRule ->
     productRouteTable t !! Product r = None) /\
  Error (Route req') = Error r /\ Product (Route req') = Product r /\
  HostTag (Route req') = HostTag r.
Proof.
  intros req1 req' r. subst req1 req' r. unfold Lookup.
  destruct (LookupHostTagAndProduct_result t req) as [Herr1 HE1].
  destruct (LookupHostTagAndProduct trie_Get t req) as [req1 err1] eqn:H1.
  cbn [fst snd] in *.
  destruct err1 as [e1|].
  - destruct Herr1 as [?|Herr1]; [discriminate|]. injection Herr1 as ->.
    cbn [fst snd Error ClusterName Product HostTag emptyRoute].
    pose proof (LookupHostTagAndProduct_error t req) as Hempty.
    rewrite H1 in Hempty. cbn [fst snd] in Hempty.
    specialize (Hempty ltac:(discriminate)).
    destruct Hempty as [Hp Ht].
    split; [split; [discriminate|done]|]. split; [discriminate|].
    split; [done|]. split; [discriminate|]. by rewrite HE1, Hp, Ht.
  - pose proof (LookupCluster_loop_firstMatch) as Hloop.
    unfold LookupCluster in *.
    destruct (productRouteTable t !! Product (Route req1)) as [rules|] eqn:Hrules;
      cbn [fst snd Error ClusterName Product HostTag emptyRoute failRoute setRoute Route] in *.
    2:{ split; [split; [discriminate|done]|]. split; [discriminate|].
        split; [discriminate|]. split; [done|]. done. }
    rewrite Hloop in *.
    destruct (firstMatch rules req1) as [rule|] eqn:Hfm;
      cbn [String.eqb] in *.
    2:{ cbn [fst snd Error ClusterName Product HostTag emptyRoute failRoute setRoute Route].
        split; [split; [discriminate|done]|]. split; [discriminate|].
        split; [discriminate|]. split; [discriminate|]. done. }
    destruct (String.eqb_spec (RuleClusterName rule) EmptyString) as [He|Hne];
      cbn [fst snd Error ClusterName Product HostTag emptyRoute failRoute setRoute Route].
    + split; [split; [discriminate|done]|]. split; [discriminate|].
      split; [discriminate|]. split; [discriminate|]. done.
    + split; [split; [done|done]|]. split.
      { intros _. split; [done|]. split; [done|]. split; [done|].
        exists rules, rule. done. }
      split; [discriminate|]. split; [discriminate|]. done.
Qed.

End WithTrie.


End HostLookupFacts.

Module Http2MoreFacts.
Import ListFacts Utf8 Http2 Http2Codes Http2Facts.

Lemma validHeaderFieldValue_step c t :
  validHeaderFieldValue (String c t) = true <->
  valueByte_ok c /\ validHeaderFieldValue t = true.
Proof.
  cbn [validHeaderFieldValue]. unfold valueByte_ok.
  destruct (byteVal c <? 32) eqn:H1, (byteVal c =? 9) eqn:H2,
    (byteVal c =? 127) eqn:H3; cbn [andb orb negb]; split; intros H;
    try discriminate; try (split; [split|]); try lia; try tauto;
    destruct H as [[Ha Hb] Hc]; try lia; try assumption.
Qed.

Lemma validHeaderFieldValue_Forall v :
  validHeaderFieldValue v = true <-> Forall valueByte_ok (list_ascii_of_string v).
Proof.
  induction v as [|c t IH]; cbn [list_ascii_of_string].
  - split; [constructor|reflexivity].
  - rewrite validHeaderFieldValue_step, Forall_cons, IH. reflexivity.
Qed.

Lemma nameByte_ok_valueByte_ok c : nameByte_ok c = true -> valueByte_ok c.
Proof.
  destruct c as [[] [] [] [] [] [] [] []]; vm_compute; intros H;
    try discriminate; repeat split; try (left; discriminate); discriminate.
Qed.

Lemma validHeaderFieldValue_app a b :
  validHeaderFieldValue (a +:+ b) = validHeaderFieldValue a && validHeaderFieldValue b.
Proof.
  induction a as [|c t IH]; [reflexivity|].
  change (String c t +:+ b) with (String c (t +:+ b)).
  cbn [validHeaderFieldValue]. rewrite IH.
  destruct (_ || _); reflexivity.
Qed.

(** X9. [validHeaderFieldValue] accepts exactly the strings without a
    control byte other than the tab: every byte is 9 or at least 32, and not
    127.  So every valid header name is also a valid value, the empty string
    and bytes above 127 pass, a concatenation is valid when both parts are,
    and leading or trailing spaces are not rejected. *)
Theorem validHeaderFieldValue_spec (v : string) :
  (validHeaderFieldValue v = true <->
     Forall valueByte_ok (list_ascii_of_string v)) /\
  (validHeaderFieldName v = true -> validHeaderFieldValue v = true) /\
  (forall w, validHeaderFieldValue (v +:+ w)
             = validHeaderFieldValue v && validHeaderFieldValue w) /\
  validHeaderFieldValue (" " +:+ (v +:+ " ")) = validHeaderFieldValue v.
Proof.
  split; [apply validHeaderFieldValue_Forall|]. split; [|split].
  - intros Hn. apply validHeaderFieldName_bytes in Hn as [_ Hall].
    apply validHeaderFieldValue_Forall. rewrite forallb_forall in Hall.
    apply Forall_forall. intros c Hc. apply nameByte_ok_valueByte_ok, Hall.
    by apply list_elem_of_In.
  - intros w. apply validHeaderFieldValue_app.
  - rewrite !validHeaderFieldValue_app.
    change (validHeaderFieldValue " ") with true.
    by rewrite andb_true_r.
Qed.

Section WithLibrary.

Variable http_StatusTextGet : Z -> string.
Variable strconv_Itoa : Z -> string.

Lemma httpCodeStringCommon_lookup (code : Z) :
  httpCodeStringCommon http_StatusTextGet strconv_Itoa !! code =
  if decide (100 <= code <= 999 /\ http_StatusTextGet code <> EmptyString)
  then Some (strconv_Itoa code) else None.
Proof.
  unfold httpCodeStringCommon.
  pose proof (foldl_seq_invariant
    (fun k (m : gmap Z string) => forall code,
       m !! code =
       if decide (100 <= code < Z.of_nat k /\ http_StatusTextGet code <> EmptyString)
       then Some (strconv_Itoa code) else None)
    (init_body http_StatusTextGet strconv_Itoa) 900 100 ∅) as H.
  cbv beta in H.
  assert (Hfin : forall code,
    foldl (init_body http_StatusTextGet strconv_Itoa) ∅ (seq 100 900) !! code =
    if decide (100 <= code < Z.of_nat (100 + 900) /\
               http_StatusTextGet code <> EmptyString)
    then Some (strconv_Itoa code) else None).
  { apply H; clear H.
    - intros c. rewrite lookup_empty. rewrite decide_False by lia. reflexivity.
    - intros k m Hk Hm c. unfold init_body.
      destruct (String.eqb_spec (http_StatusTextGet (Z.of_nat k)) EmptyString)
        as [He|Hne]; cbn [negb].
      + rewrite Hm. destruct (decide (c = Z.of_nat k)) as [->|Hc].
        * rewrite !decide_False by tauto. reflexivity.
        * destruct (decide (100 <= c < Z.of_nat k /\ _)) as [Hd|Hd].
          -- rewrite decide_True by (split; [lia|tauto]). reflexivity.
          -- rewrite decide_False by (intros [? ?]; apply Hd; split; [lia|tauto]).
             reflexivity.
      + destruct (decide (c = Z.of_nat k)) as [->|Hc].
        * rewrite lookup_insert_eq. rewrite decide_True by (split; [lia|exact Hne]).
          reflexivity.
        * rewrite lookup_insert_ne by congruence. rewrite Hm.
          destruct (decide (100 <= c < Z.of_nat k /\ _)) as [Hd|Hd].
          -- rewrite decide_True by (split; [lia|tauto]). reflexivity.
          -- rewrite decide_False by (intros [? ?]; apply Hd; split; [lia|tauto]).
             reflexivity. }
  rewrite Hfin.
  destruct (decide (100 <= code <= 999 /\ _)) as [Hd|Hd].
  - rewrite decide_True by (split; [lia|tauto]). reflexivity.
  - rewrite decide_False by (intros [? ?]; apply Hd; split; [lia|tauto]).
    reflexivity.
Qed.

(** X10. The table that [init] fills holds [strconv.Itoa(i)] for exactly
    the codes from 100 to 999 that have a status text, so [httpCodeString]
    returns [strconv.Itoa(code)] for every code, in the table or not. *)
Theorem httpCodeString_is_Itoa (code : Z) :
  httpCodeString http_StatusTextGet strconv_Itoa code = strconv_Itoa code /\
  (is_Some (httpCodeStringCommon http_StatusTextGet strconv_Itoa !! code) <->
   100 <= code <= 999 /\ http_StatusTextGet code <> EmptyString).
Proof.
  unfold httpCodeString. rewrite httpCodeStringCommon_lookup.
  destruct (decide _) as [Hd|Hd]; (split; [reflexivity|]).
  - split; [intros _; exact Hd|intros _; eexists; reflexivity].
  - split; [intros [x Hx]; discriminate|intros H; exfalso; exact (Hd H)].
Qed.

End WithLibrary.

End Http2MoreFacts.

Module ClusterConfFacts.
Import ListFacts ClusterConfLoad.

(** *** Status codes *)

Lemma checkStatusCode_spec statusCode :
  checkStatusCode statusCode = None <->
  100 <= statusCode <= 599 \/ 0 <= statusCode <= 31.
Proof.
  unfold checkStatusCode.
  destruct (100 <=? statusCode) eqn:H1, (statusCode <=? 599) eqn:H2,
    (0 <=? statusCode) eqn:H3, (statusCode <=? 31) eqn:H4; cbn [andb];
    split; intros H; try reflexivity; try discriminate; lia.
Qed.

(** The bit that [1 << uint(s)] sets, for every shift count below 64 and
    every wildcard code. *)
Lemma wildcard_bit_table :
  forallb (fun u => forallb (fun e =>
      Bool.eqb (Z.land (Z.of_nat e) (int_shl 1 (Z.of_nat u)) =? 0)
               (negb (Z.testbit (Z.of_nat e) (Z.of_nat u))))
    (seq 1 31)) (seq 0 64) = true.
Proof. vm_compute. reflexivity. Qed.

Lemma wildcard_bit e u :
  1 <= e <= 31 -> 0 <= u < 64 ->
  (Z.land e (int_shl 1 u) =? 0) = negb (Z.testbit e u).
Proof.
  intros He Hu. pose proof wildcard_bit_table as H.
  rewrite forallb_forall in H. specialize (H (Z.to_nat u)).
  rewrite forallb_forall in H.
  assert (Hin : In (Z.to_nat u) (seq 0 64)) by (apply in_seq; lia).
  specialize (H Hin (Z.to_nat e)).
  assert (Hin' : In (Z.to_nat e) (seq 1 31)) by (apply in_seq; lia).
  specialize (H Hin'). rewrite !Z2Nat.id in H by lia.
  by apply Bool.eqb_prop in H.
Qed.

Lemma wildcard_high_bit e u : 1 <= e <= 31 -> 5 <= u -> Z.testbit e u = false.
Proof.
  intros He Hu. apply (Z.bits_above_log2 e u); [lia|].
  assert (Z.log2 e < 5); [|lia]. apply Z.log2_lt_pow2; lia.
Qed.

(** The wildcard test of [MatchStatusCode] for a 64-bit [statusCodeGet]. *)
Lemma wildcard_test get expect :
  - 2 ^ 63 <= get < 2 ^ 63 -> 1 <= expect <= 31 ->
  negb (Z.land expect (int_shl 1 (uint_of_int (Z.quot get 100 - 1))) =? 0) = true
  <-> 100 <= get <= 599 /\ Z.testbit expect (get / 100 - 1) = true.
Proof.
  intros Hget He. unfold uint_of_int.
  destruct (decide (100 <= get <= 599)) as [Hin|Hout].
  - assert (Hq : Z.quot get 100 = get / 100) by (apply Z.quot_div_nonneg; lia).
    rewrite Hq.
    assert (Hs : 0 <= get / 100 - 1 < 5) by (Z.div_mod_to_equations; lia).
    rewrite Z.mod_small by lia.
    rewrite (wildcard_bit expect _ He) by lia. rewrite negb_involutive. tauto.
  - split; [|tauto]. intros H. exfalso.
    set (u := (Z.quot get 100 - 1) mod 2 ^ 64) in *.
    assert (Hu : 0 <= u < 2 ^ 64) by (apply Z.mod_pos_bound; lia).
    destruct (Z.ltb_spec u 64) as [Hlt|Hge].
    + rewrite (wildcard_bit expect u He) in H by lia.
      rewrite negb_involutive in H.
      assert (5 <= u).
      { subst u. destruct (Z.le_gt_cases 600 get) as [Hbig|Hsmall].
        - rewrite Z.quot_div_nonneg by lia.
          rewrite Z.mod_small by (Z.div_mod_to_equations; lia).
          Z.div_mod_to_equations; lia.
        - assert (Hq : - 2 ^ 63 <= Z.quot get 100 <= 0).
          { assert (get < 100) by lia. Z.quot_rem_to_equations. lia. }
          exfalso. revert Hlt. Z.div_mod_to_equations. lia. }
      rewrite (wildcard_high_bit expect u He) in H by lia. discriminate.
    + unfold int_shl in H. destruct (Z.ltb_spec u 64); [lia|].
      rewrite Z.land_0_r in H. discriminate.
Qed.

(** X11. [MatchStatusCode] on a 64-bit [statusCodeGet]: an expected code
    from 100 to 599 matches that code only, 0 matches every code, and a
    wildcard from 1 to 31 matches the codes from 100 to 599 whose hundreds
    digit [d] has bit [d - 1] set in the wildcard; a code below 100 or above
    599 matches no wildcard.  The error is nil exactly when the match
    holds. *)
Theorem MatchStatusCode_spec (statusCodeGet statusCodeExpect : Z) :
  - 2 ^ 63 <= statusCodeGet < 2 ^ 63 ->
  ((MatchStatusCode statusCodeGet statusCodeExpect).1 = true <->
     (100 <= statusCodeExpect <= 599 /\ statusCodeGet = statusCodeExpect) \/
     statusCodeExpect = AnyStatusCode \/
     (1 <= statusCodeExpect <= 31 /\ 100 <= statusCodeGet <= 599 /\
      Z.testbit statusCodeExpect (statusCodeGet / 100 - 1) = true)) /\
  ((MatchStatusCode statusCodeGet statusCodeExpect).2 = None <->
     (MatchStatusCode statusCodeGet statusCodeExpect).1 = true).
Proof.
  intros Hget. unfold MatchStatusCode, AnyStatusCode.
  destruct (Z.leb_spec 100 statusCodeExpect) as [H1|H1];
  destruct (Z.leb_spec statusCodeExpect 599) as [H2|H2];
  destruct (Z.eqb_spec statusCodeGet statusCodeExpect) as [H3|H3];
  destruct (Z.eqb_spec statusCodeExpect 0) as [H4|H4];
  destruct (Z.leb_spec 1 statusCodeExpect) as [H5|H5];
  destruct (Z.leb_spec statusCodeExpect 31) as [H6|H6];
  cbn [andb fst snd]; try lia;
  try (split; [split; [intros _; lia|reflexivity]|split; reflexivity]).
  all: try (split; [split; [discriminate|lia]|split; discriminate]).
  all: pose proof (wildcard_test statusCodeGet statusCodeExpect Hget
                     (conj H5 H6)) as Hw;
    destruct (negb _); cbn [fst snd].
  all: try (split; [split; [intros _; right; right; split; [lia|tauto]
                           |reflexivity]|split; reflexivity]).
  all: split; [split; [discriminate|]|split; discriminate].
  all: intros [?|[?|(_ & Ha & Hb)]]; try lia;
    apply Hw; split; assumption.
Qed.

Lemma MatchStatusCode_spec_witness :
  - 2 ^ 63 <= 204 < 2 ^ 63 /\
  (MatchStatusCode 204 6).1 = true /\ (MatchStatusCode 204 6).2 = None.
Proof.
  assert (H : - 2 ^ 63 <= 204 < 2 ^ 63) by lia.
  destruct (MatchStatusCode_spec 204 6 H) as [Hm He].
  assert (Ht : (MatchStatusCode 204 6).1 = true).
  { apply Hm. right. right. split; [lia|]. split; [lia|reflexivity]. }
  split; [exact H|]. split; [exact Ht|]. apply He. exact Ht.
Defined.

(** X12. A status code that [checkStatusCode] rejects matches no
    response: [MatchStatusCode] returns [false] for it, whatever code the
    backend sent. *)
Theorem rejected_status_code_never_matches (statusCodeGet statusCodeExpect : Z) :
  checkStatusCode statusCodeExpect <> None ->
  MatchStatusCode statusCodeGet statusCodeExpect
    = (false, Some (StatusMismatch statusCodeGet statusCodeExpect)).
Proof.
  intros Hbad. rewrite checkStatusCode_spec in Hbad.
  unfold MatchStatusCode, AnyStatusCode.
  destruct (Z.leb_spec 100 statusCodeExpect);
  destruct (Z.leb_spec statusCodeExpect 599);
  destruct (Z.eqb_spec statusCodeExpect 0);
  destruct (Z.leb_spec 1 statusCodeExpect);
  destruct (Z.leb_spec statusCodeExpect 31);
  cbn [andb]; try lia; reflexivity.
Qed.

Lemma rejected_status_code_never_matches_witness :
  checkStatusCode 600 <> None /\
  MatchStatusCode 600 600 = (false, Some (StatusMismatch 600 600)).
Proof.
  assert (H : checkStatusCode 600 <> None) by (vm_compute; discriminate).
  split; [exact H|]. exact (rejected_status_code_never_matches 600 600 H).
Defined.

(** *** The checks of a cluster configuration *)

Lemma BackendBasicCheck_complete c c' :
  BackendBasicCheck c = (c', None) -> BackendBasic_complete c'.
Proof.
  unfold BackendBasicCheck, BackendBasic_complete.
  destruct c as [[a|] [b|] [m|] [r|]]; cbn; intros [= <-]; cbn;
    repeat split; eexists; reflexivity.
Qed.

Lemma BackendBasicCheck_fix c :
  BackendBasic_complete c <-> BackendBasicCheck c = (c, None).
Proof.
  split; [|apply BackendBasicCheck_complete].
  unfold BackendBasicCheck, BackendBasic_complete.
  destruct c as [[a|] [b|] [m|] [r|]]; cbn;
    intros ([? ?] & [? ?] & [? ?] & [? ?]); try discriminate; reflexivity.
Qed.

Lemma ClusterBasicConfCheck_complete c c' :
  ClusterBasicConfCheck c = (c', None) -> ClusterBasicConf_complete c'.
Proof.
  unfold ClusterBasicConfCheck, ClusterBasicConf_complete.
  destruct c as [[a|] [b|] [m|] w f r x]; cbn; intros [= <-]; cbn;
    repeat split; eexists; reflexivity.
Qed.

Lemma ClusterBasicConfCheck_fix c :
  ClusterBasicConf_complete c <-> ClusterBasicConfCheck c = (c, None).
Proof.
  split; [|apply ClusterBasicConfCheck_complete].
  unfold ClusterBasicConfCheck, ClusterBasicConf_complete.
  destruct c as [[a|] [b|] [m|] [w|] [f|] [r|] [x|]]; cbn;
    intros ([? ?] & [? ?] & [? ?] & [? ?] & [? ?] & [? ?] & [? ?]);
    try discriminate; reflexivity.
Qed.

Lemma BackendCheckCheck_tail_complete c c' :
  BackendCheckCheck_tail c = (c', None) ->
  Schem c' = Schem c /\ Uri c' = Uri c /\ StatusCode c' = StatusCode c /\
  is_Some (FailNum c') /\ (exists n, SuccNum c' = Some n /\ 1 <= n) /\
  is_Some (CheckInterval c').
Proof.
  unfold BackendCheckCheck_tail.
  destruct c as [s u h st [f|] [n|] t [i|]]; cbn; try discriminate.
  - destruct (Z.ltb_spec n 1); [discriminate|]. intros [= <-]. cbn.
    repeat split; try (eexists; reflexivity). exists n. split; [reflexivity|lia].
  - destruct (Z.ltb_spec n 1); discriminate.
  - intros [= <-]. cbn.
    repeat split; try (eexists; reflexivity). exists 1. split; [reflexivity|lia].
Qed.

Lemma BackendCheckCheck_tail_fix c :
  is_Some (FailNum c) -> (exists n, SuccNum c = Some n /\ 1 <= n) ->
  is_Some (CheckInterval c) -> BackendCheckCheck_tail c = (c, None).
Proof.
  unfold BackendCheckCheck_tail.
  destruct c as [s u h st [f|] [n|] t [i|]]; cbn;
    intros [? ?] (m & Hm & Hle) [? ?]; try discriminate.
  injection Hm as ->. destruct (Z.ltb_spec m 1); [lia|reflexivity].
Qed.

Lemma BackendCheckCheck_complete c c' :
  BackendCheckCheck c = (c', None) -> BackendCheck_complete c'.
Proof.
  unfold BackendCheckCheck, BackendCheck_complete.
  destruct (Schem c) as [s|] eqn:Hs.
  - destruct (String.eqb_spec s "http") as [->|Hh]; cbn [negb andb].
    + cbn [default from_option id String.eqb Ascii.eqb Bool.eqb]. rewrite Hs. cbn.
      unfold BackendCheckCheck_http.
      destruct (Uri c) as [uri|] eqn:Hu; [|discriminate].
      destruct (hasSlashPrefix uri) eqn:Hp; cbn [negb]; [|discriminate].
      destruct (StatusCode c) as [code|] eqn:Hc.
      * rewrite Hc. cbn [default from_option id].
        destruct (checkStatusCode code) eqn:Hk; [discriminate|].
        intros Ht. apply BackendCheckCheck_tail_complete in Ht
          as (-> & -> & -> & Hf & Hn & Hi).
        split; [left|by repeat split].
        split; [exact Hs|]. split; [by exists uri|by exists code].
      * cbn [setStatusCode StatusCode default from_option id].
        change (checkStatusCode 200) with (@None ConfError).
        intros Ht. apply BackendCheckCheck_tail_complete in Ht
          as (H1 & H2 & H3 & Hf & Hn & Hi). cbn in H1, H2, H3.
        split; [left|by repeat split].
        split; [congruence|]. split; [exists uri; split; [congruence|done]|].
        exists 200. split; [congruence|reflexivity].
    + destruct (String.eqb_spec s "tcp") as [->|Ht]; cbn [negb andb];
        [|discriminate].
      rewrite Hs. cbn [default from_option id]. change (String.eqb "tcp" "http") with false.
      cbv iota. intros Ht. apply BackendCheckCheck_tail_complete in Ht
        as (-> & _ & _ & Hf & Hn & Hi).
      split; [right; exact Hs|by repeat split].
  - cbn [setSchem Schem default from_option id]. change (String.eqb "http" "http") with true.
    cbv iota. unfold BackendCheckCheck_http. cbn [setSchem Uri StatusCode].
    destruct (Uri c) as [uri|] eqn:Hu; [|discriminate].
    destruct (hasSlashPrefix uri) eqn:Hp; cbn [negb]; [|discriminate].
    destruct (StatusCode c) as [code|] eqn:Hc.
    + cbn [setSchem StatusCode default from_option id]. rewrite Hc. cbn [default from_option id].
      destruct (checkStatusCode code) eqn:Hk; [discriminate|].
      intros Ht. apply BackendCheckCheck_tail_complete in Ht
        as (H1 & H2 & H3 & Hf & Hn & Hi). cbn in H1, H2, H3.
      split; [left|by repeat split].
      split; [congruence|]. split; [exists uri; split; [congruence|done]|].
      exists code. split; [congruence|done].
    + cbn [setStatusCode StatusCode default from_option id].
      change (checkStatusCode 200) with (@None ConfError).
      intros Ht. apply BackendCheckCheck_tail_complete in Ht
        as (H1 & H2 & H3 & Hf & Hn & Hi). cbn in H1, H2, H3.
      split; [left|by repeat split].
      split; [congruence|]. split; [exists uri; split; [congruence|done]|].
      exists 200. split; [congruence|reflexivity].
Qed.

Lemma BackendCheckCheck_fix c :
  BackendCheck_complete c <-> BackendCheckCheck c = (c, None).
Proof.
  split; [|apply BackendCheckCheck_complete].
  unfold BackendCheck_complete. intros (Hschem & Hf & Hn & Hi).
  pose proof (BackendCheckCheck_tail_fix c Hf Hn Hi) as Htail.
  destruct c as [s u h st f n t i].
  cbn [Schem Uri StatusCode FailNum SuccNum CheckInterval] in *.
  destruct Hschem as [(-> & (uri & -> & Hp) & (code & -> & Hk))| ->];
    unfold BackendCheckCheck, BackendCheckCheck_http;
    cbn -[BackendCheckCheck_tail checkStatusCode hasSlashPrefix].
  - rewrite Hp. cbn [negb]. rewrite Hk. exact Htail.
  - exact Htail.
Qed.

Lemma length_eqb_0 (x : string) : (String.length x =? 0)%nat = false <-> x <> EmptyString.
Proof. destruct x; cbn; split; intros H; congruence. Qed.

Section WithTrimSpace.

Variable strings_TrimSpace : string -> string.

Local Abbreviation GetCookieKey := (GetCookieKey strings_TrimSpace).
Local Abbreviation HashConfCheck := (HashConfCheck strings_TrimSpace).
Local Abbreviation GslbBasicConfCheck := (GslbBasicConfCheck strings_TrimSpace).
Local Abbreviation ClusterConfCheck := (ClusterConfCheck strings_TrimSpace).
Local Abbreviation HashConf_complete := (HashConf_complete strings_TrimSpace).
Local Abbreviation GslbBasicConf_complete := (GslbBasicConf_complete strings_TrimSpace).
Local Abbreviation ClusterConf_complete := (ClusterConf_complete strings_TrimSpace).

(** The test of [HashConfCheck] on the header. *)
Lemma hashHeader_test header :
  (if (String.length header =? 0)%nat then Some NoHashHeader
   else let '(cookieKey, ok) := GetCookieKey header in
        if ok && (String.length cookieKey =? 0)%nat
        then Some InvalidHashHeader else None) = None <->
  header <> EmptyString /\
  ((GetCookieKey header).2 = true -> (GetCookieKey header).1 <> EmptyString).
Proof.
  destruct (String.length header =? 0)%nat eqn:Hl.
  - split; [discriminate|]. intros [Hne _]. apply length_eqb_0 in Hne. congruence.
  - apply length_eqb_0 in Hl. destruct (GetCookieKey header) as [key ok].
    cbn [fst snd]. destruct ok; cbn [andb].
    + destruct (String.length key =? 0)%nat eqn:Hk.
      * split; [discriminate|]. intros [_ Hkey].
        specialize (Hkey eq_refl). apply length_eqb_0 in Hkey. congruence.
      * apply length_eqb_0 in Hk. split; [by intros _|reflexivity].
    + split; [intros _; split; [exact Hl|discriminate]|reflexivity].
Qed.

Lemma HashConfCheck_complete h h' :
  HashConfCheck h = (h', None) -> HashConf_complete h'.
Proof.
  unfold ClusterConfLoad.HashConfCheck, ClusterConfLoad.HashConf_complete.
  destruct h as [[s|] hh ss]; cbn [HashStrategy HashHeader SessionSticky];
    [|discriminate].
  unfold ClientIdOnly, ClientIpOnly, ClientIdPreferred.
  destruct (Z.eqb_spec s 0) as [->|H0]; [|destruct (Z.eqb_spec s 1) as [->|H1];
    [|destruct (Z.eqb_spec s 2) as [->|H2]]]; cbn [negb andb orb Z.eqb];
    try discriminate.
  - destruct hh as [header|]; [|discriminate].
    destruct (hashHeader_test header) as [Ht _].
    destruct (if (String.length header =? 0)%nat then _ else _); [discriminate|].
    specialize (Ht eq_refl). destruct ss as [b|]; intros [= <-];
      cbn [HashStrategy HashHeader SessionSticky]; exists 0;
      (split; [reflexivity|]; split; [by left|]; split;
       [intros _; by exists header|by eexists]).
  - destruct ss as [b|]; intros [= <-];
      cbn [HashStrategy HashHeader SessionSticky]; exists 1;
      (split; [reflexivity|]; split; [right; by left|]; split;
       [intros Hne; by destruct Hne|by eexists]).
  - destruct hh as [header|]; [|discriminate].
    destruct (hashHeader_test header) as [Ht _].
    destruct (if (String.length header =? 0)%nat then _ else _); [discriminate|].
    specialize (Ht eq_refl). destruct ss as [b|]; intros [= <-];
      cbn [HashStrategy HashHeader SessionSticky]; exists 2;
      (split; [reflexivity|]; split; [right; by right|]; split;
       [intros _; by exists header|by eexists]).
Qed.

Lemma HashConfCheck_fix h :
  HashConf_complete h <-> HashConfCheck h = (h, None).
Proof.
  split; [|apply HashConfCheck_complete].
  unfold ClusterConfLoad.HashConfCheck, ClusterConfLoad.HashConf_complete.
  unfold ClientIdOnly, ClientIpOnly, ClientIdPreferred.
  destruct h as [hs hh ss]; cbn [HashStrategy HashHeader SessionSticky].
  intros (s & -> & Hs & Hh & [b ->]).
  destruct Hs as [-> | [-> | ->]]; cbn [negb andb orb Z.eqb]; [|reflexivity|].
  - destruct Hh as (header & -> & Hne & Hkey); [lia|].
    destruct (hashHeader_test header) as [_ Ht].
    rewrite Ht by (split; assumption). reflexivity.
  - destruct Hh as (header & -> & Hne & Hkey); [lia|].
    destruct (hashHeader_test header) as [_ Ht].
    rewrite Ht by (split; assumption). reflexivity.
Qed.

Lemma GslbBasicConfCheck_complete g g' :
  GslbBasicConfCheck g = (g', None) -> GslbBasicConf_complete g'.
Proof.
  unfold ClusterConfLoad.GslbBasicConfCheck, ClusterConfLoad.GslbBasicConf_complete.
  destruct g as [[cr|] [rm|] hc bm];
    cbn [CrossRetry RetryMax GslbHashConf BalanceMode]; try discriminate.
  destruct (HashConfCheck match hc with Some h => h | None => _ end)
    as [h' [e|]] eqn:Hh; [discriminate|].
  apply HashConfCheck_complete in Hh.
  cbn [setHashConf setBalanceMode CrossRetry RetryMax GslbHashConf BalanceMode].
  set (mode := strings_ToUpper match bm with Some m => m | None => _ end).
  destruct (String.eqb_spec mode BalanceModeWrr) as [Hw|_].
  - intros [= <-]. cbn [CrossRetry RetryMax GslbHashConf BalanceMode].
    split; [by eexists|]. split; [by eexists|]. split; [by exists h'|].
    left. by rewrite Hw.
  - destruct (String.eqb_spec mode BalanceModeWlc) as [Hw|_]; [|discriminate].
    intros [= <-]. cbn [CrossRetry RetryMax GslbHashConf BalanceMode].
    split; [by eexists|]. split; [by eexists|]. split; [by exists h'|].
    right. by rewrite Hw.
Qed.

Lemma GslbBasicConfCheck_fix g :
  GslbBasicConf_complete g <-> GslbBasicConfCheck g = (g, None).
Proof.
  split; [|apply GslbBasicConfCheck_complete].
  unfold ClusterConfLoad.GslbBasicConfCheck, ClusterConfLoad.GslbBasicConf_complete.
  destruct g as [cr rm hc bm];
    cbn [CrossRetry RetryMax GslbHashConf BalanceMode].
  intros ([c ->] & [r ->] & (h & -> & Hh) & Hmode).
  apply HashConfCheck_fix in Hh. rewrite Hh.
  cbn [setHashConf setBalanceMode CrossRetry RetryMax GslbHashConf BalanceMode].
  destruct Hmode as [-> | ->]; reflexivity.
Qed.

Lemma ClusterConfCheck_complete c c' :
  ClusterConfCheck c = (c', None) -> ClusterConf_complete c'.
Proof.
  unfold ClusterConfLoad.ClusterConfCheck, ClusterConfLoad.ClusterConf_complete.
  destruct c as [[b|] [k|] [g|] [cb|]];
    cbn [BackendConf CheckConf GslbBasic ClusterBasic]; try discriminate;
    destruct (BackendBasicCheck b) as [b' [e|]] eqn:Hb; try discriminate;
    cbn [BackendConf CheckConf GslbBasic ClusterBasic]; try discriminate;
    destruct (BackendCheckCheck k) as [k' [e|]] eqn:Hk; try discriminate;
    cbn [BackendConf CheckConf GslbBasic ClusterBasic]; try discriminate;
    destruct (GslbBasicConfCheck g) as [g' [e|]] eqn:Hg; try discriminate;
    cbn [BackendConf CheckConf GslbBasic ClusterBasic]; try discriminate.
  destruct (ClusterBasicConfCheck cb) as [cb' [e|]] eqn:Hcb; [discriminate|].
  intros [= <-]. cbn [BackendConf CheckConf GslbBasic ClusterBasic].
  split; [exists b'; split; [reflexivity|by eapply BackendBasicCheck_complete]|].
  split; [exists k'; split; [reflexivity|by eapply BackendCheckCheck_complete]|].
  split; [exists g'; split; [reflexivity|by eapply GslbBasicConfCheck_complete]|].
  exists cb'; split; [reflexivity|by eapply ClusterBasicConfCheck_complete].
Qed.

Lemma ClusterConfCheck_fix conf :
  ClusterConf_complete conf -> ClusterConfCheck conf = (conf, None).
Proof.
  unfold ClusterConfLoad.ClusterConfCheck, ClusterConfLoad.ClusterConf_complete.
  destruct conf as [b k g cb]; cbn [BackendConf CheckConf GslbBasic ClusterBasic].
  intros ((b' & -> & Hb) & (k' & -> & Hk) & (g' & -> & Hg) & (cb' & -> & Hcb)).
  apply BackendBasicCheck_fix in Hb. apply BackendCheckCheck_fix in Hk.
  apply GslbBasicConfCheck_fix in Hg. apply ClusterBasicConfCheck_fix in Hcb.
  rewrite Hb. cbn [BackendConf CheckConf GslbBasic ClusterBasic].
  rewrite Hk. cbn [BackendConf CheckConf GslbBasic ClusterBasic].
  rewrite Hg. cbn [BackendConf CheckConf GslbBasic ClusterBasic].
  rewrite Hcb. reflexivity.
Qed.

(** X13. [ClusterConfCheck] returns nil and changes nothing exactly on the
    complete configurations: the four parts are present; the time-outs, the
    retry counts, [FailNum] and [CheckInterval] are given; every field that
    has a default is set; the scheme is [http] with a URI that starts with a
    slash and a status code that [checkStatusCode] accepts, or [tcp];
    [SuccNum] is at least 1; the hash strategy is one of the three, with a
    usable header unless it is [ClientIpOnly]; the balance mode is [WRR] or
    [WLC]. *)
Theorem ClusterConfCheck_unchanged_iff_complete (conf : ClusterConf) :
  ClusterConfCheck conf = (conf, None) <-> ClusterConf_complete conf.
Proof. split; [apply ClusterConfCheck_complete|apply ClusterConfCheck_fix]. Qed.

(** X14. When [ClusterConfCheck] returns nil, the configuration it leaves
    is complete, and checking it again returns nil and changes nothing. *)
Theorem ClusterConfCheck_success (conf : ClusterConf) :
  (ClusterConfCheck conf).2 = None ->
  ClusterConf_complete (ClusterConfCheck conf).1 /\
  ClusterConfCheck (ClusterConfCheck conf).1 = ((ClusterConfCheck conf).1, None).
Proof.
  destruct (ClusterConfCheck conf) as [conf' e] eqn:Hc. cbn [fst snd].
  intros ->. pose proof (ClusterConfCheck_complete conf conf' Hc) as Hcomplete.
  split; [exact Hcomplete|]. by apply ClusterConfCheck_fix.
Qed.

End WithTrimSpace.

Lemma ClusterConfCheck_success_witness :
  (ClusterConfLoad.ClusterConfCheck id minimalConf).2 = None /\
  ClusterConfLoad.ClusterConf_complete id
    (ClusterConfLoad.ClusterConfCheck id minimalConf).1 /\
  ClusterConfLoad.ClusterConfCheck id
    (ClusterConfLoad.ClusterConfCheck id minimalConf).1
  = ((ClusterConfLoad.ClusterConfCheck id minimalConf).1, None).
Proof.
  assert (H : (ClusterConfLoad.ClusterConfCheck id minimalConf).2 = None)
    by reflexivity.
  split; [exact H|]. exact (ClusterConfCheck_success id minimalConf H).
Defined.

(** *** What a successful check has written *)

Lemma BackendBasicCheck_output b b' :
  BackendBasicCheck b = (b', None) -> b' = BackendBasic_filled b.
Proof.
  unfold BackendBasicCheck, BackendBasic_filled.
  destruct b as [[a|] [t|] [m|] [r|]]; cbn; intros [= <-]; reflexivity.
Qed.

Lemma ClusterBasicConfCheck_output b b' :
  ClusterBasicConfCheck b = (b', None) -> b' = ClusterBasicConf_filled b.
Proof.
  unfold ClusterBasicConfCheck, ClusterBasicConf_filled.
  destruct b as [[a|] [t|] [m|] w f r x]; cbn; intros [= <-]; reflexivity.
Qed.

Lemma BackendCheckCheck_tail_output c c' :
  BackendCheckCheck_tail c = (c', None) -> c' = setSuccNum c (default 1 (SuccNum c)).
Proof.
  unfold BackendCheckCheck_tail.
  destruct c as [s u h st [f|] [n|] t [i|]]; cbn; try discriminate.
  - destruct (Z.ltb_spec n 1); [discriminate|]. intros [= <-]. reflexivity.
  - destruct (Z.ltb_spec n 1); discriminate.
  - intros [= <-]. reflexivity.
Qed.

Lemma BackendCheckCheck_output k k' :
  BackendCheckCheck k = (k', None) -> k' = BackendCheck_filled k.
Proof.
  unfold BackendCheckCheck, BackendCheck_filled, BackendCheckCheck_http.
  destruct k as [[s|] u h st f n t i];
    cbn [Schem Uri StatusCode default from_option id setSchem].
  - destruct (String.eqb_spec s "http") as [->|Hh]; cbn [negb andb].
    + change (String.eqb "http" "http") with true. cbv iota.
      destruct u as [uri|]; [|discriminate].
      destruct (hasSlashPrefix uri); cbn [negb]; [|discriminate].
      destruct st as [code|]; cbn [StatusCode setStatusCode default from_option id].
      * destruct (checkStatusCode code); [discriminate|].
        intros Ht. by apply BackendCheckCheck_tail_output in Ht as ->.
      * change (checkStatusCode 200) with (@None ConfError). cbv iota.
        intros Ht. by apply BackendCheckCheck_tail_output in Ht as ->.
    + destruct (String.eqb_spec s "tcp") as [->|Ht]; cbn [negb andb];
        [|discriminate].
      change (String.eqb "tcp" "http") with false. cbv iota.
      intros Ht. by apply BackendCheckCheck_tail_output in Ht as ->.
  - change (String.eqb "http" "http") with true. cbv iota.
    cbn [negb andb]. cbv iota.
    cbn [Schem Uri StatusCode default from_option id setSchem].
    destruct u as [uri|]; [|discriminate].
    destruct (hasSlashPrefix uri); cbn [negb]; [|discriminate].
    destruct st as [code|];
      cbn [Schem Uri StatusCode setStatusCode setSchem default from_option id].
    + destruct (checkStatusCode code); [discriminate|].
      intros Ht. by apply BackendCheckCheck_tail_output in Ht as ->.
    + change (checkStatusCode 200) with (@None ConfError). cbv iota.
      intros Ht. by apply BackendCheckCheck_tail_output in Ht as ->.
Qed.

Section WithTrimSpace2.

Variable strings_TrimSpace : string -> string.

Lemma HashConfCheck_output h h' :
  HashConfCheck strings_TrimSpace h = (h', None) -> h' = HashConf_filled (Some h).
Proof.
  unfold HashConfCheck, HashConf_filled.
  destruct h as [[s|] hh ss]; cbn [HashStrategy HashHeader SessionSticky];
    [|discriminate].
  destruct (negb _ && negb _ && negb _); [discriminate|].
  destruct (if _ || _ then _ else _); [discriminate|].
  destruct ss; intros [= <-]; reflexivity.
Qed.

Lemma GslbBasicConfCheck_output g g' :
  GslbBasicConfCheck strings_TrimSpace g = (g', None) -> g' = GslbBasicConf_filled g.
Proof.
  unfold GslbBasicConfCheck, GslbBasicConf_filled.
  destruct g as [[cr|] [rm|] hc bm];
    cbn [CrossRetry RetryMax GslbHashConf BalanceMode]; try discriminate.
  destruct (HashConfCheck strings_TrimSpace match hc with Some h => h | None => _ end)
    as [h' [e|]] eqn:Hh; [discriminate|].
  apply HashConfCheck_output in Hh.
  assert (Hh' : h' = HashConf_filled hc).
  { destruct hc; [exact Hh|]. rewrite Hh. reflexivity. }
  cbn [setHashConf setBalanceMode CrossRetry RetryMax GslbHashConf BalanceMode].
  assert (Hm : match bm with Some m => m | None => BalanceModeWrr end
               = default BalanceModeWrr bm) by (destruct bm; reflexivity).
  rewrite Hm.
  destruct (String.eqb _ BalanceModeWrr); [intros [= <-]; by rewrite Hh'|].
  destruct (String.eqb _ BalanceModeWlc); [intros [= <-]; by rewrite Hh'|].
  discriminate.
Qed.

(** X15. When [ClusterConfCheck] returns nil, it has changed the
    configuration in this way only: a field that was given keeps its value,
    but for the balance mode, which is put in upper case; a field that was
    missing takes its default (2 idle connections, retry level
    [RetryConnect], scheme [http], status code 200 under [http], [SuccNum] 1,
    hash strategy [ClientIpOnly] without sticky sessions, balance mode [WRR],
    a write buffer of 512 bytes, flush intervals 0 and 20, no cancel on
    close).  [Host] and [CheckTimeout] are never set. *)
Theorem ClusterConfCheck_fills_defaults (conf conf' : ClusterConf) :
  ClusterConfCheck strings_TrimSpace conf = (conf', None) ->
  exists b k g cb,
    conf = mkClusterConf (Some b) (Some k) (Some g) (Some cb) /\
    conf' = mkClusterConf (Some (BackendBasic_filled b)) (Some (BackendCheck_filled k))
                          (Some (GslbBasicConf_filled g))
                          (Some (ClusterBasicConf_filled cb)).
Proof.
  unfold ClusterConfCheck.
  destruct conf as [[b|] [k|] [g|] [cb|]];
    cbn [BackendConf CheckConf GslbBasic ClusterBasic]; try discriminate;
    destruct (BackendBasicCheck b) as [b' [e|]] eqn:Hb; try discriminate;
    cbn [BackendConf CheckConf GslbBasic ClusterBasic]; try discriminate;
    destruct (BackendCheckCheck k) as [k' [e|]] eqn:Hk; try discriminate;
    cbn [BackendConf CheckConf GslbBasic ClusterBasic]; try discriminate;
    destruct (GslbBasicConfCheck strings_TrimSpace g) as [g' [e|]] eqn:Hg;
    try discriminate;
    cbn [BackendConf CheckConf GslbBasic ClusterBasic]; try discriminate.
  destruct (ClusterBasicConfCheck cb) as [cb' [e|]] eqn:Hcb; [discriminate|].
  intros [= <-]. exists b, k, g, cb. split; [reflexivity|].
  apply BackendBasicCheck_output in Hb. apply BackendCheckCheck_output in Hk.
  apply GslbBasicConfCheck_output in Hg. apply ClusterBasicConfCheck_output in Hcb.
  by subst.
Qed.

End WithTrimSpace2.

Lemma ClusterConfCheck_fills_defaults_witness :
  ClusterConfCheck id minimalConf =
    ({| BackendConf := Some (mkBackendBasic (Some 2000) (Some 50000) (Some 2) (Some 0));
        CheckConf := Some (mkBackendCheck (Some "http"%string) (Some "/health"%string)
                             None (Some 200) (Some 5) (Some 1) None (Some 1000));
        GslbBasic := Some (mkGslbBasicConf (Some 0) (Some 2)
                             (Some (mkHashConf (Some 1) None (Some false)))
                             (Some "WLC"%string));
        ClusterBasic := Some (mkClusterBasicConf (Some 30000) (Some 60000) (Some 60000)
                                (Some 512) (Some 0) (Some 20) (Some false)) |},
     None) /\
  exists b k g cb,
    minimalConf = mkClusterConf (Some b) (Some k) (Some g) (Some cb) /\
    (ClusterConfCheck id minimalConf).1 =
      mkClusterConf (Some (BackendBasic_filled b)) (Some (BackendCheck_filled k))
                    (Some (GslbBasicConf_filled g))
                    (Some (ClusterBasicConf_filled cb)).
Proof.
  split; [reflexivity|].
  exact (ClusterConfCheck_fills_defaults id minimalConf
           (ClusterConfCheck id minimalConf).1 eq_refl).
Defined.

(** *** All the clusters *)

Section WithTrimSpace3.

Variable strings_TrimSpace : string -> string.

Local Abbreviation check := (ClusterConfCheck strings_TrimSpace).

Lemma ClusterToConfCheck_loop_spec entries : forall conf,
  NoDup entries.*1 ->
  let r := ClusterToConfCheck_loop strings_TrimSpace entries conf in
  (r.2 = None <-> Forall (fun nc => (check nc.2).2 = None) entries) /\
  (r.2 = None -> forall k,
     r.1 !! k = match (list_to_map entries : gmap string ClusterConf) !! k with
                | Some c => Some (check c).1
                | None => conf !! k
                end) /\
  (forall e, r.2 = Some e ->
     exists name c e', e = InCluster name e' /\ (name, c) ∈ entries /\
                       (check c).2 = Some e').
Proof.
  induction entries as [|[name c] rest IH]; intros conf Hnd r; subst r.
  - cbn [ClusterToConfCheck_loop fst snd]. split; [split; [constructor|reflexivity]|].
    split; [intros _ k; cbn [list_to_map foldr]; rewrite lookup_empty; reflexivity|].
    discriminate.
  - cbn [fmap list_fmap fst] in Hnd. apply NoDup_cons in Hnd as [Hname Hnd].
    cbn [ClusterToConfCheck_loop].
    destruct (check c) as [c' err] eqn:Hc. destruct err as [e|].
    + cbn [fst snd]. split.
      { split; [discriminate|]. intros Hall. apply Forall_cons in Hall as [Hh _].
        cbn [snd] in Hh. rewrite Hc in Hh. cbn [snd] in Hh. discriminate. }
      split; [discriminate|]. intros e0 [= <-]. exists name, c, e.
      split; [reflexivity|]. split; [apply list_elem_of_here|].
      rewrite Hc. reflexivity.
    + specialize (IH (<[name := c']> conf) Hnd). cbv zeta in IH.
      destruct IH as (IH1 & IH2 & IH3). split; [|split].
      * rewrite IH1, Forall_cons. cbn [snd]. rewrite Hc. cbn [snd]. tauto.
      * intros Hok k. rewrite (IH2 Hok k). cbn [list_to_map foldr fst snd uncurry].
        destruct (decide (k = name)) as [->|Hne].
        -- rewrite (lookup_insert_eq (list_to_map rest) name c).
           rewrite (not_elem_of_list_to_map_1 _ _ Hname).
           rewrite (lookup_insert_eq conf name c'). rewrite Hc. reflexivity.
        -- rewrite (lookup_insert_ne (list_to_map rest) name k c) by congruence.
           destruct (list_to_map rest !! k); [reflexivity|].
           rewrite (lookup_insert_ne conf name k c') by congruence. reflexivity.
      * intros e He. destruct (IH3 e He) as (n0 & c0 & e' & -> & Hin & Hn0).
        exists n0, c0, e'. split; [reflexivity|].
        split; [by apply list_elem_of_further|exact Hn0].
Qed.

(** X16. [ClusterToConfCheck] returns nil exactly when [ClusterConfCheck]
    returns nil on every cluster of the map, and then every cluster is left
    as its own check leaves it; an error names a cluster of the map and
    carries the error of its check.  [BfeClusterConfCheck] returns nil
    exactly when the configuration is not nil, has a version and a
    cluster map, and every cluster passes. *)
Theorem ClusterToConfCheck_all_clusters (conf : gmap string ClusterConf) :
  let r := ClusterToConfCheck strings_TrimSpace conf in
  (r.2 = None <->
     forall name c, conf !! name = Some c -> (check c).2 = None) /\
  (r.2 = None -> r.1 = (fun c => (check c).1) <$> conf) /\
  (forall e, r.2 = Some e ->
     exists name c e', e = InCluster name e' /\ conf !! name = Some c /\
                       (check c).2 = Some e') /\
  (forall bfe,
     (BfeClusterConfCheck strings_TrimSpace bfe).2 = None <->
     exists c version config,
       bfe = Some c /\ Version c = Some version /\ Config c = Some config /\
       forall name cc, config !! name = Some cc -> (check cc).2 = None).
Proof.
  assert (Hall : forall conf : gmap string ClusterConf,
    let r := ClusterToConfCheck strings_TrimSpace conf in
    (r.2 = None <->
       forall name c, conf !! name = Some c -> (check c).2 = None) /\
    (r.2 = None -> r.1 = (fun c => (check c).1) <$> conf) /\
    (forall e, r.2 = Some e ->
       exists name c e', e = InCluster name e' /\ conf !! name = Some c /\
                         (check c).2 = Some e')).
  { clear conf. intros conf r. subst r. unfold ClusterToConfCheck.
    destruct (ClusterToConfCheck_loop_spec (map_to_list conf) conf
                (NoDup_fst_map_to_list conf)) as (H1 & H2 & H3).
    split; [|split].
    - rewrite H1, Forall_forall. split.
      + intros H name c Hl. apply (H (name, c)). by apply elem_of_map_to_list.
      + intros H [name c] Hin. apply (H name c). by apply elem_of_map_to_list.
    - intros Hok. apply map_eq. intros k. rewrite (H2 Hok k).
      rewrite list_to_map_to_list, lookup_fmap.
      destruct (conf !! k); reflexivity.
    - intros e He. destruct (H3 e He) as (name & c & e' & -> & Hin & Hc).
      exists name, c, e'. split; [reflexivity|].
      split; [by apply elem_of_map_to_list|exact Hc]. }
  intros r. destruct (Hall conf) as (H1 & H2 & H3).
  split; [exact H1|]. split; [exact H2|]. split; [exact H3|].
  intros bfe. unfold BfeClusterConfCheck.
  destruct bfe as [[v cfg]|]; cbn [Version Config].
  2:{ split; [discriminate|]. intros (c & ? & ? & [=] & _). }
  destruct v as [version|].
  2:{ cbn [snd]. split; [discriminate|].
      intros (c & ? & ? & [= <-] & [=] & _). }
  destruct cfg as [config|].
  2:{ cbn [snd]. split; [discriminate|].
      intros (c & ? & ? & [= <-] & _ & [=] & _). }
  destruct (Hall config) as (Hc1 & _ & _).
  destruct (ClusterToConfCheck strings_TrimSpace config) as [config' [e|]];
    cbn [fst snd] in *.
  - split; [discriminate|].
    intros (c & ? & config0 & [= <-] & _ & [= <-] & Hok).
    apply Hc1 in Hok. discriminate.
  - split; [|reflexivity]. intros _. eexists _, version, config.
    split; [reflexivity|]. split; [reflexivity|]. split; [reflexivity|].
    by apply Hc1.
Qed.

End WithTrimSpace3.

(** *** The cookie key of a hash header *)

Lemma strings_Index_no_sep (a : string) sep :
  sep ∉ list_ascii_of_string a -> strings_Index a sep = -1.
Proof.
  induction a as [|c a IH]; cbn [strings_Index list_ascii_of_string]; [reflexivity|].
  intros Hn. apply not_elem_of_cons in Hn as [Hc Ha].
  destruct (Ascii.eqb_spec c sep) as [->|_]; [done|]. by rewrite IH.
Qed.

Lemma strings_Index_first (a b : string) sep :
  sep ∉ list_ascii_of_string a ->
  strings_Index (a +:+ String sep b) sep = Z.of_nat (String.length a) /\
  string_from (S (String.length a)) (a +:+ String sep b) = b.
Proof.
  induction a as [|c a IH]; intros Hn.
  - change (EmptyString +:+ String sep b) with (String sep b).
    cbn [strings_Index String.length string_from]. rewrite Ascii.eqb_refl.
    split; [reflexivity|]. by destruct b.
  - cbn [list_ascii_of_string] in Hn. apply not_elem_of_cons in Hn as [Hc Ha].
    destruct (IH Ha) as [Hi Hf].
    change (String c a +:+ String sep b) with (String c (a +:+ String sep b)).
    cbn [strings_Index String.length string_from].
    destruct (Ascii.eqb_spec c sep) as [->|_]; [done|].
    rewrite Hi. split; [|exact Hf].
    destruct (Z.ltb_spec (Z.of_nat (String.length a)) 0); lia.
Qed.

(** X17. [GetCookieKey] splits a header at its first colon: for a header
    [name:rest] whose name holds no colon it returns [rest] without the
    surrounding space and [true], whatever colons [rest] holds; for a header
    without a colon it returns the empty string and [false]. *)
Theorem GetCookieKey_first_colon (strings_TrimSpace : string -> string)
    (name rest : string) :
  ":"%char ∉ list_ascii_of_string name ->
  GetCookieKey strings_TrimSpace (name +:+ (":" +:+ rest))
    = (strings_TrimSpace rest, true) /\
  GetCookieKey strings_TrimSpace name = (EmptyString, false).
Proof.
  intros Hn. unfold GetCookieKey. split.
  - change (":" +:+ rest)%string with (String ":" rest).
    destruct (strings_Index_first name rest ":" Hn) as [Hi Hf]. rewrite Hi.
    destruct (Z.ltb_spec (Z.of_nat (String.length name)) 0); [lia|].
    replace (Z.to_nat (Z.of_nat (String.length name) + 1))
      with (S (String.length name)) by lia.
    by rewrite Hf.
  - by rewrite (strings_Index_no_sep name ":" Hn).
Qed.

Lemma GetCookieKey_first_colon_witness :
  (":"%char ∉ list_ascii_of_string "Cookie") /\
  GetCookieKey id "Cookie:BAIDUID" = ("BAIDUID"%string, true) /\
  GetCookieKey id "Cookie" = (EmptyString, false).
Proof.
  assert (Hn : ":"%char ∉ list_ascii_of_string "Cookie").
  { cbn [list_ascii_of_string]. intros H.
    repeat (apply elem_of_cons in H as [H|H]; [discriminate|]).
    by apply elem_of_nil in H. }
  split; [exact Hn|]. exact (GetCookieKey_first_colon id "Cookie" "BAIDUID" Hn).
Defined.

End ClusterConfFacts.

Module HandlerListFacts.
Import HandlerList.

Section WithTypes.

Context {Session Request Response : Type}.

Local Abbreviation Filter := (Filter Session Request Response).
Local Abbreviation HandlerList := (HandlerList Session Request Response).

Ltac dead_entry hs IH e :=
  induction hs as [|h hs IH]; intros;
  [ destruct e; cbn; try reflexivity; exfalso; auto
  | destruct h; cbn; try reflexivity;
    repeat match goal with
           | |- context [let '(_, _) := ?x in _] => destruct x
           | p : (_ * _)%type |- _ => destruct p
           end;
    destruct (negb _); [reflexivity|apply IH] ].

Lemma FilterAccept_loop_dead (hs : list Filter) e post :
  kindOf e <> HANDLERS_ACCEPT -> forall v s,
  FilterAccept_loop (hs ++ e :: post) v s = FilterAccept_loop hs v s.
Proof. intros He. dead_entry hs IH e. Qed.

Lemma FilterRequest_loop_dead (hs : list Filter) e post :
  kindOf e <> HANDLERS_REQUEST -> forall v res req,
  FilterRequest_loop (hs ++ e :: post) v res req = FilterRequest_loop hs v res req.
Proof. intros He. dead_entry hs IH e. Qed.

Lemma FilterForward_loop_dead (hs : list Filter) e post :
  kindOf e <> HANDLERS_FORWARD -> forall v req,
  FilterForward_loop (hs ++ e :: post) v req = FilterForward_loop hs v req.
Proof. intros He. dead_entry hs IH e. Qed.

Lemma FilterResponse_loop_dead (hs : list Filter) e post :
  kindOf e <> HANDLERS_RESPONSE -> forall v req res,
  FilterResponse_loop (hs ++ e :: post) v req res = FilterResponse_loop hs v req res.
Proof. intros He. dead_entry hs IH e. Qed.

Lemma FilterFinish_loop_dead (hs : list Filter) e post :
  kindOf e <> HANDLERS_FINISH -> forall v s,
  FilterFinish_loop (hs ++ e :: post) v s = FilterFinish_loop hs v s.
Proof. intros He. dead_entry hs IH e. Qed.

(** X18. A filter of another kind than the one a walk calls ends the walk
    without a word to the caller: the walk returns what the filters before
    it gave, and neither that entry nor any filter registered after it is
    ever run.  This holds for the five walks. *)
Theorem wrong_kind_ends_the_walk (t : Z) (hs post : list Filter) (e : Filter) :
  (kindOf e <> HANDLERS_ACCEPT -> forall session,
     FilterAccept (mkHandlerList t (hs ++ e :: post)) session
     = FilterAccept (mkHandlerList t hs) session) /\
  (kindOf e <> HANDLERS_REQUEST -> forall req,
     FilterRequest (mkHandlerList t (hs ++ e :: post)) req
     = FilterRequest (mkHandlerList t hs) req) /\
  (kindOf e <> HANDLERS_FORWARD -> forall req,
     FilterForward (mkHandlerList t (hs ++ e :: post)) req
     = FilterForward (mkHandlerList t hs) req) /\
  (kindOf e <> HANDLERS_RESPONSE -> forall req res,
     FilterResponse (mkHandlerList t (hs ++ e :: post)) req res
     = FilterResponse (mkHandlerList t hs) req res) /\
  (kindOf e <> HANDLERS_FINISH -> forall session,
     FilterFinish (mkHandlerList t (hs ++ e :: post)) session
     = FilterFinish (mkHandlerList t hs) session).
Proof.
  repeat split; intros He; intros.
  - by apply FilterAccept_loop_dead.
  - by apply FilterRequest_loop_dead.
  - by apply FilterForward_loop_dead.
  - by apply FilterResponse_loop_dead.
  - by apply FilterFinish_loop_dead.
Qed.

Lemma FilterRequest_loop_snoc (hs : list Filter) f :
  Forall (fun e => kindOf e = HANDLERS_REQUEST) hs -> forall res req,
  FilterRequest_loop (hs ++ [RequestFilter f]) BFE_HANDLER_GOON res req =
  let r := FilterRequest_loop hs BFE_HANDLER_GOON res req in
  if r.1.1 =? BFE_HANDLER_GOON then f r.2 else r.
Proof.
  intros Hall. induction hs as [|h hs IH]; intros res req.
  - cbn. destruct (f req) as [[v res'] req']. destruct (negb _); reflexivity.
  - apply Forall_cons in Hall as [Hh Hall]. destruct h; try discriminate Hh.
    cbn [app FilterRequest_loop]. destruct (f0 req) as [[v res'] req'].
    destruct (Z.eqb_spec v BFE_HANDLER_GOON) as [->|Hne]; cbn [negb].
    + apply (IH Hall).
    + cbn [fst snd]. destruct (Z.eqb_spec v BFE_HANDLER_GOON); [done|reflexivity].
Qed.

Lemma FilterResponse_loop_snoc (hs : list Filter) f :
  Forall (fun e => kindOf e = HANDLERS_RESPONSE) hs -> forall req res,
  FilterResponse_loop (hs ++ [ResponseFilter f]) BFE_HANDLER_GOON req res =
  let r := FilterResponse_loop hs BFE_HANDLER_GOON req res in
  if r.1 =? BFE_HANDLER_GOON then f r.2.1 r.2.2 else r.
Proof.
  intros Hall. induction hs as [|h hs IH]; intros req res.
  - cbn. destruct (f req res) as [v [req' res']]. destruct (negb _); reflexivity.
  - apply Forall_cons in Hall as [Hh Hall]. destruct h; try discriminate Hh.
    cbn [app FilterResponse_loop]. destruct (f0 req res) as [v [req' res']].
    destruct (Z.eqb_spec v BFE_HANDLER_GOON) as [->|Hne]; cbn [negb].
    + apply (IH Hall).
    + cbn [fst snd]. destruct (Z.eqb_spec v BFE_HANDLER_GOON); [done|reflexivity].
Qed.

Lemma FilterAccept_loop_snoc (hs : list Filter) f :
  Forall (fun e => kindOf e = HANDLERS_ACCEPT) hs -> forall s,
  FilterAccept_loop (hs ++ [AcceptFilter f]) BFE_HANDLER_GOON s =
  let r := FilterAccept_loop hs BFE_HANDLER_GOON s in
  if r.1 =? BFE_HANDLER_GOON then f r.2 else r.
Proof.
  intros Hall. induction hs as [|h hs IH]; intros s.
  - cbn. destruct (f s) as [v s']. destruct (negb _); reflexivity.
  - apply Forall_cons in Hall as [Hh Hall]. destruct h; try discriminate Hh.
    cbn [app FilterAccept_loop]. destruct (f0 s) as [v s'].
    destruct (Z.eqb_spec v BFE_HANDLER_GOON) as [->|Hne]; cbn [negb].
    + apply (IH Hall).
    + cbn [fst snd]. destruct (Z.eqb_spec v BFE_HANDLER_GOON); [done|reflexivity].
Qed.

Lemma FilterForward_loop_snoc (hs : list Filter) f :
  Forall (fun e => kindOf e = HANDLERS_FORWARD) hs -> forall req,
  FilterForward_loop (hs ++ [ForwardFilter f]) BFE_HANDLER_GOON req =
  let r := FilterForward_loop hs BFE_HANDLER_GOON req in
  if r.1 =? BFE_HANDLER_GOON then f r.2 else r.
Proof.
  intros Hall. induction hs as [|h hs IH]; intros req.
  - cbn. destruct (f req) as [v req']. destruct (negb _); reflexivity.
  - apply Forall_cons in Hall as [Hh Hall]. destruct h; try discriminate Hh.
    cbn [app FilterForward_loop]. destruct (f0 req) as [v req'].
    destruct (Z.eqb_spec v BFE_HANDLER_GOON) as [->|Hne]; cbn [negb].
    + apply (IH Hall).
    + cbn [fst snd]. destruct (Z.eqb_spec v BFE_HANDLER_GOON); [done|reflexivity].
Qed.

Lemma FilterFinish_loop_snoc (hs : list Filter) f :
  Forall (fun e => kindOf e = HANDLERS_FINISH) hs -> forall s,
  FilterFinish_loop (hs ++ [FinishFilter f]) BFE_HANDLER_GOON s =
  let r := FilterFinish_loop hs BFE_HANDLER_GOON s in
  if r.1 =? BFE_HANDLER_GOON then f r.2 else r.
Proof.
  intros Hall. induction hs as [|h hs IH]; intros s.
  - cbn. destruct (f s) as [v s']. destruct (negb _); reflexivity.
  - apply Forall_cons in Hall as [Hh Hall]. destruct h; try discriminate Hh.
    cbn [app FilterFinish_loop]. destruct (f0 s) as [v s'].
    destruct (Z.eqb_spec v BFE_HANDLER_GOON) as [->|Hne]; cbn [negb].
    + apply (IH Hall).
    + cbn [fst snd]. destruct (Z.eqb_spec v BFE_HANDLER_GOON); [done|reflexivity].
Qed.

(** X19. Filters run in the order of their registration.  On a list that
    holds only filters of the kind of the walk, registering one more with
    [Add...Filter] succeeds and gives a list on which the walk does what it
    did before and then, if every filter so far said [BFE_HANDLER_GOON],
    calls the new filter on the state they left and returns its answer; if
    an earlier filter gave another verdict the new one is not called. *)
Theorem filters_run_in_registration_order (hl : HandlerList) :
  (forall f, Forall (fun e => kindOf e = HANDLERS_ACCEPT) (handlers hl) ->
     (AddAcceptFilter hl (SessionFunc f)).2 = None /\
     forall session,
       FilterAccept (AddAcceptFilter hl (SessionFunc f)).1 session =
       let r := FilterAccept hl session in
       if r.1 =? BFE_HANDLER_GOON then f r.2 else r) /\
  (forall f, Forall (fun e => kindOf e = HANDLERS_REQUEST) (handlers hl) ->
     (AddRequestFilter hl (RequestFunc f)).2 = None /\
     forall req,
       FilterRequest (AddRequestFilter hl (RequestFunc f)).1 req =
       let r := FilterRequest hl req in
       if r.1.1 =? BFE_HANDLER_GOON then f r.2 else r) /\
  (forall f, Forall (fun e => kindOf e = HANDLERS_FORWARD) (handlers hl) ->
     (AddForwardFilter hl (ForwardFunc f)).2 = None /\
     forall req,
       FilterForward (AddForwardFilter hl (ForwardFunc f)).1 req =
       let r := FilterForward hl req in
       if r.1 =? BFE_HANDLER_GOON then f r.2 else r) /\
  (forall f, Forall (fun e => kindOf e = HANDLERS_RESPONSE) (handlers hl) ->
     (AddResponseFilter hl (ResponseFunc f)).2 = None /\
     forall req res,
       FilterResponse (AddResponseFilter hl (ResponseFunc f)).1 req res =
       let r := FilterResponse hl req res in
       if r.1 =? BFE_HANDLER_GOON then f r.2.1 r.2.2 else r) /\
  (forall f, Forall (fun e => kindOf e = HANDLERS_FINISH) (handlers hl) ->
     (AddFinishFilter hl (SessionFunc f)).2 = None /\
     forall session,
       FilterFinish (AddFinishFilter hl (SessionFunc f)).1 session =
       let r := FilterFinish hl session in
       if r.1 =? BFE_HANDLER_GOON then f r.2 else r).
Proof.
  repeat split; try reflexivity; intros.
  - by apply FilterAccept_loop_snoc.
  - by apply FilterRequest_loop_snoc.
  - by apply FilterForward_loop_snoc.
  - by apply FilterResponse_loop_snoc.
  - by apply FilterFinish_loop_snoc.
Qed.

End WithTypes.

Lemma wrong_kind_ends_the_walk_witness :
  let e : Filter unit nat unit := AcceptFilter (fun s => (BFE_HANDLER_GOON, s)) in
  kindOf e <> HANDLERS_REQUEST /\
  FilterRequest (mkHandlerList HANDLERS_REQUEST
                   ([RequestFilter countingGoOn] ++ e :: [RequestFilter countingRespond]))
                0%nat
  = ((BFE_HANDLER_GOON, None), 1%nat).
Proof.
  intros e. assert (He : kindOf e <> HANDLERS_REQUEST) by discriminate.
  split; [exact He|].
  destruct (wrong_kind_ends_the_walk HANDLERS_REQUEST [RequestFilter countingGoOn]
              [RequestFilter countingRespond] e) as (_ & Hreq & _).
  rewrite (Hreq He 0%nat). reflexivity.
Defined.

Lemma filters_run_in_registration_order_witness :
  let hl : HandlerList unit nat unit :=
    mkHandlerList HANDLERS_REQUEST [RequestFilter countingGoOn] in
  Forall (fun e => kindOf e = HANDLERS_REQUEST) (handlers hl) /\
  FilterRequest (AddRequestFilter hl (RequestFunc countingRespond)).1 0%nat
  = ((BFE_HANDLER_RESPONSE, Some tt), 2%nat).
Proof.
  intros hl.
  assert (Hall : Forall (fun e => kindOf e = HANDLERS_REQUEST) (handlers hl))
    by (repeat constructor).
  split; [exact Hall|].
  destruct (filters_run_in_registration_order hl) as (_ & Hreq & _).
  destruct (Hreq countingRespond Hall) as [_ Hrun].
  rewrite (Hrun 0%nat). reflexivity.
Defined.

End HandlerListFacts.

Module ServeHTTPFacts.
Import ServeHTTP.

Local Abbreviation below k l := (Forall (fun e => (rank e < k)%nat) l).
Local Abbreviation above k l := (Forall (fun e => (k <= rank e)%nat) l).

Lemma inTextOrder_app k l1 l2 :
  inTextOrder l1 -> inTextOrder l2 -> below k l1 -> above k l2 ->
  inTextOrder (l1 ++ l2).
Proof.
  unfold inTextOrder. intros H1 H2 Hb Ha.
  induction H1 as [|x l1 Hs IH Hx]; [exact H2|].
  apply Forall_cons in Hb as [Hxk Hb]. cbn [app]. constructor; [by apply IH|].
  apply Forall_app. split; [exact Hx|].
  eapply Forall_impl; [exact Ha|]. intros y Hy. cbv beta in *. lia.
Qed.

Lemma inTextOrder_singleton e : inTextOrder [e].
Proof. repeat constructor. Qed.

(** The events so far are in order and come before place [k]; the deferred
    calls are in order and come last. *)
Definition upTo (k : nat) (st : State) : Prop :=
  inTextOrder (events st) /\ below k (events st) /\
  inTextOrder (deferred st) /\ above 10 (deferred st).

Lemma upTo_mono k k' st : (k <= k')%nat -> upTo k st -> upTo k' st.
Proof.
  intros Hk (H1 & H2 & H3 & H4). repeat split; try assumption.
  eapply Forall_impl; [exact H2|]. intros e He. cbv beta in *. lia.
Qed.

Lemma upTo_emit k e st :
  upTo k st -> (k <= rank e)%nat -> upTo (S (rank e)) (emit e st).
Proof.
  intros (H1 & H2 & H3 & H4) Hk. unfold upTo, emit. cbn [events deferred].
  split; [|split; [|split; assumption]].
  - apply (inTextOrder_app k); [exact H1|apply inTextOrder_singleton|exact H2|].
    by constructor.
  - apply Forall_app. split.
    + eapply Forall_impl; [exact H2|]. intros x Hx. cbv beta in *. lia.
    + constructor; [lia|constructor].
Qed.

Section WithActions.

Variables closeDirectly closeAfterReply : Z.

Local Abbreviation ServeHTTP := (ServeHTTP closeDirectly closeAfterReply).
Local Abbreviation send_response := (send_response closeAfterReply).
Local Abbreviation response_got := (response_got closeAfterReply).
Local Abbreviation requestPhase := (requestPhase closeDirectly closeAfterReply).
Local Abbreviation internalError := (internalError closeAfterReply).
Local Abbreviation invokeStage := (invokeStage closeAfterReply).

Lemma ret_order st : upTo 10 st -> inTextOrder (events (ret st)).
Proof.
  intros (H1 & H2 & H3 & H4). unfold ret. cbn [events].
  by apply (inTextOrder_app 10).
Qed.

Lemma send_response_order env st :
  upTo 9 st -> inTextOrder (events (send_response env st)).
Proof.
  intros H. unfold ServeHTTP.send_response.
  destruct (isRedirect st), (res st) as [r|];
    try (apply ret_order; apply (upTo_mono 9); [lia|exact H]).
  pose proof (upTo_emit 9 (CallSendResponse r) st H ltac:(cbn; lia)) as He.
  destruct (sendResponse_ok env); [by apply ret_order|].
  destruct (negb (supportMultiplex env)); by apply ret_order.
Qed.

Lemma response_got_order env st :
  upTo 7 st -> inTextOrder (events (response_got env st)).
Proof.
  intros H. unfold ServeHTTP.response_got.
  destruct (filterResponse env) as [retVal|].
  2:{ apply send_response_order. apply (upTo_mono 7); [lia|exact H]. }
  pose proof (upTo_emit 7 (CallFilterResponse (res st)) st H ltac:(cbn; lia)) as He.
  cbn [rank] in He.
  destruct (retVal =? BFE_HANDLER_FINISH).
  { apply ret_order. apply (upTo_mono 8); [lia|exact He]. }
  destruct (retVal =? BFE_HANDLER_REDIRECT).
  - apply send_response_order. unfold redirect.
    exact (upTo_emit 8 CallRedirect _ He ltac:(cbn; lia)).
  - apply send_response_order. apply (upTo_mono 8); [lia|exact He].
Qed.

Lemma requestPhase_order env p st next :
  (rank (CallFilterRequest p) <= 5)%nat ->
  upTo (rank (CallFilterRequest p)) st ->
  (forall st1, upTo (S (rank (CallFilterRequest p))) st1 ->
     inTextOrder (events (next st1))) ->
  inTextOrder (events (requestPhase env p st next)).
Proof.
  intros Hp H Hnext. unfold ServeHTTP.requestPhase.
  destruct (filterRequest env p) as [[retVal made]|].
  2:{ apply Hnext. apply (upTo_mono (rank (CallFilterRequest p))); [lia|exact H]. }
  pose proof (upTo_emit _ (CallFilterRequest p) st H ltac:(lia)) as He.
  destruct (retVal =? BFE_HANDLER_CLOSE).
  { apply ret_order. eapply upTo_mono; [|exact He]. lia. }
  destruct (retVal =? BFE_HANDLER_FINISH).
  { apply ret_order. eapply upTo_mono; [|exact He]. lia. }
  destruct (retVal =? BFE_HANDLER_REDIRECT).
  { apply send_response_order. unfold redirect.
    refine (upTo_emit 8 CallRedirect _ _ ltac:(cbn; lia)).
    eapply upTo_mono; [|exact He]. lia. }
  destruct (retVal =? BFE_HANDLER_RESPONSE).
  { apply response_got_order. eapply upTo_mono; [|exact He]. lia. }
  apply Hnext. exact He.
Qed.

(** X20. [ServeHTTP] makes its calls in the order of its text and makes
    none of them twice: the three callbacks of the request, [findProduct],
    [findCluster], the lookup of the cluster, [clusterInvoke], the callback of
    the response, [Redirect], [sendResponse], and at the end the deferred
    closing of the body and stopping of the timer. *)
Theorem ServeHTTP_calls_in_text_order (env : Env) :
  inTextOrder (events (ServeHTTP env)).
Proof.
  unfold ServeHTTP.ServeHTTP.
  apply requestPhase_order; [cbn; lia| |].
  { repeat split; constructor. }
  intros st1 H1. cbn [rank] in H1.
  pose proof (upTo_emit 1 CallFindProduct st1 H1 ltac:(cbn; lia)) as H2.
  cbn [rank] in H2.
  destruct (negb (findProduct_ok env)).
  { apply response_got_order. eapply upTo_mono; [|exact H2]. lia. }
  apply requestPhase_order; [cbn; lia|exact H2|].
  intros st3 H3. cbn [rank] in H3.
  pose proof (upTo_emit 3 CallFindCluster st3 H3 ltac:(cbn; lia)) as H4.
  cbn [rank] in H4.
  destruct (negb (findCluster_ok env)).
  { apply response_got_order. eapply upTo_mono; [|exact H4]. lia. }
  pose proof (upTo_emit 4 CallClusterLookup _ H4 ltac:(cbn; lia)) as H5.
  cbn [rank] in H5.
  destruct (negb (clusterLookup_ok env)).
  { apply response_got_order. eapply upTo_mono; [|exact H5]. lia. }
  apply requestPhase_order; [cbn; lia|exact H5|].
  intros st6 H6. cbn [rank] in H6. unfold ServeHTTP.invokeStage.
  pose proof (upTo_emit 6 CallClusterInvoke st6 H6 ltac:(cbn; lia)) as H7.
  cbn [rank] in H7. destruct H7 as (Ho & Hb & Hd1 & Hd2).
  destruct (invoke env) as [[got invokeAction] failed].
  destruct failed.
  { apply response_got_order. repeat split; assumption. }
  destruct got; cbn [res setAction setRes].
  - apply response_got_order. repeat split; try assumption.
    + repeat constructor; cbn; lia.
    + repeat constructor; cbn; lia.
  - apply ret_order. repeat split.
    + exact Ho.
    + eapply Forall_impl; [exact Hb|]. intros e He. cbv beta in *. lia.
    + repeat constructor.
    + repeat constructor; cbn; lia.
Qed.

(** *** The shape of every run *)

(** The state in which a run reaches a callback of the request, a lookup
    or [clusterInvoke]: only calls of the first six places have been made,
    every callback called so far let the request go on, and nothing has been
    decided yet. *)
Definition onTheWay (env : Env) (st : State) : Prop :=
  below 6 (events st) /\
  (forall p, CallFilterRequest p ∈ events st -> goesOn (filterRequest env p)) /\
  deferred st = [] /\ isRedirect st = false /\ panicked st = false /\
  action st = 0 /\ BfeStatusCode st = None /\ ReqErrCode st = None.

(** The state right after a callback of the request that stops it. *)
Definition stoppedAt (env : Env) (p : Phase) (st : State) : Prop :=
  exists st0, onTheWay env st0 /\
    events st = events st0 ++ [CallFilterRequest p] /\
    deferred st = [] /\ isRedirect st = false /\ panicked st = false /\
    action st = 0 /\ BfeStatusCode st = None /\ ReqErrCode st = None.

Lemma onTheWay_emit env e st :
  onTheWay env st -> (rank e < 6)%nat ->
  (forall p, e = CallFilterRequest p -> goesOn (filterRequest env p)) ->
  onTheWay env (emit e st).
Proof.
  intros (Hb & Hh & Hrest) He Hgo. unfold onTheWay, emit. cbn.
  split; [|split; [|exact Hrest]].
  - apply Forall_app. split; [exact Hb|]. constructor; [exact He|constructor].
  - intros p Hin. apply elem_of_app in Hin as [Hin|Hin]; [by apply Hh|].
    apply list_elem_of_singleton in Hin. by apply Hgo.
Qed.

Lemma not_goesOn env p v made :
  filterRequest env p = Some (v, made) ->
  v = BFE_HANDLER_CLOSE \/ v = BFE_HANDLER_FINISH \/
  v = BFE_HANDLER_REDIRECT \/ v = BFE_HANDLER_RESPONSE ->
  ~ allPass env.
Proof.
  intros Hf Hv [Hall _]. specialize (Hall p). rewrite Hf in Hall.
  cbn in Hall. tauto.
Qed.

Lemma requestPhase_rule env p st next (Post : State -> Prop) :
  (rank (CallFilterRequest p) < 6)%nat ->
  onTheWay env st ->
  (forall made st1, filterRequest env p = Some (BFE_HANDLER_CLOSE, made) ->
     stoppedAt env p st1 -> Post (ret (setAction closeDirectly st1))) ->
  (forall made st1, filterRequest env p = Some (BFE_HANDLER_FINISH, made) ->
     stoppedAt env p st1 ->
     Post (ret (setStatus StatusInternalServerError
                  (setAction closeAfterReply st1)))) ->
  (forall made st1, filterRequest env p = Some (BFE_HANDLER_REDIRECT, made) ->
     stoppedAt env p st1 -> Post (send_response env (redirect st1))) ->
  (forall made st1, filterRequest env p = Some (BFE_HANDLER_RESPONSE, made) ->
     stoppedAt env p st1 ->
     res st1 = (if made then Some (FilterResp p) else None) ->
     Post (response_got env st1)) ->
  (goesOn (filterRequest env p) ->
     forall st1, onTheWay env st1 -> Post (next st1)) ->
  Post (requestPhase env p st next).
Proof.
  intros Hp Hst Hclose Hfinish Hredirect Hresponse Hnext.
  unfold ServeHTTP.requestPhase.
  destruct (filterRequest env p) as [[v made]|] eqn:Hf.
  2:{ apply Hnext; [exact I|exact Hst]. }
  set (st1 := setRes _ (emit (CallFilterRequest p) st)).
  assert (Hstop : stoppedAt env p st1).
  { exists st. split; [exact Hst|]. destruct Hst as (_ & _ & Hrest).
    subst st1. cbn. split; [reflexivity|exact Hrest]. }
  destruct (Z.eqb_spec v BFE_HANDLER_CLOSE) as [->|H1]; [by eapply Hclose|].
  destruct (Z.eqb_spec v BFE_HANDLER_FINISH) as [->|H2]; [by eapply Hfinish|].
  destruct (Z.eqb_spec v BFE_HANDLER_REDIRECT) as [->|H3]; [by eapply Hredirect|].
  destruct (Z.eqb_spec v BFE_HANDLER_RESPONSE) as [->|H4].
  { eapply Hresponse; [reflexivity|exact Hstop|reflexivity]. }
  assert (Hgo : goesOn (Some (v, made))) by (cbn; tauto).
  apply (Hnext Hgo). subst st1.
  assert (Ho : onTheWay env (emit (CallFilterRequest p) st)).
  { apply onTheWay_emit; [exact Hst|exact Hp|].
    intros p' [= <-]. by rewrite Hf. }
  exact Ho.
Qed.

(** Every run of [ServeHTTP] ends in one of six ways: a callback of the
    request says CLOSE, FINISH, REDIRECT or RESPONSE, a lookup fails, or
    [clusterInvoke] is reached.  What holds at the end of each holds of
    [ServeHTTP]. *)
Lemma ServeHTTP_rule env (Post : State -> Prop) :
  (forall p made st, filterRequest env p = Some (BFE_HANDLER_CLOSE, made) ->
     stoppedAt env p st -> Post (ret (setAction closeDirectly st))) ->
  (forall p made st, filterRequest env p = Some (BFE_HANDLER_FINISH, made) ->
     stoppedAt env p st ->
     Post (ret (setStatus StatusInternalServerError
                  (setAction closeAfterReply st)))) ->
  (forall p made st, filterRequest env p = Some (BFE_HANDLER_REDIRECT, made) ->
     stoppedAt env p st -> Post (send_response env (redirect st))) ->
  (forall p made st, filterRequest env p = Some (BFE_HANDLER_RESPONSE, made) ->
     stoppedAt env p st ->
     res st = (if made then Some (FilterResp p) else None) ->
     Post (response_got env st)) ->
  (forall c st, ~ allPass env -> onTheWay env st ->
     Post (internalError env c st)) ->
  (allPass env -> forall st, onTheWay env st -> Post (invokeStage env st)) ->
  Post (ServeHTTP env).
Proof.
  intros Hclose Hfinish Hredirect Hresponse Herror Hinvoke.
  unfold ServeHTTP.ServeHTTP.
  assert (Hemit : forall e st, onTheWay env st -> (rank e < 6)%nat ->
            (forall p, e <> CallFilterRequest p) -> onTheWay env (emit e st)).
  { intros e st Hst He Hne. apply onTheWay_emit; [exact Hst|exact He|].
    intros p Hp. by destruct (Hne p). }
  assert (H0 : onTheWay env initialState).
  { unfold onTheWay, initialState. cbn. split; [constructor|].
    split; [|by repeat split]. intros p Hin. by apply elem_of_nil in Hin. }
  apply requestPhase_rule; [cbn; lia|exact H0|by eauto..|].
  intros Hgo1 st1 H1.
  assert (H2 : onTheWay env (emit CallFindProduct st1))
    by (apply Hemit; [exact H1|cbn; lia|discriminate]).
  destruct (findProduct_ok env) eqn:Hfp; cbn [negb].
  2:{ apply Herror; [|exact H2]. intros (_ & Hok & _). congruence. }
  apply requestPhase_rule; [cbn; lia|exact H2|by eauto..|].
  intros Hgo2 st3 H3.
  assert (H4 : onTheWay env (emit CallFindCluster st3))
    by (apply Hemit; [exact H3|cbn; lia|discriminate]).
  destruct (findCluster_ok env) eqn:Hfc; cbn [negb].
  2:{ apply Herror; [|exact H4]. intros (_ & _ & Hok & _). congruence. }
  assert (H5 : onTheWay env (emit CallClusterLookup (emit CallFindCluster st3)))
    by (apply Hemit; [exact H4|cbn; lia|discriminate]).
  destruct (clusterLookup_ok env) eqn:Hcl; cbn [negb].
  2:{ apply Herror; [|exact H5]. intros (_ & _ & _ & Hok). congruence. }
  apply requestPhase_rule; [cbn; lia|exact H5|by eauto..|].
  intros Hgo3 st6 H6. apply Hinvoke; [|exact H6].
  split; [|by repeat split]. intros [| |]; assumption.
Qed.

(** *** The end of a run *)

(** [st'] is [st] after the reply: calls of the places 7 to 9, then the
    deferred calls. *)
Definition repliedFrom (st st' : State) : Prop :=
  exists mid, events st' = events st ++ mid ++ deferred st /\
    Forall (fun e => (7 <= rank e <= 9)%nat) mid /\
    panicked st' = panicked st.

Lemma ret_replied st : repliedFrom st (ret st).
Proof. exists []. split; [reflexivity|]. split; [constructor|reflexivity]. Qed.

Lemma send_response_replied env st : repliedFrom st (send_response env st).
Proof.
  unfold ServeHTTP.send_response.
  destruct (isRedirect st), (res st) as [r|]; try apply ret_replied.
  unfold repliedFrom. exists [CallSendResponse r].
  destruct (sendResponse_ok env), (negb (supportMultiplex env)); cbn;
    (split; [by rewrite <- app_assoc|]);
    (split; [constructor; [cbn; lia|constructor]|reflexivity]).
Qed.

Lemma redirect_replied env st :
  repliedFrom st (send_response env (redirect st)) /\
  (isRedirect st = false -> deferred st = [] ->
   events (send_response env (redirect st)) = events st ++ [CallRedirect] /\
   action (send_response env (redirect st)) = action st /\
   BfeStatusCode (send_response env (redirect st)) = Some RedirectCode).
Proof.
  unfold ServeHTTP.send_response, redirect, repliedFrom. cbn. split.
  - exists [CallRedirect]. split; [by rewrite <- app_assoc|].
    split; [constructor; [cbn; lia|constructor]|reflexivity].
  - intros _ ->. by rewrite app_nil_r.
Qed.

Lemma response_got_replied env st : repliedFrom st (response_got env st).
Proof.
  unfold ServeHTTP.response_got.
  destruct (filterResponse env) as [retVal|]; [|apply send_response_replied].
  set (e := CallFilterResponse (res st)).
  assert (He : (7 <= rank e <= 9)%nat) by (cbn; lia).
  destruct (retVal =? BFE_HANDLER_FINISH).
  { unfold repliedFrom. exists [e]. cbn. split; [by rewrite <- app_assoc|].
    split; [by repeat constructor|reflexivity]. }
  destruct (retVal =? BFE_HANDLER_REDIRECT).
  - destruct (redirect_replied env (emit e st)) as [(mid & Hev & Hmid & Hp) _].
    exists (e :: mid). rewrite Hev. cbn. split; [by rewrite <- !app_assoc|].
    split; [by constructor|exact Hp].
  - destruct (send_response_replied env (emit e st)) as (mid & Hev & Hmid & Hp).
    exists (e :: mid). rewrite Hev. cbn. split; [by rewrite <- !app_assoc|].
    split; [by constructor|exact Hp].
Qed.

Lemma stoppedAt_plain env p st :
  stoppedAt env p st ->
  below 6 (events st) /\ deferred st = [] /\ panicked st = false /\
  action st = 0 /\ isRedirect st = false.
Proof.
  intros (st0 & (Hb & _) & -> & Hd & Hr & Hp & Ha & _).
  split; [|by repeat split].
  apply Forall_app. split; [exact Hb|].
  constructor; [destruct p; cbn; lia|constructor].
Qed.

(** A reply that starts from calls of the first six places adds none of
    the other places but 7 to 9. *)
Lemma replied_only e st st' :
  below 6 (events st) -> deferred st = [] -> repliedFrom st st' ->
  (rank e = 6 \/ 10 <= rank e)%nat -> e ∉ events st'.
Proof.
  intros Hb Hd (mid & -> & Hmid & _) He Hin. rewrite Hd, app_nil_r in Hin.
  apply elem_of_app in Hin as [Hin|Hin].
  - rewrite Forall_forall in Hb. specialize (Hb e Hin). cbv beta in Hb. lia.
  - rewrite Forall_forall in Hmid. specialize (Hmid e Hin). cbv beta in Hmid. lia.
Qed.

(** What [invokeStage] adds to the calls made before it. *)
Lemma invokeStage_events env st :
  deferred st = [] -> panicked st = false ->
  exists mid,
    Forall (fun e => (7 <= rank e <= 9)%nat) mid /\
    match invoke env with
    | (_, _, true) =>
        events (invokeStage env st) = events st ++ CallClusterInvoke :: mid /\
        panicked (invokeStage env st) = false
    | (true, _, false) =>
        events (invokeStage env st)
        = (events st ++ CallClusterInvoke :: mid)
          ++ [CallBodyClose; CallWriteTimerStop] /\
        panicked (invokeStage env st) = false
    | (false, _, false) =>
        events (invokeStage env st)
        = events st ++ [CallClusterInvoke; CallWriteTimerStop] /\
        panicked (invokeStage env st) = true
    end.
Proof.
  intros Hd Hp. unfold ServeHTTP.invokeStage.
  destruct (invoke env) as [[got invokeAction] [|]].
  - match goal with |- context [response_got env ?s] =>
      destruct (response_got_replied env s) as (mid & Hev & Hmid & Hpan) end.
    exists mid. split; [exact Hmid|].
    assert (events (response_got env
              (setRes (Some InternalSrvErrResp)
                 (setStatus StatusInternalServerError
                    (setAction invokeAction
                       (setRes (if got then Some BackendResp else None)
                          (emit CallClusterInvoke st))))))
            = events st ++ CallClusterInvoke :: mid) as Hev'.
    { rewrite Hev. cbn. rewrite Hd. by rewrite app_nil_r, <- app_assoc. }
    cbn in Hpan. rewrite Hp in Hpan. by destruct got.
  - destruct got; cbn [res setAction setRes].
    + match goal with |- context [response_got env ?s] =>
        destruct (response_got_replied env s) as (mid & Hev & Hmid & Hpan) end.
      exists mid. split; [exact Hmid|]. rewrite Hev, Hpan. cbn. rewrite Hp.
      split; [|reflexivity]. by rewrite <- !app_assoc.
    + exists []. split; [constructor|]. cbn. split; [|reflexivity].
      by rewrite <- app_assoc.
Qed.

(** X21. [clusterInvoke] is called exactly when nothing stopped the request
    before it: every callback of the request that is set let the request go
    on, and [findProduct], [findCluster] and the lookup of the cluster
    succeeded. *)
Theorem ServeHTTP_invokes_iff_all_pass (env : Env) :
  CallClusterInvoke ∈ events (ServeHTTP env) <-> allPass env.
Proof.
  apply ServeHTTP_rule.
  - intros p made st Hf Hs. destruct (stoppedAt_plain env p st Hs) as (Hb & Hd & _).
    split; [intros Hin; exfalso|intros Ha; exfalso].
    + revert Hin. apply (replied_only _ (setAction closeDirectly st));
        [exact Hb|exact Hd|apply ret_replied|by left].
    + eapply not_goesOn; [exact Hf|by left|exact Ha].
  - intros p made st Hf Hs. destruct (stoppedAt_plain env p st Hs) as (Hb & Hd & _).
    split; [intros Hin; exfalso|intros Ha; exfalso].
    + revert Hin.
      apply (replied_only _ (setStatus StatusInternalServerError
                               (setAction closeAfterReply st)));
        [exact Hb|exact Hd|apply ret_replied|by left].
    + eapply not_goesOn; [exact Hf|right; by left|exact Ha].
  - intros p made st Hf Hs. destruct (stoppedAt_plain env p st Hs) as (Hb & Hd & _).
    split; [intros Hin; exfalso|intros Ha; exfalso].
    + revert Hin. apply (replied_only _ st);
        [exact Hb|exact Hd|apply redirect_replied|by left].
    + eapply not_goesOn; [exact Hf|right; right; by left|exact Ha].
  - intros p made st Hf Hs _. destruct (stoppedAt_plain env p st Hs) as (Hb & Hd & _).
    split; [intros Hin; exfalso|intros Ha; exfalso].
    + revert Hin. apply (replied_only _ st);
        [exact Hb|exact Hd|apply response_got_replied|by left].
    + eapply not_goesOn; [exact Hf|right; right; by right|exact Ha].
  - intros c st Hn (Hb & _ & Hd & _). split; [intros Hin; exfalso|done].
    revert Hin. unfold ServeHTTP.internalError.
    match goal with |- context [response_got env ?s] =>
      apply (replied_only _ s); [exact Hb|exact Hd|apply response_got_replied|by left]
    end.
  - intros Ha st (_ & _ & Hd & _ & Hp & _). split; [intros _; exact Ha|intros _].
    destruct (invokeStage_events env st Hd Hp) as (mid & _ & Hev).
    destruct (invoke env) as [[[|] a] [|]]; destruct Hev as [-> _];
      rewrite ?elem_of_app, ?elem_of_cons; tauto.
Qed.

(** *** The body of the backend response *)

Definition bodyFacts (env : Env) (st' : State) : Prop :=
  (CallBodyClose ∈ events st' <->
     allPass env /\ (invoke env).1.1 = true /\ (invoke env).2 = false) /\
  (CallBodyClose ∈ events st' ->
     exists l, events st' = l ++ [CallBodyClose; CallWriteTimerStop]) /\
  (panicked st' = true <->
     allPass env /\ (invoke env).1.1 = false /\ (invoke env).2 = false).

Lemma bodyFacts_stopped env st st' :
  below 6 (events st) -> deferred st = [] -> panicked st = false ->
  repliedFrom st st' -> ~ allPass env -> bodyFacts env st'.
Proof.
  intros Hb Hd Hp Hr Hn.
  assert (Hno : CallBodyClose ∉ events st')
    by (apply (replied_only _ st); [exact Hb|exact Hd|exact Hr|right; cbn; lia]).
  destruct Hr as (_ & _ & _ & Hpan). rewrite Hp in Hpan.
  unfold bodyFacts. rewrite Hpan. repeat split; try tauto; try discriminate.
  all: intros (Ha & _); by destruct (Hn Ha).
Qed.

(** X22. The body of the backend response is closed exactly in the runs in
    which [clusterInvoke] was called and returned a response without error,
    and then on every way out, as the last call but the stopping of the
    timer; so it is closed also when the callback of the response ends the
    request.  The one run in which [ServeHTTP] reads a nil response is the
    one in which [clusterInvoke] returned neither a response nor an error. *)
Theorem ServeHTTP_closes_backend_body (env : Env) :
  (CallBodyClose ∈ events (ServeHTTP env) <->
     allPass env /\ (invoke env).1.1 = true /\ (invoke env).2 = false) /\
  (CallBodyClose ∈ events (ServeHTTP env) ->
     exists l, events (ServeHTTP env) = l ++ [CallBodyClose; CallWriteTimerStop]) /\
  (panicked (ServeHTTP env) = true <->
     allPass env /\ (invoke env).1.1 = false /\ (invoke env).2 = false).
Proof.
  apply (ServeHTTP_rule env (bodyFacts env)).
  - intros p made st Hf Hs.
    destruct (stoppedAt_plain env p st Hs) as (Hb & Hd & Hp & _).
    apply (bodyFacts_stopped env (setAction closeDirectly st));
      [exact Hb|exact Hd|exact Hp|apply ret_replied|].
    eapply not_goesOn; [exact Hf|by left].
  - intros p made st Hf Hs.
    destruct (stoppedAt_plain env p st Hs) as (Hb & Hd & Hp & _).
    apply (bodyFacts_stopped env (setStatus StatusInternalServerError
                                    (setAction closeAfterReply st)));
      [exact Hb|exact Hd|exact Hp|apply ret_replied|].
    eapply not_goesOn; [exact Hf|right; by left].
  - intros p made st Hf Hs.
    destruct (stoppedAt_plain env p st Hs) as (Hb & Hd & Hp & _).
    apply (bodyFacts_stopped env st);
      [exact Hb|exact Hd|exact Hp|apply redirect_replied|].
    eapply not_goesOn; [exact Hf|right; right; by left].
  - intros p made st Hf Hs _.
    destruct (stoppedAt_plain env p st Hs) as (Hb & Hd & Hp & _).
    apply (bodyFacts_stopped env st);
      [exact Hb|exact Hd|exact Hp|apply response_got_replied|].
    eapply not_goesOn; [exact Hf|right; right; by right].
  - intros c st Hn (Hb & _ & Hd & _ & Hp & _). unfold ServeHTTP.internalError.
    match goal with |- context [response_got env ?s] =>
      apply (bodyFacts_stopped env s);
        [exact Hb|exact Hd|exact Hp|apply response_got_replied|exact Hn]
    end.
  - intros Ha st (Hb & _ & Hd & _ & Hp & _).
    destruct (invokeStage_events env st Hd Hp) as (mid & Hmid & Hev).
    assert (Hpre : CallBodyClose ∉ events st ++ CallClusterInvoke :: mid).
    { intros Hin. apply elem_of_app in Hin as [Hin|Hin].
      - rewrite Forall_forall in Hb. specialize (Hb _ Hin). cbn in Hb. lia.
      - apply elem_of_cons in Hin as [Hin|Hin]; [discriminate|].
        rewrite Forall_forall in Hmid. specialize (Hmid _ Hin). cbn in Hmid. lia. }
    unfold bodyFacts.
    destruct (invoke env) as [[[|] a] [|]]; destruct Hev as [Hev Hpan];
      rewrite Hev, Hpan; cbn [fst snd].
    + repeat split; try tauto; try discriminate; try (intros (_ & _ & [=]));
        intros Hin; by destruct (Hpre Hin).
    + split; [|split].
      * split; [by intros _|intros _]. apply elem_of_app. right. apply list_elem_of_here.
      * intros _. by eexists.
      * split; [discriminate|intros (_ & [=] & _)].
    + repeat split; try tauto; try discriminate; try (intros (_ & _ & [=]));
        intros Hin; by destruct (Hpre Hin).
    + assert (Hno : CallBodyClose ∉ events st ++ [CallClusterInvoke; CallWriteTimerStop]).
      { intros Hin. apply elem_of_app in Hin as [Hin|Hin].
        - rewrite Forall_forall in Hb. specialize (Hb _ Hin). cbn in Hb. lia.
        - repeat (apply elem_of_cons in Hin as [Hin|Hin]; [discriminate|]).
          by apply elem_of_nil in Hin. }
      split; [|split].
      * split; [intros Hin; by destruct (Hno Hin)|intros (_ & [=] & _)].
      * intros Hin; by destruct (Hno Hin).
      * split; [intros _; split; [exact Ha|split; reflexivity]|reflexivity].
Qed.

(** *** The verdicts of the callbacks of the request *)







End WithActions.

(** With no callback set, every lookup succeeding and an answer of the
    backend, the response is sent and the body is closed. *)
Lemma ServeHTTP_closes_backend_body_example :
  events (ServeHTTP 1 2 plainEnv)
  = [CallFindProduct; CallFindCluster; CallClusterLookup; CallClusterInvoke;
     CallSendResponse BackendResp; CallBodyClose; CallWriteTimerStop].
Proof. reflexivity. Qed.


End ServeHTTPFacts.

Module InvokeOutcomeFacts.
Import ReverseProxy InvokeOutcome.

(** What one pass of the loop does to a state without a response. *)
Lemma clusterInvoke_body_outcome env lvl outreq i st flow st' :
  clusterInvoke_body env lvl outreq i st = (flow, st') ->
  gotResponse st = false ->
  match flow with
  | Continue =>
      gotResponse st' = false /\ err st' <> None /\
      RetryTime st' = RetryTime st + 1 /\ action st' = action st
  | Break =>
      RetryTime st' = RetryTime st /\ action st' = action st /\
      ((gotResponse st' = true /\ err st' = None /\ ReqErrCode st' = None) \/
       (gotResponse st' = false /\ err st' <> None))
  | Return =>
      RetryTime st' = RetryTime st /\ gotResponse st' = false /\
      err st' = None /\ action st' = closeAfterReply /\
      roundTrips st' = roundTrips st /\
      exists s, FilterForwardFinish env i s = true
  end.
Proof.
  unfold clusterInvoke_body. intros H Hg.
  destruct (Balance env i _).
  - destruct (FilterForwardFinish env i _) eqn:Hfin.
    + injection H as <- <-. cbn. repeat split; try assumption. by eexists.
    + destruct (RoundTrip env i _) as [e|].
      * destruct (classifyError lvl outreq e) as [code allow].
        destruct allow; cbn [negb] in H; injection H as <- <-; cbn;
          repeat split; try reflexivity; try discriminate; try lia.
        right. split; [reflexivity|discriminate].
      * injection H as <- <-. cbn. repeat split. left. by repeat split.
  - injection H as <- <-. cbn. repeat split; try discriminate; try lia; assumption.
  - injection H as <- <-. cbn. repeat split. right. split; [exact Hg|discriminate].
Qed.

Lemma clusterInvoke_loop_outcome env lvl outreq fuel :
  forall i st st', 0 <= i ->
  gotResponse st = false -> (20 <= i -> err st <> None) ->
  clusterInvoke_loop env lvl outreq fuel i st = Some st' ->
  RetryTime st <= RetryTime st' <= RetryTime st + Z.max 0 (20 - i) /\
  match outcome st' with
  | Some GotResponse => ReqErrCode st' = None /\ action st' = action st
  | Some Failed => action st' = action st
  | Some Neither =>
      action st' = closeAfterReply /\
      exists j s, FilterForwardFinish env j s = true
  | None => False
  end.
Proof.
  induction fuel as [|fuel IH]; intros i st st' Hi Hg He H; [discriminate|].
  cbn [clusterInvoke_loop] in H. destruct (Z.ltb_spec i 20) as [Hlt|Hge].
  - destruct (clusterInvoke_body env lvl outreq i st) as [flow st1] eqn:Hb.
    pose proof (clusterInvoke_body_outcome _ _ _ _ _ _ _ Hb Hg) as Hstep.
    destruct flow.
    + destruct Hstep as (Hg1 & He1 & Hr1 & Ha1).
      destruct (IH (i + 1) st1 st' ltac:(lia) Hg1 (fun _ => He1) H) as [Hr Ho].
      split; [lia|]. rewrite Ha1 in Ho. exact Ho.
    + injection H as <-. destruct Hstep as (Hr1 & Ha1 & [(Hg1 & He1 & Hc1)|(Hg1 & He1)]).
      * split; [lia|]. unfold outcome. rewrite Hg1, He1. by split.
      * split; [lia|]. unfold outcome. rewrite Hg1.
        destruct (err st1); [exact Ha1|by destruct He1].
    + injection H as <-. destruct Hstep as (Hr1 & Hg1 & He1 & Ha1 & _ & s & Hs).
      split; [lia|]. unfold outcome. rewrite Hg1, He1. split; [exact Ha1|by eauto].
  - injection H as <-. split; [lia|]. unfold outcome. rewrite Hg.
    destruct (err st) eqn:E; [reflexivity|]. by destruct (He Hge).
Qed.

(** X24. Started without a response, [clusterInvoke] ends in one of three
    ways: with a response, no error, the error code of earlier tries cleared
    and the action untouched; with an error and no response, the action
    untouched or, when no balancer was found, [closeAfterReply]; or with
    neither a response nor an error, which happens only when a forward
    filter said FINISH, the action being [closeAfterReply].  [RetryTime]
    never decreases and grows by at most 20. *)
Theorem clusterInvoke_outcomes env lvl outreq fuel st st' :
  gotResponse st = false ->
  clusterInvoke env lvl outreq fuel st = Some st' ->
  RetryTime st <= RetryTime st' <= RetryTime st + 20 /\
  match outcome st' with
  | Some GotResponse => ReqErrCode st' = None /\ action st' = action st
  | Some Failed => action st' = action st \/ action st' = closeAfterReply
  | Some Neither =>
      action st' = closeAfterReply /\
      exists j s, FilterForwardFinish env j s = true
  | None => False
  end.
Proof.
  intros Hg H. unfold clusterInvoke in H. destruct (balLookup env); cbn [negb] in H.
  - destruct (clusterInvoke_loop_outcome env lvl outreq fuel 0 st st'
                ltac:(lia) Hg ltac:(lia) H) as [Hr Ho].
    split; [lia|]. destruct (outcome st') as [[]|]; try assumption. by left.
  - injection H as <-. cbn. split; [lia|]. by right.
Qed.

Lemma clusterInvoke_outcomes_witness :
  gotResponse freshState = false /\
  exists st',
    clusterInvoke forwardFinishes RetryConnect getRequest 21 freshState = Some st' /\
    outcome st' = Some Neither /\ action st' = closeAfterReply.
Proof.
  split; [reflexivity|]. eexists. split; [reflexivity|].
  pose proof (clusterInvoke_outcomes forwardFinishes RetryConnect getRequest 21
                freshState _ eq_refl eq_refl) as [_ Ho].
  split; [reflexivity|]. exact (proj1 Ho).
Defined.

End InvokeOutcomeFacts.

Module ParserFacts.
Import Parser.

Lemma funcProtos_keys_NoDup : NoDup funcProtos_entries.*1.
Proof. apply (bool_decide_unpack _). vm_compute. reflexivity. Qed.

Lemma funcProtos_lookup name argsType :
  funcProtos !! name = Some argsType <-> (name, argsType) ∈ funcProtos_entries.
Proof.
  unfold funcProtos. symmetry. apply elem_of_list_to_map.
  exact funcProtos_keys_NoDup.
Qed.

Lemma prototypeCheck_loop_None name argsType : forall i args,
  length argsType = length args ->
  prototypeCheck_loop name i argsType args = None <-> Kind <$> args = argsType.
Proof.
  induction argsType as [|t ts IH]; intros i [|a args] Hlen; try discriminate.
  - split; reflexivity.
  - cbn [prototypeCheck_loop fmap list_fmap]. injection Hlen as Hlen.
    case_bool_decide as Ht; cbn [negb].
    + rewrite (IH (S i) args Hlen). split; [intros <-; by rewrite Ht|].
      intros [= _ H]. exact H.
    + split; [discriminate|]. intros [= H _]. by destruct Ht.
Qed.

Lemma prototypeCheck_loop_first name argsType : forall i args j t k,
  prototypeCheck_loop name i argsType args = Some (ArgTypeError name j t k) ->
  (i <= j)%nat /\ argsType !! (j - i)%nat = Some t /\
  Kind <$> args !! (j - i)%nat = Some k /\ t <> k /\
  take (j - i) (Kind <$> args) = take (j - i) argsType.
Proof.
  induction argsType as [|t0 ts IH]; intros i [|a args] j t k H; try discriminate.
  cbn [prototypeCheck_loop] in H. case_bool_decide as Ht; cbn [negb] in H.
  - destruct (IH (S i) args j t k H) as (Hij & H1 & H2 & H3 & H4).
    replace (j - i)%nat with (S (j - S i)) by lia.
    split; [lia|]. split; [exact H1|]. split; [exact H2|]. split; [exact H3|].
    cbn. by rewrite H4, Ht.
  - injection H as <- <- <-. rewrite Nat.sub_diag. by repeat split.
Qed.

(** The table holds only prototypes of at most three literals, strings but
    for a boolean that may come last. *)
Definition smallProto (argsType : list Token) : bool :=
  bool_decide (argsType ∈ [ []; [STRING]; [STRING; BOOL]; [STRING; STRING];
                            [STRING; STRING; BOOL] ]).

Lemma funcProtos_small : forallb (fun e => smallProto e.2) funcProtos_entries = true.
Proof. vm_compute. reflexivity. Qed.

(** X25. [prototypeCheck] returns nil exactly when the name of the call is
    a key of [funcProtos] and the kinds of its arguments are, one by one, the
    tokens of that entry; so an accepted call has at most three arguments,
    string literals but for a boolean that may come last.  When it reports a
    wrong argument, that is the first argument whose kind differs. *)
Theorem prototypeCheck_spec (expr : CallExpr) :
  (prototypeCheck expr = None <->
     (Name (Fun expr), Kind <$> Args expr) ∈ funcProtos_entries) /\
  (prototypeCheck expr = None ->
     Kind <$> Args expr ∈ [ []; [STRING]; [STRING; BOOL]; [STRING; STRING];
                              [STRING; STRING; BOOL] ]) /\
  (forall name j t k,
     prototypeCheck expr = Some (ArgTypeError name j t k) ->
     exists argsType,
       (Name (Fun expr), argsType) ∈ funcProtos_entries /\
       length argsType = length (Args expr) /\
       argsType !! j = Some t /\ Kind <$> Args expr !! j = Some k /\ t <> k /\
       take j (Kind <$> Args expr) = take j argsType).
Proof.
  assert (Hiff : prototypeCheck expr = None <->
            (Name (Fun expr), Kind <$> Args expr) ∈ funcProtos_entries).
  { unfold prototypeCheck. rewrite <- funcProtos_lookup.
    destruct (funcProtos !! Name (Fun expr)) as [argsType|] eqn:Hl;
      [|split; discriminate].
    destruct (Nat.eqb_spec (length argsType) (length (Args expr))) as [Hlen|Hlen];
      cbn [negb].
    - rewrite (prototypeCheck_loop_None _ _ _ _ Hlen).
      split; [by intros ->|by intros [= ->]].
    - split; [discriminate|]. intros [= ->]. by rewrite length_fmap in Hlen. }
  split; [exact Hiff|]. split.
  - intros Hok. apply Hiff in Hok. pose proof funcProtos_small as Hs.
    rewrite forallb_forall in Hs. apply list_elem_of_In, Hs in Hok.
    unfold smallProto in Hok. cbn [snd] in Hok.
    by apply bool_decide_eq_true_1 in Hok.
  - unfold prototypeCheck. intros name j t k H.
    destruct (funcProtos !! Name (Fun expr)) as [argsType|] eqn:Hl;
      [|discriminate].
    destruct (Nat.eqb_spec (length argsType) (length (Args expr))) as [Hlen|Hlen];
      cbn [negb] in H; [|discriminate].
    assert (name = Name (Fun expr)) as ->.
    { clear -H. revert H. generalize 0%nat. generalize (Args expr).
      induction argsType as [|t0 ts IH]; intros [|a args] i H; try discriminate.
      cbn [prototypeCheck_loop] in H. case_bool_decide; cbn [negb] in H;
        [by eapply IH|by injection H]. }
    destruct (prototypeCheck_loop_first _ _ _ _ _ _ _ H) as (_ & H1 & H2 & H3 & H4).
    rewrite Nat.sub_0_r in *. exists argsType.
    split; [by apply funcProtos_lookup|]. by repeat split.
Qed.

Section Collect.

Context {Rest : Type}.

Lemma collectVariable_exist_spec l x :
  collectVariable_exist l x = true <-> Name x ∈ Name <$> l.
Proof.
  unfold collectVariable_exist.
  assert (H : forall b,
    foldl (fun exist i => if String.eqb (Name i) (Name x) then true else exist) b l
    = true <-> b = true \/ Name x ∈ Name <$> l).
  { induction l as [|i l IH]; intros b; cbn [foldl fmap list_fmap].
    - split; [by left|]. intros [H|H]; [exact H|by apply elem_of_nil in H].
    - rewrite IH, elem_of_cons.
      destruct (String.eqb_spec (Name i) (Name x)) as [He|Hne].
      + split; [intros _; right; left; by rewrite He|by left].
      + split; [intros [H|H]; [by left|right; by right]|].
        intros [H|[H|H]]; [by left|by destruct Hne|by right]. }
  rewrite H. split; [intros [H'|H']; [discriminate|exact H']|by right].
Qed.

(** One call of [collectVariable]. *)
Lemma collectVariable_step (p : ParserState Rest) n :
  let p' := (collectVariable p n).1 in
  rest p' = rest p /\
  identList p `prefix_of` identList p' /\
  (NoDup (Name <$> identList p) -> NoDup (Name <$> identList p')) /\
  (forall name, name ∈ Name <$> identList p' <->
     name ∈ Name <$> identList p \/ name ∈ Name <$> identsOf [n]).
Proof.
  destruct n as [| | |x|x|]; cbn [collectVariable fst identsOf omap];
    try (split; [reflexivity|]; split; [reflexivity|]; split; [by intros H|];
         intros name; split; [by left|];
         intros [H|H]; [exact H|by apply elem_of_nil in H]).
  destruct (collectVariable_exist (identList p) x) eqn:Hex; cbn [negb fst].
  - apply collectVariable_exist_spec in Hex.
    split; [reflexivity|]. split; [reflexivity|]. split; [by intros H|].
    intros name. cbn. rewrite elem_of_cons. split; [by left|].
    intros [H|[->|H]]; [exact H|exact Hex|by apply elem_of_nil in H].
  - assert (Hnot : Name x ∉ Name <$> identList p).
    { intros H. apply collectVariable_exist_spec in H. congruence. }
    cbn [identList rest]. split; [reflexivity|].
    split; [by apply prefix_app_r|]. split.
    + intros Hnd. rewrite fmap_app. apply NoDup_app. split; [exact Hnd|].
      split; [|apply NoDup_singleton].
      intros y Hy Hin. apply list_elem_of_singleton in Hin. cbn in Hin. by subst.
    + intros name. rewrite fmap_app, elem_of_app. reflexivity.
Qed.

(** X26. [collectVariable] keeps in [identList] one identifier for each
    name: over any sequence of calls the names of the list stay free of
    duplicates, the entries already there keep their places, no other field
    of the parser is touched, and at the end the names of the list are those
    it had and those of the identifiers visited. *)
Theorem collectVariable_collects (p : ParserState Rest) (nodes : list Node) :
  NoDup (Name <$> identList p) ->
  let p' := visitAll collectVariable p nodes in
  NoDup (Name <$> identList p') /\
  identList p `prefix_of` identList p' /\
  rest p' = rest p /\
  (forall name, name ∈ Name <$> identList p' <->
     name ∈ Name <$> identList p \/ name ∈ Name <$> identsOf nodes).
Proof.
  revert p. induction nodes as [|n nodes IH]; intros p Hnd p'; subst p'.
  - cbn. split; [exact Hnd|]. split; [reflexivity|]. split; [reflexivity|].
    intros name. split; [by left|]. intros [H|H]; [exact H|by apply elem_of_nil in H].
  - change (visitAll collectVariable p (n :: nodes))
      with (visitAll collectVariable (collectVariable p n).1 nodes).
    destruct (collectVariable_step p n) as (He & Hp & Hn & Hnames).
    destruct (IH _ (Hn Hnd)) as (Hnd' & Hp' & He' & Hnames').
    split; [exact Hnd'|]. split; [by etrans|]. split; [by rewrite He', He|].
    intros name. rewrite Hnames', Hnames.
    assert (identsOf (n :: nodes) = identsOf [n] ++ identsOf nodes) as ->
      by (by destruct n).
    rewrite fmap_app, elem_of_app. tauto.
Qed.

End Collect.

Section WithParser.

Context {Rest : Type}.
Variable Pos : CallExpr -> Z.
Variable addError : ParserState Rest -> Z -> ProtoError -> ParserState Rest.

(** X27. Over any sequence of calls, [primitiveCheck] does nothing to the
    parser but call [addError], once for each call expression visited that
    [prototypeCheck] rejects, in the order of the visit, with the position of
    that call and its error; it lets the traversal go below binary, unary and
    parenthesised expressions only. *)
Theorem primitiveCheck_reports (p : ParserState Rest) (nodes : list Node) :
  visitAll (primitiveCheck Pos addError) p nodes
    = foldl (fun p e => addError p e.1 e.2) p (callErrors Pos nodes) /\
  (forall n, (primitiveCheck Pos addError p n).2 = true <->
     n = BinaryExpr \/ n = UnaryExpr \/ n = ParenExpr).
Proof.
  split.
  - revert p. induction nodes as [|n nodes IH]; intros p; [reflexivity|].
    change (visitAll (primitiveCheck Pos addError) p (n :: nodes))
      with (visitAll (primitiveCheck Pos addError)
              (primitiveCheck Pos addError p n).1 nodes).
    rewrite (IH (primitiveCheck Pos addError p n).1).
    destruct n as [| | |x|x|]; cbn [primitiveCheck fst callErrors omap];
      try reflexivity.
    change (callErrors Pos (CallExprNode x :: nodes))
      with (match pair (Pos x) <$> prototypeCheck x with
            | Some y => y :: callErrors Pos nodes
            | None => callErrors Pos nodes
            end).
    by destruct (prototypeCheck x) as [err|].
  - intros n. destruct n as [| | |x|x|]; cbn [primitiveCheck snd];
      try (split; [intros _; tauto|reflexivity]);
      try (split; [discriminate|intros [H|[H|H]]; discriminate]).
    destruct (prototypeCheck x); cbn [snd];
      (split; [discriminate|intros [H|[H|H]]; discriminate]).
Qed.

End WithParser.

Lemma collectVariable_collects_witness :
  let p : ParserState unit := mkParserState [] tt in
  NoDup (Name <$> identList p) /\
  identList (visitAll collectVariable p exampleNodes) = [mkIdent 0 "a"] /\
  NoDup (Name <$> identList (visitAll collectVariable p exampleNodes)).
Proof.
  intros p. assert (Hnd : NoDup (Name <$> identList p)) by constructor.
  split; [exact Hnd|]. split; [reflexivity|].
  exact (proj1 (collectVariable_collects p exampleNodes Hnd)).
Defined.

End ParserFacts.

Module TransportsFacts.
Import Transports.

Lemma needsUpdate_false t conf : needsUpdate t conf = false <-> settingsOf conf t.
Proof.
  unfold needsUpdate, settingsOf.
  destruct (Z.eqb_spec (T_MaxIdleConnsPerHost t) (MaxIdleConnsPerHost conf));
  destruct (Z.eqb_spec (ResponseHeaderTimeout t)
              (milliseconds (TimeoutResponseHeader conf)));
  destruct (Z.eqb_spec (T_ReqWriteBufferSize t) (ReqWriteBufferSize conf));
  destruct (Z.eqb_spec (T_ReqFlushInterval t) (ReqFlushInterval conf));
  cbn; split; try tauto; try discriminate; intros (? & ? & ? & ?); congruence.
Qed.

Lemma createTransport_spec heap conf :
  let r := createTransport heap conf in
  heap !! r.2 = None /\
  (exists t, r.1 !! r.2 = Some t /\ settingsOf conf t /\
             DisableKeepAlives t = (MaxIdleConnsPerHost conf =? 0)) /\
  (forall l, is_Some (heap !! l) -> r.1 !! l = heap !! l).
Proof.
  unfold createTransport. cbn [fst snd].
  assert (Hf : heap !! fresh (dom heap) = None)
    by (apply not_elem_of_dom, is_fresh).
  split; [exact Hf|]. split.
  - eexists. split; [apply lookup_insert_eq|]. by repeat split.
  - intros l [x Hx]. rewrite lookup_insert_ne; [reflexivity|]. congruence.
Qed.

(** What the loop of [setTransports] leaves for the clusters it has met. *)
Definition placed (heap heap' : TransportHeap) (transports new : RoundTripperMap)
    (cluster : string) (conf : BfeCluster) : Prop :=
  exists l t, new !! cluster = Some l /\ heap' !! l = Some t /\
    settingsOf conf t /\
    match transports !! cluster with
    | Some l0 =>
      match heap !! l0 with
      | Some t0 => if needsUpdate t0 conf then heap !! l = None else l = l0
      | None => False
      end
    | None => heap !! l = None
    end.

Lemma setTransports_loop_spec transports entries : forall heap new,
  NoDup entries.*1 -> allocated heap transports ->
  exists heap' new',
    setTransports_loop transports entries (heap, new) = Some (heap', new') /\
    (forall l, is_Some (heap !! l) -> heap' !! l = heap !! l) /\
    (forall cluster, cluster ∉ entries.*1 -> new' !! cluster = new !! cluster) /\
    (forall cluster conf, (cluster, conf) ∈ entries ->
       placed heap heap' transports new' cluster conf).
Proof.
  induction entries as [|[cluster conf] rest IH]; intros heap new Hnd Halloc.
  - exists heap, new. split; [reflexivity|]. split; [by intros|].
    split; [by intros|]. intros c cf Hin. by apply elem_of_nil in Hin.
  - cbn [fmap list_fmap fst] in Hnd. apply NoDup_cons in Hnd as [Hc Hnd].
    cbn [setTransports_loop].
    (* the state after the pass over [cluster] *)
    assert (Hstep : exists heap1 l t,
      (forall l', is_Some (heap !! l') -> heap1 !! l' = heap !! l') /\
      heap1 !! l = Some t /\ settingsOf conf t /\
      match transports !! cluster with
      | Some l0 =>
        match heap !! l0 with
        | Some t0 => if needsUpdate t0 conf then heap !! l = None else l = l0
        | None => False
        end
      | None => heap !! l = None
      end /\
      match transports !! cluster with
      | None =>
        let '(heap, transport) := createTransport heap conf in
        setTransports_loop transports rest (heap, <[cluster := transport]> new)
      | Some transport =>
        match heap !! transport with
        | None => None
        | Some t =>
          if needsUpdate t conf then
            let '(heap, transport) := createTransport heap conf in
            setTransports_loop transports rest (heap, <[cluster := transport]> new)
          else setTransports_loop transports rest (heap, <[cluster := transport]> new)
        end
      end = setTransports_loop transports rest (heap1, <[cluster := l]> new)).
    { destruct (createTransport_spec heap conf) as (Hfresh & (t & Ht & Hset & _) & Hkeep).
      destruct (transports !! cluster) as [l0|] eqn:Hl0.
      - destruct (Halloc cluster l0 Hl0) as [t0 Ht0]. rewrite Ht0.
        destruct (needsUpdate t0 conf) eqn:Hup.
        + destruct (createTransport heap conf) as [heap1 l] eqn:Hct.
          cbn [fst snd] in *. exists heap1, l, t. split; [exact Hkeep|]. split; [exact Ht|]. split; [exact Hset|]. split; [exact Hfresh|reflexivity].
        + exists heap, l0, t0. split; [by intros|]. split; [exact Ht0|].
          split; [by apply needsUpdate_false|]. by split.
      - destruct (createTransport heap conf) as [heap1 l] eqn:Hct.
        cbn [fst snd] in *. exists heap1, l, t. split; [exact Hkeep|]. split; [exact Ht|]. split; [exact Hset|]. split; [exact Hfresh|reflexivity]. }
    destruct Hstep as (heap1 & l & t & Hkeep1 & Hl & Hset & Hold & ->).
    assert (Halloc1 : allocated heap1 transports).
    { intros c l' Hc'. destruct (Halloc c l' Hc') as [x Hx].
      exists x. rewrite Hkeep1; [exact Hx|by exists x]. }
    destruct (IH heap1 (<[cluster := l]> new) Hnd Halloc1)
      as (heap' & new' & Hrun & Hkeep & Hother & Hplaced).
    exists heap', new'. split; [exact Hrun|]. split; [|split].
    + intros l' Hl'. rewrite Hkeep; [by apply Hkeep1|].
      rewrite Hkeep1; [exact Hl'|exact Hl'].
    + intros c Hnot. cbn [fmap list_fmap fst] in Hnot.
      apply not_elem_of_cons in Hnot as [Hne Hnot].
      rewrite (Hother c Hnot). apply lookup_insert_ne. congruence.
    + intros c cf Hin. apply elem_of_cons in Hin as [[= -> ->]|Hin].
      * exists l, t. split; [|split; [|split; [exact Hset|exact Hold]]].
        -- rewrite (Hother cluster Hc). apply lookup_insert_eq.
        -- rewrite Hkeep; [exact Hl|by exists t].
      * destruct (Hplaced c cf Hin) as (l' & t' & Hn & Hh & Hs & Ho).
        exists l', t'. split; [exact Hn|]. split; [exact Hh|]. split; [exact Hs|].
        assert (Hnone : heap1 !! l' = None -> heap !! l' = None).
        { intros H1. destruct (heap !! l') as [x|] eqn:Hx; [|reflexivity].
          rewrite Hkeep1 in H1; [congruence|by exists x]. }
        destruct (transports !! c) as [l0|] eqn:Hl0; [|by apply Hnone].
        destruct (Halloc c l0 Hl0) as [t0 Ht0].
        rewrite (Hkeep1 l0) in Ho by (by exists t0). rewrite Ht0 in Ho |- *.
        destruct (needsUpdate t0 cf); [by apply Hnone|exact Ho].
Qed.

(** X28. [setTransports], on a map whose transports exist, leaves in
    [p.transports] exactly the clusters of [clusterMap], each with a
    transport that has the four settings of its cluster.  The transport of a
    cluster is the one it had when that one already has these settings; it
    is a new one otherwise, for a cluster that had none as for one whose
    settings changed.  No transport that existed is changed. *)
Theorem setTransports_spec (heap : TransportHeap) (transports : RoundTripperMap)
    (clusterMap : gmap string BfeCluster) :
  allocated heap transports ->
  exists heap' new,
    setTransports heap transports clusterMap = Some (heap', new) /\
    dom new = dom clusterMap /\
    (forall l, is_Some (heap !! l) -> heap' !! l = heap !! l) /\
    (forall cluster conf, clusterMap !! cluster = Some conf ->
       exists l t, new !! cluster = Some l /\ heap' !! l = Some t /\
         settingsOf conf t /\
         match transports !! cluster with
         | Some l0 =>
           match heap !! l0 with
           | Some t0 => if needsUpdate t0 conf then heap !! l = None else l = l0
           | None => False
           end
         | None => heap !! l = None
         end).
Proof.
  intros Halloc. unfold setTransports.
  destruct (setTransports_loop_spec transports (map_to_list clusterMap) heap ∅
              (NoDup_fst_map_to_list clusterMap) Halloc)
    as (heap' & new & Hrun & Hkeep & Hother & Hplaced).
  exists heap', new. split; [exact Hrun|]. split; [|split; [exact Hkeep|]].
  - apply set_eq. intros c. rewrite !elem_of_dom. split.
    + intros [l Hl]. destruct (clusterMap !! c) as [conf|] eqn:Hc; [by eexists|].
      rewrite Hother in Hl; [by rewrite lookup_empty in Hl|].
      intros Hin. apply list_elem_of_fmap in Hin as ([c' conf] & -> & Hin).
      apply elem_of_map_to_list in Hin. cbn in Hc. congruence.
    + intros [conf Hc]. apply elem_of_map_to_list in Hc.
      destruct (Hplaced c conf Hc) as (l & _ & Hl & _). by exists l.
  - intros c conf Hc. apply elem_of_map_to_list in Hc. exact (Hplaced c conf Hc).
Qed.

Lemma allocated_heapA : allocated heapA transportsA.
Proof.
  intros c l Hl. unfold transportsA in Hl.
  apply lookup_singleton_Some in Hl as [_ <-].
  unfold heapA, createTransport. cbn [fst snd]. rewrite lookup_insert_eq. by eexists.
Qed.

Lemma setTransports_spec_witness :
  allocated heapA transportsA /\
  exists heap' new,
    setTransports heapA transportsA {[ "a" := clusterA; "b" := clusterB ]}
      = Some (heap', new) /\
    dom new = dom ({[ "a" := clusterA; "b" := clusterB ]} : gmap string BfeCluster).
Proof.
  split; [exact allocated_heapA|].
  destruct (setTransports_spec heapA transportsA
              {[ "a" := clusterA; "b" := clusterB ]} allocated_heapA)
    as (heap' & new & Hrun & Hdom & _).
  exists heap', new. split; [exact Hrun|exact Hdom].
Defined.

(** X29. [getTransport] after [setTransports]: for a name that
    [clusterMap] has, it creates nothing, changes nothing and returns a
    transport with the settings of the cluster that [clusterMap] holds under
    that name (whatever the settings of the cluster passed in); for a name
    that [clusterMap] does not have, it creates a transport with the settings
    of the cluster passed in and stores it under the name. *)
Theorem getTransport_after_setTransports (heap heap' : TransportHeap)
    (transports new : RoundTripperMap) (clusterMap : gmap string BfeCluster)
    (cluster : BfeCluster) :
  allocated heap transports ->
  setTransports heap transports clusterMap = Some (heap', new) ->
  match clusterMap !! Name cluster with
  | Some conf =>
    exists l t, getTransport heap' new cluster = (heap', new, l) /\
      heap' !! l = Some t /\ settingsOf conf t
  | None =>
    exists heap'' l t,
      getTransport heap' new cluster = (heap'', <[Name cluster := l]> new, l) /\
      heap' !! l = None /\ heap'' !! l = Some t /\ settingsOf cluster t /\
      (forall l', is_Some (heap' !! l') -> heap'' !! l' = heap' !! l')
  end.
Proof.
  intros Halloc Hrun.
  destruct (setTransports_loop_spec transports (map_to_list clusterMap) heap ∅
              (NoDup_fst_map_to_list clusterMap) Halloc)
    as (heap1 & new1 & Hrun1 & _ & Hother & Hplaced).
  unfold setTransports in Hrun. rewrite Hrun in Hrun1.
  injection Hrun1 as <- <-.
  destruct (clusterMap !! Name cluster) as [conf|] eqn:Hc.
  - apply elem_of_map_to_list in Hc.
    destruct (Hplaced _ _ Hc) as (l & t & Hl & Ht & Hset & _).
    exists l, t. unfold getTransport. rewrite Hl. by split.
  - assert (Hnew : new !! Name cluster = None).
    { rewrite Hother; [apply lookup_empty|].
      intros Hin. apply list_elem_of_fmap in Hin as ([c' conf] & Heq & Hin).
      apply elem_of_map_to_list in Hin. cbn in Heq. congruence. }
    destruct (createTransport_spec heap' cluster)
      as (Hfresh & (t & Ht & Hset & _) & Hkeep).
    unfold getTransport. rewrite Hnew.
    destruct (createTransport heap' cluster) as [heap'' l].
    cbn [fst snd] in *. exists heap'', l, t.
    split; [reflexivity|]. split; [exact Hfresh|]. split; [exact Ht|].
    split; [exact Hset|exact Hkeep].
Qed.

Lemma getTransport_after_setTransports_witness :
  allocated heapA transportsA /\
  setTransports heapA transportsA {[ "a" := clusterA ]} = Some (heapA, transportsA) /\
  exists l t,
    getTransport heapA transportsA clusterA = (heapA, transportsA, l) /\
    heapA !! l = Some t /\ settingsOf clusterA t.
Proof.
  assert (Hrun : setTransports heapA transportsA {[ "a" := clusterA ]}
                 = Some (heapA, transportsA)) by (vm_compute; reflexivity).
  split; [exact allocated_heapA|]. split; [exact Hrun|].
  exact (getTransport_after_setTransports heapA heapA transportsA transportsA
           {[ "a" := clusterA ]} clusterA allocated_heapA Hrun).
Defined.

End TransportsFacts.
